(** * Verification of [src/template.ts] (class [Template])

    A shallow embedding of the template synchroniser: the JSON merger
    ([omit], [deepMerge]), the path mappings ([templateFile],
    [normalFile]), the tree walk ([files]) and the orchestration
    ([config], [clone], [mergeJson], [main]) over a model of the file
    system.

    Scope of the JavaScript model.  Values are the values [JSON.parse]
    produces plus the objects the merge can build from them (arrays with
    extra properties or holes, primitive wrappers).  Property access is
    access to OWN properties: a name that is not an own property and
    resolves on the prototype of the value ([Object.prototype], and
    [Array.prototype], [String.prototype] or [Number.prototype] on top of
    it) makes the embedding stop with [NotModelled] instead of guessing;
    so do a write that would give an object another prototype and an
    array length written with a non-number.  The prototypes are the ones
    of a fresh realm.  A string is the sequence of its code units, each
    below 256.  Numbers are integer literals; they are opaque to the
    program except as array lengths. *)

From Stdlib Require Import List String Ascii ZArith NArith Bool Lia.
From Stdlib Require Import DecimalString DecimalN.
Import ListNotations.
Set Warnings "-register-all".
Local Open Scope string_scope.
Local Open Scope Z_scope.
Local Open Scope list_scope.

(** ** Outcomes: a JavaScript completion is a value or a thrown exception *)

Inductive exn : Type :=
| JsError (msg : string)      (* [new Error(msg)] *)
| TypeError
| RangeError
| SyntaxError
| FsError (code : string)     (* a rejected [fs.promises] call *)
| ExecError                   (* a rejected [execAsync] call *)
| NotModelled (what : string). (* the embedding stops; not a JS exception *)

Inductive outcome (A : Type) : Type :=
| Ok (a : A)
| Throw (e : exn).
Arguments Ok {A} a.
Arguments Throw {A} e.

Definition bind {A B} (m : outcome A) (f : A -> outcome B) : outcome B :=
  match m with
  | Ok a => f a
  | Throw e => Throw e
  end.

Notation "x <- m ;; k" := (bind m (fun x => k))
  (at level 61, m at next level, right associativity).

(** ** Values *)

Inductive cls : Type :=
| CObject                 (* plain object *)
| CArray (len : N)        (* array exotic object with its [length] *)
| CString (s : string)    (* [Object("..")] wrapper *)
| CNumber (n : Z)
| CBoolean (b : bool).

(** [props] lists the own enumerable string-keyed properties in the order
    [Object.keys] reports them. *)
Inductive value : Type :=
| VUndefined
| VNull
| VBool (b : bool)
| VNum (n : Z)
| VStr (s : string)
| VObj (c : cls) (props : list (string * value)).

Definition props := list (string * value).

(** *** Property keys *)

(** Decimal name of an array index. *)
Definition index_key (n : N) : string :=
  NilZero.string_of_uint (N.to_uint n).

(** An array index is a canonical numeric string below [2^32 - 1]. *)
Definition array_index (k : string) : option N :=
  match NilZero.uint_of_string k with
  | Some u =>
      let n := N.of_uint u in
      if (String.eqb (index_key n) k && (n <? 4294967295)%N)%bool
      then Some n else None
  | None => None
  end.

(** Names that a read resolves on [Object.prototype] when they are not own. *)
Definition prototype_names : list string :=
  [ "__proto__"; "constructor"; "hasOwnProperty"; "isPrototypeOf";
    "propertyIsEnumerable"; "toLocaleString"; "toString"; "valueOf";
    "__defineGetter__"; "__defineSetter__"; "__lookupGetter__";
    "__lookupSetter__" ].

Definition includes (keys : list string) (k : string) : bool :=
  existsb (String.eqb k) keys.

Fixpoint lookup (k : string) (ps : props) : option value :=
  match ps with
  | [] => None
  | (k', v) :: rest => if String.eqb k k' then Some v else lookup k rest
  end.

Definition has_key (k : string) (ps : props) : bool :=
  match lookup k ps with Some _ => true | None => false end.

(** Code units of a string as the index properties of its wrapper (a
    string here is a sequence of code units below 256). *)
Fixpoint string_entries (i : N) (s : string) : props :=
  match s with
  | EmptyString => []
  | String a rest =>
      (index_key i, VStr (String a EmptyString)) :: string_entries (N.succ i) rest
  end.

Definition string_length (s : string) : N := N.of_nat (String.length s).

(** Own property read on a string (primitive or wrapper). *)
Definition string_get (s : string) (k : string) : option value :=
  if String.eqb k "length" then Some (VNum (Z.of_N (string_length s)))
  else lookup k (string_entries 0 s).

(** Further names that a read on an array, a string or a number resolves
    on [Array.prototype], [String.prototype] or [Number.prototype]. *)
Definition array_names : list string :=
  [ "at"; "concat"; "copyWithin"; "entries"; "every"; "fill"; "filter";
    "find"; "findIndex"; "findLast"; "findLastIndex"; "flat"; "flatMap";
    "forEach"; "includes"; "indexOf"; "join"; "keys"; "lastIndexOf"; "map";
    "pop"; "push"; "reduce"; "reduceRight"; "reverse"; "shift"; "slice";
    "some"; "sort"; "splice"; "toReversed"; "toSorted"; "toSpliced";
    "unshift"; "values"; "with" ].

Definition string_names : list string :=
  [ "anchor"; "at"; "big"; "blink"; "bold"; "charAt"; "charCodeAt";
    "codePointAt"; "concat"; "endsWith"; "fixed"; "fontcolor"; "fontsize";
    "includes"; "indexOf"; "isWellFormed"; "italics"; "lastIndexOf"; "link";
    "localeCompare"; "match"; "matchAll"; "normalize"; "padEnd"; "padStart";
    "repeat"; "replace"; "replaceAll"; "search"; "slice"; "small"; "split";
    "startsWith"; "strike"; "sub"; "substr"; "substring"; "sup";
    "toLocaleLowerCase"; "toLocaleUpperCase"; "toLowerCase"; "toUpperCase";
    "toWellFormed"; "trim"; "trimEnd"; "trimLeft"; "trimRight"; "trimStart" ].

Definition number_names : list string :=
  [ "toExponential"; "toFixed"; "toPrecision" ].

(** A read of a name that is not own: [undefined], unless the name
    resolves on [Object.prototype]. *)
Definition inherited (k : string) : outcome value :=
  if includes prototype_names k
  then Throw (NotModelled "inherited property")
  else Ok VUndefined.

(** The same on a value whose own prototype adds the names [more]. *)
Definition inherited_with (more : list string) (k : string) : outcome value :=
  if includes more k
  then Throw (NotModelled "inherited property")
  else inherited k.

(** [o[k]] *)
Definition get (o : value) (k : string) : outcome value :=
  match o with
  | VUndefined | VNull => Throw TypeError
  | VBool _ => inherited k
  | VNum _ => inherited_with number_names k
  | VStr s =>
      match string_get s k with
      | Some v => Ok v
      | None => inherited_with string_names k
      end
  | VObj c ps =>
      match lookup k ps with
      | Some v => Ok v
      | None =>
          match c with
          | CArray len =>
              if String.eqb k "length" then Ok (VNum (Z.of_N len))
              else inherited_with array_names k
          | CString s =>
              match string_get s k with
              | Some v => Ok v
              | None => inherited_with string_names k
              end
          | CNumber _ => inherited_with number_names k
          | CObject | CBoolean _ => inherited k
          end
      end
  end.

(** [v instanceof Object] *)
Definition instanceof_Object (v : value) : bool :=
  match v with
  | VObj _ _ => true
  | _ => false
  end.

(** *** Writing properties *)

Fixpoint replace (k : string) (v : value) (ps : props) : props :=
  match ps with
  | [] => []
  | (k', v') :: rest =>
      if String.eqb k k' then (k, v) :: rest else (k', v') :: replace k v rest
  end.

(** A new array-index key goes before the first key that is a larger index
    or not an index at all. *)
Fixpoint insert_index (i : N) (k : string) (v : value) (ps : props) : props :=
  match ps with
  | [] => [(k, v)]
  | (k', v') :: rest =>
      match array_index k' with
      | Some j =>
          if (j <? i)%N then (k', v') :: insert_index i k v rest
          else (k, v) :: ps
      | None => (k, v) :: ps
      end
  end.

(** Property order: array indices ascending, then names in creation order. *)
Definition insert_new (k : string) (v : value) (ps : props) : props :=
  match array_index k with
  | Some i => insert_index i k v ps
  | None => (ps ++ [(k, v)])%list
  end.

(** [CreateDataProperty]: what an object literal or a spread does. *)
Definition define_own (k : string) (v : value) (ps : props) : props :=
  if has_key k ps then replace k v ps else insert_new k v ps.

(** [Set] on an object whose prototype chain ends in [Object.prototype]: an
    own property is written and a missing one is created, except
    [__proto__].  A missing [__proto__] reaches the setter of
    [Object.prototype], which does nothing for a value that is neither an
    object nor [null], and gives the object another prototype otherwise;
    prototypes are not part of the values here, so the embedding stops
    there. *)
Definition ordinary_set (c : cls) (ps : props) (k : string) (v : value)
  : outcome value :=
  if has_key k ps then Ok (VObj c (replace k v ps))
  else if String.eqb k "__proto__"
       then match v with
            | VNull | VObj _ _ => Throw (NotModelled "prototype change")
            | _ => Ok (VObj c ps)
            end
       else Ok (VObj c (insert_new k v ps)).

Definition below (n : N) (kv : string * value) : bool :=
  match array_index (fst kv) with
  | Some i => (i <? n)%N
  | None => true
  end.

(** [ArraySetLength] *)
Definition array_set_length (ps : props) (v : value) : outcome value :=
  match v with
  | VNum n =>
      if ((0 <=? n) && (n <? 4294967296))%bool
      then Ok (VObj (CArray (Z.to_N n)) (filter (below (Z.to_N n)) ps))
      else Throw RangeError
  | _ => Throw (NotModelled "array length from a non-number")
  end.

(** [o[k] = v] as [Object.assign] performs it (a failed write throws). *)
Definition put (o : value) (k : string) (v : value) : outcome value :=
  match o with
  | VObj (CArray len) ps =>
      if String.eqb k "length" then array_set_length ps v
      else
        match array_index k with
        | Some i =>
            Ok (VObj (CArray (N.max len (N.succ i))) (define_own k v ps))
        | None => ordinary_set (CArray len) ps k v
        end
  | VObj (CString s) ps =>
      if String.eqb k "length" then Throw TypeError
      else
        match array_index k with
        | Some i =>
            if (i <? string_length s)%N then Throw TypeError
            else ordinary_set (CString s) ps k v
        | None => ordinary_set (CString s) ps k v
        end
  | VObj c ps => ordinary_set c ps k v
  | _ => Throw TypeError
  end.

(** [ToObject] *)
Definition to_object (v : value) : outcome value :=
  match v with
  | VUndefined | VNull => Throw TypeError
  | VBool b => Ok (VObj (CBoolean b) [])
  | VNum n => Ok (VObj (CNumber n) [])
  | VStr s => Ok (VObj (CString s) [])
  | VObj _ _ => Ok v
  end.

(** Own enumerable properties with their values, in [Object.keys] order. *)
Definition own_entries (v : value) : props :=
  match v with
  | VObj (CString s) ps => (string_entries 0 s ++ ps)%list
  | VObj _ ps => ps
  | VStr s => string_entries 0 s
  | _ => []
  end.

Fixpoint put_all (o : value) (es : props) : outcome value :=
  match es with
  | [] => Ok o
  | (k, v) :: rest => o' <- put o k v ;; put_all o' rest
  end.

(** [Object.assign(to, from)] *)
Definition assign (to from : value) : outcome value :=
  o <- to_object to ;; put_all o (own_entries from).

(** [Object.keys(v)] with its values; [undefined] and [null] throw. *)
Definition keys_of (v : value) : outcome props :=
  match v with
  | VUndefined | VNull => Throw TypeError
  | _ => Ok (own_entries v)
  end.

(** ** JsonMerger *)

(** [Template.omit]: the reduce starts from [{}] and spreads the
    accumulator with one more key unless [keys.includes(curr)]. *)
Definition omit (keys : list string) (obj : value) : outcome value :=
  es <- keys_of obj ;;
  Ok (VObj CObject
        (fold_left
           (fun prev kv =>
              if negb (includes keys (fst kv))
              then define_own (fst kv) (snd kv) prev
              else prev)
           es [])).

(** What [Object.assign(target, source); return target] hands back: the
    object that was written to, or the primitive itself (the wrapper that
    took the properties is dropped). *)
Definition returned (target written : value) : value :=
  match target with
  | VObj _ _ => written
  | _ => target
  end.

(** [Template.deepMerge].  The loop rewrites every structured entry of
    [source] with the result of merging the target's entry into it; the
    final [Object.assign] joins [target] and the rewritten [source]. *)
Fixpoint deepMerge (target source : value) {struct source} : outcome value :=
  match source with
  | VObj c ps =>
      ps' <- (fix loop (es : props) : outcome props :=
                match es with
                | [] => Ok []
                | (key, v) :: rest =>
                    v' <- (if instanceof_Object v
                           then tk <- get target key ;;
                                r <- deepMerge tk v ;;
                                assign v r
                           else Ok v) ;;
                    rest' <- loop rest ;;
                    Ok ((key, v') :: rest')
                end) ps ;;
      written <- assign target (VObj c ps') ;;
      Ok (returned target written)
  | VUndefined | VNull => Throw TypeError
  | _ => written <- assign target source ;; Ok (returned target written)
  end.

(** *** The values [JSON.parse] builds *)

Fixpoint index_entries (i : N) (l : list value) : props :=
  match l with
  | [] => []
  | v :: rest => (index_key i, v) :: index_entries (N.succ i) rest
  end.

(** A JSON array literal. *)
Definition arr (l : list value) : value :=
  VObj (CArray (N.of_nat (List.length l))) (index_entries 0 l).

(** A JSON object literal with its members in source order. *)
Definition obj (members : props) : value :=
  VObj CObject (fold_left (fun acc kv => define_own (fst kv) (snd kv) acc) members []).

(** The loop of [deepMerge], named so that lemmas can speak about it. *)
Definition merge_entry (target : value) (key : string) (v : value)
  : outcome value :=
  if instanceof_Object v
  then tk <- get target key ;; r <- deepMerge tk v ;; assign v r
  else Ok v.

Fixpoint merge_entries (target : value) (es : props) : outcome props :=
  match es with
  | [] => Ok []
  | (key, v) :: rest =>
      v' <- merge_entry target key v ;;
      rest' <- merge_entries target rest ;;
      Ok ((key, v') :: rest')
  end.


(** ** Paths ([path.posix]) *)

Definition slash : ascii := "/"%char.

(** [s.split(c)] *)
Fixpoint split_on (c : ascii) (s : string) : list string :=
  match s with
  | EmptyString => [EmptyString]
  | String a rest =>
      if Ascii.eqb a c then EmptyString :: split_on c rest
      else match split_on c rest with
           | seg :: segs => String a seg :: segs
           | [] => [String a EmptyString]
           end
  end.

(** [l.join(sep)] *)
Fixpoint join_with (sep : string) (l : list string) : string :=
  match l with
  | [] => EmptyString
  | [x] => x
  | x :: rest => String.append x (String.append sep (join_with sep rest))
  end.

Definition starts_with_slash (p : string) : bool :=
  match p with
  | String a _ => Ascii.eqb a slash
  | EmptyString => false
  end.

Fixpoint ends_with_slash (p : string) : bool :=
  match p with
  | EmptyString => false
  | String a EmptyString => Ascii.eqb a slash
  | String _ rest => ends_with_slash rest
  end.

(** One step of [normalizeString] on the stack of kept segments (last
    segment first): empty and ["."] segments are dropped, [".."] removes the
    previous segment unless there is none or it is [".."] itself. *)
Definition normalize_step (allowAboveRoot : bool) (stack : list string)
           (seg : string) : list string :=
  if String.eqb seg "" || String.eqb seg "." then stack
  else if String.eqb seg ".." then
    match stack with
    | top :: below =>
        if String.eqb top ".."
        then (if allowAboveRoot then seg :: stack else stack)
        else below
    | [] => if allowAboveRoot then [seg] else []
    end
  else seg :: stack.

Definition normalize_segments (allowAboveRoot : bool) (p : string) : list string :=
  rev (fold_left (normalize_step allowAboveRoot) (split_on slash p) []).

(** [path.normalize] *)
Definition normalize (p : string) : string :=
  if String.eqb p "" then "."
  else
    let isAbsolute := starts_with_slash p in
    let trailingSeparator := ends_with_slash p in
    let body := join_with "/" (normalize_segments (negb isAbsolute) p) in
    if String.eqb body "" then
      (if isAbsolute then "/" else if trailingSeparator then "./" else ".")
    else
      let body' := if trailingSeparator then String.append body "/" else body in
      if isAbsolute then String "/" body' else body'.

(** [path.join(...paths)] *)
Definition join (paths : list string) : string :=
  match filter (fun p => negb (String.eqb p "")) paths with
  | [] => "."
  | parts => normalize (join_with "/" parts)
  end.

(** [path.dirname], on the reversed characters: trailing slashes are
    skipped, then the last segment and one slash are cut. *)
Fixpoint drop_slashes (r : list ascii) : list ascii :=
  match r with
  | a :: rest => if Ascii.eqb a slash then drop_slashes rest else r
  | [] => []
  end.

Fixpoint drop_segment (r : list ascii) : option (list ascii) :=
  match r with
  | a :: rest => if Ascii.eqb a slash then Some rest else drop_segment rest
  | [] => None
  end.

Definition dirname (p : string) : string :=
  match list_ascii_of_string p with
  | [] => "."
  | first :: tail =>
      let hasRoot := Ascii.eqb first slash in
      match drop_segment (drop_slashes (rev tail)) with
      | Some [] => if hasRoot then "//" else String first EmptyString
      | Some kept => string_of_list_ascii (first :: rev kept)
      | None => if hasRoot then "/" else "."
      end
  end.

(** ** The prefix strip: [s.replace(new RegExp(`^${pattern}`), '')]

    The location is spliced into the pattern unescaped, so its characters
    are read as regular-expression syntax.  The embedding covers literals,
    [.], the assertions [^] and [$] and plain groups; quantifiers, classes,
    alternation and escapes stop it with [NotModelled]. *)

Inductive atom : Type :=
| ALit (c : ascii)
| AAny            (* [.] *)
| ABegin          (* [^] *)
| AEnd            (* [$] *)
| AOpen           (* [(] *)
| AClose.         (* [)] *)

Definition atom_of_char (c : ascii) : outcome atom :=
  if Ascii.eqb c "."%char then Ok AAny
  else if Ascii.eqb c "^"%char then Ok ABegin
  else if Ascii.eqb c "$"%char then Ok AEnd
  else if Ascii.eqb c "("%char then Ok AOpen
  else if Ascii.eqb c ")"%char then Ok AClose
  else if existsb (Ascii.eqb c)
            ["\"%char; "*"%char; "+"%char; "?"%char; "["%char; "{"%char; "|"%char]
       then Throw (NotModelled "regular expression syntax")
       else Ok (ALit c).

(** Reads the pattern; [depth] counts the groups still open. *)
Fixpoint parse_pattern (depth : nat) (p : string) : outcome (list atom) :=
  match p with
  | EmptyString =>
      match depth with
      | O => Ok []
      | S _ => Throw SyntaxError
      end
  | String c rest =>
      a <- atom_of_char c ;;
      match a with
      | AOpen => r <- parse_pattern (S depth) rest ;; Ok (a :: r)
      | AClose =>
          match depth with
          | O => Throw SyntaxError
          | S d => r <- parse_pattern d rest ;; Ok (a :: r)
          end
      | _ => r <- parse_pattern depth rest ;; Ok (a :: r)
      end
  end.

Definition line_terminator (c : ascii) : bool :=
  Ascii.eqb c "010"%char || Ascii.eqb c "013"%char.

(** Matches the atoms at the current position; [at_start] tells whether the
    position is still the start of the input.  Returns what follows the
    match. *)
Fixpoint match_here (atoms : list atom) (at_start : bool) (s : string)
  : option string :=
  match atoms with
  | [] => Some s
  | ALit c :: rest =>
      match s with
      | String c' s' => if Ascii.eqb c c' then match_here rest false s' else None
      | EmptyString => None
      end
  | AAny :: rest =>
      match s with
      | String c' s' =>
          if line_terminator c' then None else match_here rest false s'
      | EmptyString => None
      end
  | ABegin :: rest => if at_start then match_here rest at_start s else None
  | AEnd :: rest =>
      match s with
      | EmptyString => match_here rest at_start s
      | String _ _ => None
      end
  | AOpen :: rest | AClose :: rest => match_here rest at_start s
  end.

(** [s.replace(new RegExp(`^${pattern}`), '')]: the pattern starts with [^],
    so the only match there can be starts at the first character. *)
Definition strip_prefix (pattern s : string) : outcome string :=
  atoms <- parse_pattern 0 pattern ;;
  Ok (match match_here (ABegin :: atoms) true s with
      | Some rest => rest
      | None => s
      end).

(** [Template.templateFile] *)
Definition templateFile (file location : string) : outcome string :=
  chopped <- strip_prefix location file ;;
  Ok (join [location; join [".template"; chopped]]).

(** [Template.normalFile] *)
Definition normalFile (templateFile templateDir location : string)
  : outcome string :=
  chopped <- strip_prefix templateDir templateFile ;;
  Ok (join [location; chopped]).

(** ** The file system

    A directory tree of regular files.  Permissions, links and special
    files are not modelled; the entries of a directory keep the order in
    which [readdir] lists them. *)

Inductive node : Type :=
| File (content : string)
| Dir (entries : list (string * node)).

Definition tree := list (string * node).

(** The calls that change the world, in the order they were issued. *)
Inductive event : Type :=
| EWriteFile (path content : string)
| EMkdir (path : string)
| EUnlink (path : string)
| ERmdir (path : string)
| ECopyFile (src dest : string)
| EExec (command : string).

Record world : Type := mkWorld {
  cwd : string;           (* [process.cwd()], absolute *)
  root : tree;            (* entries of [/] *)
  effects : list event    (* most recent last *)
}.

(** The host the program runs on: the JSON codec and child processes. *)
Class Host : Type := {
  (* [JSON.parse]; [None] is a [SyntaxError] *)
  parse : string -> option value;
  (* [JSON.stringify(v, null, 2)] *)
  stringify : value -> string;
  (* what running a shell command does to the tree, and whether it exits
     with status 0 *)
  spawn : string -> string -> tree -> bool * tree
}.

(** Computations over the world: [async] functions run to completion. *)
Definition M (A : Type) : Type := world -> outcome A * world.

Definition ret {A} (a : A) : M A := fun w => (Ok a, w).
Definition throw {A} (e : exn) : M A := fun w => (Throw e, w).
Definition lift {A} (o : outcome A) : M A := fun w => (o, w).

Definition mbind {A B} (m : M A) (f : A -> M B) : M B :=
  fun w =>
    match m w with
    | (Ok a, w') => f a w'
    | (Throw e, w') => (Throw e, w')
    end.

(** [try { m } catch (e) { h }] *)
Definition try_catch {A} (m : M A) (h : M A) : M A :=
  fun w =>
    match m w with
    | (Ok a, w') => (Ok a, w')
    | (Throw _, w') => h w'
    end.

Declare Scope M_scope.
Delimit Scope M_scope with M.
Notation "x <~ m ;; k" := (mbind m (fun x => k))
  (at level 61, m at next level, right associativity) : M_scope.
Notation "m ;;; k" := (mbind m (fun _ => k))
  (at level 61, right associativity) : M_scope.

Definition emit (e : event) : M unit :=
  fun w => (Ok tt, mkWorld (cwd w) (root w) (effects w ++ [e])).

Definition get_root : M tree := fun w => (Ok (root w), w).
Definition set_root (t : tree) : M unit :=
  fun w => (Ok tt, mkWorld (cwd w) t (effects w)).

(** [Promise.all(xs.map(f))] over calls that run one after the other; the
    first rejection rejects the whole.  The source starts every call
    before the first one settles, so that calls on a list of several
    elements can interleave (two of them creating the same directory, say)
    and a call keeps running after another one has rejected; on such lists
    the statements speak of the order of the list. *)
Fixpoint for_each {A B} (f : A -> M B) (xs : list A) : M (list B) :=
  match xs with
  | [] => ret []
  | x :: rest =>
      (y <~ f x ;; ys <~ for_each f rest ;; ret (y :: ys))%M
  end.

(** *** Trees *)

Fixpoint find_entry (name : string) (es : tree) : option node :=
  match es with
  | [] => None
  | (n, c) :: rest => if String.eqb name n then Some c else find_entry name rest
  end.

Fixpoint set_entry (name : string) (c : node) (es : tree) : tree :=
  match es with
  | [] => [(name, c)]
  | (n, c') :: rest =>
      if String.eqb name n then (n, c) :: rest else (n, c') :: set_entry name c rest
  end.

Fixpoint remove_entry (name : string) (es : tree) : tree :=
  match es with
  | [] => []
  | (n, c) :: rest =>
      if String.eqb name n then rest else (n, c) :: remove_entry name rest
  end.

Fixpoint lookup_path (segs : list string) (n : node) : option node :=
  match segs with
  | [] => Some n
  | s :: rest =>
      match n with
      | Dir es =>
          match find_entry s es with
          | Some c => lookup_path rest c
          | None => None
          end
      | File _ => None
      end
  end.

(** Rewrites the slot a path names: [f] sees what is there and answers
    with what shall be there ([None]: nothing). *)
Fixpoint alter_path (segs : list string)
         (f : option node -> outcome (option node)) (n : node) : outcome node :=
  match n with
  | File _ => Throw (FsError "ENOTDIR")
  | Dir es =>
      match segs with
      | [] => Throw (FsError "EISDIR")
      | [s] =>
          r <- f (find_entry s es) ;;
          Ok (Dir (match r with
                   | Some c => set_entry s c es
                   | None => remove_entry s es
                   end))
      | s :: rest =>
          match find_entry s es with
          | Some c => c' <- alter_path rest f c ;; Ok (Dir (set_entry s c' es))
          | None => Throw (FsError "ENOENT")
          end
      end
  end.

(** Segments of a path as [path.resolve] normalises it: against the
    working directory, with [.], [..] and empty segments folded away as
    text.  The calls of [fs.promises] below look a path up by these
    segments; the operating system goes segment by segment instead, and
    wants the directory before a [..] to exist.  The two agree on the
    paths the program hands over, which it builds with [path.join] and
    [path.resolve]. *)
Definition resolve_segments (w : world) (p : string) : list string :=
  if starts_with_slash p then normalize_segments false p
  else normalize_segments false (String.append (cwd w) (String.append "/" p)).

(** [path.resolve(p)] *)
Definition resolve (p : string) : M string :=
  fun w => (Ok (String "/" (join_with "/" (resolve_segments w p))), w).

Definition node_at (p : string) : M (option node) :=
  fun w => (Ok (lookup_path (resolve_segments w p) (Dir (root w))), w).

Definition alter_at (p : string) (f : option node -> outcome (option node))
  : M unit :=
  fun w =>
    match alter_path (resolve_segments w p) f (Dir (root w)) with
    | Ok (Dir es) => (Ok tt, mkWorld (cwd w) es (effects w))
    | Ok (File _) => (Throw (FsError "ENOTDIR"), w)
    | Throw e => (Throw e, w)
    end.

(** *** [fs.promises] *)

Definition readFile (p : string) : M string :=
  (n <~ node_at p ;;
   match n with
   | Some (File c) => ret c
   | Some (Dir _) => throw (FsError "EISDIR")
   | None => throw (FsError "ENOENT")
   end)%M.

Definition writeFile (p content : string) : M unit :=
  (emit (EWriteFile p content) ;;;
   alter_at p (fun slot =>
                 match slot with
                 | Some (Dir _) => Throw (FsError "EISDIR")
                 | _ => Ok (Some (File content))
                 end))%M.

Definition stat (p : string) : M unit :=
  (n <~ node_at p ;;
   match n with
   | Some _ => ret tt
   | None => throw (FsError "ENOENT")
   end)%M.

Definition mkdir (p : string) : M unit :=
  (emit (EMkdir p) ;;;
   alter_at p (fun slot =>
                 match slot with
                 | None => Ok (Some (Dir []))
                 | Some _ => Throw (FsError "EEXIST")
                 end))%M.

(** [readdir(p, {withFileTypes: true})]: each entry comes with the node it
    names, so that a walk can descend into what it has just listed. *)
Definition readdir (p : string) : M tree :=
  (n <~ node_at p ;;
   match n with
   | Some (Dir es) => ret es
   | Some (File _) => throw (FsError "ENOTDIR")
   | None => throw (FsError "ENOENT")
   end)%M.

Definition unlink (p : string) : M unit :=
  (emit (EUnlink p) ;;;
   alter_at p (fun slot =>
                 match slot with
                 | Some (File _) => Ok None
                 | Some (Dir _) => Throw (FsError "EISDIR")
                 | None => Throw (FsError "ENOENT")
                 end))%M.

(** [fs.promises.rmdir]: removes an empty directory. *)
Definition fs_rmdir (p : string) : M unit :=
  (emit (ERmdir p) ;;;
   alter_at p (fun slot =>
                 match slot with
                 | Some (Dir []) => Ok None
                 | Some (Dir _) => Throw (FsError "ENOTEMPTY")
                 | Some (File _) => Throw (FsError "ENOTDIR")
                 | None => Throw (FsError "ENOENT")
                 end))%M.

Definition copyFile (src dest : string) : M unit :=
  (emit (ECopyFile src dest) ;;;
   n <~ node_at src ;;
   match n with
   | Some (File c) =>
       alter_at dest (fun slot =>
                        match slot with
                        | Some (Dir _) => Throw (FsError "EISDIR")
                        | _ => Ok (Some (File c))
                        end)
   | Some (Dir _) => throw (FsError "EISDIR")
   | None => throw (FsError "ENOENT")
   end)%M.

(** [execAsync(command)] *)
Definition execAsync `{Host} (command : string) : M unit :=
  (emit (EExec command) ;;;
   (fun w =>
      let '(ok, t) := spawn command (cwd w) (root w) in
      (if ok then Ok tt else Throw ExecError,
       mkWorld (cwd w) t (effects w))))%M.

(** ** The program: [class Template] *)

Definition COMMIT : string := "commit".
Definition PULL : string := "pull".
Definition defaultIgnore : list value := [VStr ".git"; VStr ".template"].

(** [!v] *)
Definition falsy (v : value) : bool :=
  match v with
  | VUndefined | VNull => true
  | VBool b => negb b
  | VNum n => Z.eqb n 0
  | VStr s => String.eqb s ""
  | VObj _ _ => false
  end.

(** Elements of an array, holes read as [undefined]. *)
Definition elements (len : N) (ps : props) : list value :=
  map (fun i => match lookup (index_key (N.of_nat i)) ps with
                | Some v => v
                | None => VUndefined
                end)
      (seq 0 (N.to_nat len)).

(** [(v || []).map(f)] and the like: the array [v || []]; a truthy [v]
    without [map] throws. *)
Definition array_or_empty (v : value) : outcome (list value) :=
  if falsy v then Ok []
  else match v with
       | VObj (CArray len) ps => Ok (elements len ps)
       | _ => Throw TypeError
       end.

(** [...(v || [])]: strings are iterable too. *)
Definition spread_or_empty (v : value) : outcome (list value) :=
  if falsy v then Ok []
  else match v with
       | VObj (CArray len) ps => Ok (elements len ps)
       | VStr s => Ok (map snd (string_entries 0 s))
       | _ => Throw TypeError
       end.

Fixpoint map_outcome {A B} (f : A -> outcome B) (xs : list A) : outcome (list B) :=
  match xs with
  | [] => Ok []
  | x :: rest => y <- f x ;; ys <- map_outcome f rest ;; Ok (y :: ys)
  end.

(** A value inside a template literal. *)
Definition template_string (v : value) : outcome string :=
  match v with
  | VStr s => Ok s
  | VNum n => Ok (NilZero.string_of_int (Z.to_int n))
  | VBool true => Ok "true"
  | VBool false => Ok "false"
  | VNull => Ok "null"
  | VUndefined => Ok "undefined"
  | VObj _ _ => Throw (NotModelled "string conversion of an object")
  end.

(** An argument of [path.join] must be a string. *)
Definition path_argument (v : value) : outcome string :=
  match v with
  | VStr s => Ok s
  | _ => Throw TypeError
  end.

(** [ignoreKeys] as the interface [ConfigJson] types it: [string[]].
    Elements that are not strings never equal a key. *)
Definition string_array (v : value) : outcome (list string) :=
  match v with
  | VObj (CArray len) ps =>
      Ok (flat_map (fun e => match e with VStr s => [s] | _ => [] end)
                   (elements len ps))
  | _ => Throw (NotModelled "ignoreKeys is not an array")
  end.

(** [ignore.includes(name)] *)
Definition ignored (ignore : list value) (name : string) : bool :=
  existsb (fun v => match v with VStr s => String.eqb s name | _ => false end)
          ignore.

(** [`git -C ${location} clone ${repo} .template`] *)
Definition clone_command (location repo : string) : string :=
  String.append "git -C "
    (String.append location
       (String.append " clone " (String.append repo " .template"))).

Record Config : Type := mkConfig {
  source : value;
  ignore : list value;
  json : value
}.

Section Program.
Context `{Host}.
Local Open Scope M_scope.

(** [Template.readJson] *)
Definition readJson (filePath : string) : M value :=
  try_catch
    (content <~ readFile filePath ;;
     match parse content with
     | Some v => ret v
     | None => throw SyntaxError
     end)
    (ret (VObj CObject [])).

(** [Template.readGitIgnore] *)
Definition readGitIgnore (filePath : string) : M (list string) :=
  try_catch
    (content <~ readFile filePath ;;
     ret (filter (fun i => negb (String.eqb i ""))
                 (split_on "010"%char content)))
    (ret []).

(** [Template.config] *)
Definition config (location : string) : M Config :=
  let configPath := join [location; "template.json"] in
  let ignorePath := join [location; ".gitignore"] in
  config <~ readJson configPath ;;
  gitignore <~ readGitIgnore ignorePath ;;
  src <~ lift (get config "source") ;;
  if falsy src then throw (JsError "config is missing source")
  else
    cjson <~ lift (get config "json") ;;
    entries <~ lift (array_or_empty cjson) ;;
    ignoreJson <~ lift (map_outcome (fun j => get j "name") entries) ;;
    cignore <~ lift (get config "ignore") ;;
    extra <~ lift (spread_or_empty cignore) ;;
    ret (mkConfig src
                  (map VStr gitignore ++ ignoreJson ++ defaultIgnore ++ extra)
                  cjson).

(** The recursion of [Template.files] below one directory.  The source
    pushes paths as the concurrent [readdir] calls complete; the list here
    is in entry order, depth first, and the statements about it speak of
    membership only. *)
Fixpoint walk_node (ignore : list value) (fullLocation : string) (n : node)
  : list string :=
  match n with
  | File _ => [fullLocation]
  | Dir es =>
      (fix recursive (entries : tree) : list string :=
         match entries with
         | [] => []
         | (name, c) :: rest =>
             if ignored ignore name then recursive rest
             else walk_node ignore (join [fullLocation; name]) c
                    ++ recursive rest
         end) es
  end.

(** [Template.files] *)
Definition files (location : string) (ignore : list value) : M (list string) :=
  entries <~ readdir location ;;
  ret (walk_node ignore location (Dir entries)).

(** [Template.rmdir] *)
Fixpoint rmdir_node (fullLocation : string) (n : node) : M unit :=
  match n with
  | File _ => unlink fullLocation
  | Dir es =>
      (fix each (entries : tree) : M unit :=
         match entries with
         | [] => ret tt
         | (name, c) :: rest =>
             rmdir_node (join [fullLocation; name]) c ;;; each rest
         end) es ;;;
      fs_rmdir fullLocation
  end.

Definition rmdir (location : string) : M unit :=
  entries <~ readdir location ;;
  rmdir_node location (Dir entries).

(** [Template.mkdirp] *)
Definition mkdirp (location : string) : M unit :=
  location <~ resolve location ;;
  let locationSplit := split_on slash location in
  let segments :=
    filter (fun i => negb (String.eqb i "/"))
           (map (fun index => join ("/" :: firstn (S index) locationSplit))
                (seq 0 (List.length locationSplit))) in
  for_each (fun segment => try_catch (stat segment) (mkdir segment)) segments ;;;
  ret tt.

(** [Template.clone] *)
Definition clone (repo : value) (location : string) : M unit :=
  try_catch (rmdir (join [location; ".template"])) (ret tt) ;;;
  r <~ lift (template_string repo) ;;
  execAsync (clone_command location r).

(** The body of the arrow function that [Template.mergeJson] maps over the
    configured files. *)
Definition mergeJsonFile (location cmd : string) (jsonFile : value) : M unit :=
  ignoreKeysV <~ lift (get jsonFile "ignoreKeys") ;;
  nameV <~ lift (get jsonFile "name") ;;
  name <~ lift (path_argument nameV) ;;
  let file := join [location; name] in
  templateFile <~ lift (templateFile file location) ;;
  fileJSON <~ readJson file ;;
  templateFileJSON <~ readJson templateFile ;;
  ignoreKeys <~ lift (string_array ignoreKeysV) ;;
  iFileJSON <~ lift (omit ignoreKeys fileJSON) ;;
  iTemplateFileJSON <~ lift (omit ignoreKeys templateFileJSON) ;;
  (if String.eqb cmd COMMIT then
     json <~ lift (deepMerge templateFileJSON iFileJSON) ;;
     let output := stringify json in
     mkdirp (dirname templateFile) ;;;
     writeFile templateFile output
   else ret tt) ;;;
  (if String.eqb cmd PULL then
     json <~ lift (deepMerge fileJSON iTemplateFileJSON) ;;
     let output := stringify json in
     mkdirp (dirname file) ;;;
     writeFile file output
   else ret tt).

(** [Template.mergeJson] *)
Definition mergeJson (json : value) (location : string) (cmd : string) : M unit :=
  jsonFiles <~ lift (array_or_empty json) ;;
  for_each (mergeJsonFile location cmd) jsonFiles ;;;
  ret tt.

(** [Template.main] *)
Definition main (location : string) (cmd : string) : M unit :=
  c <~ config location ;;
  clone (source c) location ;;;
  mergeJson (json c) location cmd ;;;
  if String.eqb cmd COMMIT then
    fs <~ files location (ignore c) ;;
    for_each
      (fun file =>
         templateFile <~ lift (templateFile file location) ;;
         mkdirp (dirname templateFile) ;;;
         copyFile file templateFile)
      fs ;;;
    ret tt
  else if String.eqb cmd PULL then
    let templateDir := join [location; ".template"] in
    fs <~ files templateDir (ignore c) ;;
    for_each
      (fun templateFile =>
         file <~ lift (normalFile templateFile templateDir location) ;;
         mkdirp (dirname file) ;;;
         copyFile templateFile file)
      fs ;;;
    ret tt
  else throw (JsError "invalid sub-command").

End Program.

(** *** Vocabulary for the tree walk *)

(** [path.join] applied along a chain of entry names below a location. *)
Definition descend (location : string) (names : list string) : string :=
  fold_left (fun acc name => join [acc; name]) names location.

(** [at_path names n m]: following [names] entry by entry from [n] leads to
    [m]; every name but the last then names a directory. *)
Inductive at_path : list string -> node -> node -> Prop :=
| at_here (n : node) : at_path [] n n
| at_step (name : string) (c : node) (es : tree) (rest : list string) (m : node) :
    In (name, c) es -> at_path rest c m -> at_path (name :: rest) (Dir es) m.

(** *** What the two directions write

    The value [mergeJsonFile] serialises under [commit] and under [pull],
    from the two parsed files and the ignored keys. *)

Definition commit_merge (ignoreKeys : list string)
           (fileJSON templateFileJSON : value) : outcome value :=
  iFileJSON <- omit ignoreKeys fileJSON ;;
  deepMerge templateFileJSON iFileJSON.

Definition pull_merge (ignoreKeys : list string)
           (fileJSON templateFileJSON : value) : outcome value :=
  iTemplateFileJSON <- omit ignoreKeys templateFileJSON ;;
  deepMerge fileJSON iTemplateFileJSON.

(** ** Vocabulary of the statements *)

(** The loop over the entries of one directory in [Template.files]. *)
Fixpoint walk_entries (ignore : list value) (fullLocation : string)
         (entries : tree) : list string :=
  match entries with
  | [] => []
  | (name, c) :: rest =>
      if ignored ignore name then walk_entries ignore fullLocation rest
      else walk_node ignore (join [fullLocation; name]) c
             ++ walk_entries ignore fullLocation rest
  end.

(** A computation that leaves the world as it is. *)
Definition pure_M {A} (m : M A) : Prop := forall w, snd (m w) = w.

(** The error of the last line of [Template.main]. *)
Definition invalid_command : exn := JsError "invalid sub-command".

Definition oavoids {A} (o : outcome A) : Prop := o <> Throw invalid_command.
Definition avoids {A} (m : M A) : Prop :=
  forall w w', m w <> (Throw invalid_command, w').

(** *** The commit scenario of the specification *)

Definition scenario_config : value :=
  obj [("source", VStr "repo-url");
       ("json", arr [obj [("name", VStr "pkg.json");
                          ("ignoreKeys", arr [VStr "version"])]])].

Definition scenario_project : value :=
  obj [("version", VStr "1.0.0"); ("name", VStr "app")].

Definition scenario_template : value :=
  obj [("version", VStr "0.9.0"); ("name", VStr "template-app");
       ("license", VStr "MIT")].

Definition scenario_merged : value :=
  obj [("version", VStr "0.9.0"); ("name", VStr "app"); ("license", VStr "MIT")].

(** The project before the run ([cC] and [cP] are the texts of
    [template.json] and [pkg.json]) and the checkout [git clone] leaves
    ([cT] is the text of the template's [pkg.json]). *)
Definition scenario_tree (cC cP : string) : tree :=
  [("proj", Dir [("template.json", File cC); ("pkg.json", File cP)])].

Definition scenario_cloned (cC cP cT : string) : tree :=
  [("proj", Dir [("template.json", File cC); ("pkg.json", File cP);
                 (".template", Dir [("pkg.json", File cT)])])].

Definition scenario_world (cC cP : string) : world :=
  mkWorld "/proj" (scenario_tree cC cP) [].

Definition scenario_final `{Host} (cC cP : string) : world :=
  mkWorld "/proj"
    [("proj", Dir [("template.json", File cC); ("pkg.json", File cP);
                   (".template",
                    Dir [("pkg.json", File (stringify scenario_merged));
                         ("template.json", File cC)])])]
    [EExec "git -C /proj clone repo-url .template";
     EWriteFile "/proj/.template/pkg.json" (stringify scenario_merged);
     ECopyFile "/proj/template.json" "/proj/.template/template.json"].

(** *** A small host, for closed examples

    Three texts parse: ["C"], ["P"] and ["T"] stand for the scenario's
    [template.json] and the two [pkg.json]; the only command that succeeds
    is the scenario's clone. *)
Definition demo_parse (s : string) : option value :=
  if String.eqb s "C" then Some scenario_config
  else if String.eqb s "P" then Some scenario_project
  else if String.eqb s "T" then Some scenario_template
  else None.

Definition demo_spawn (command directory : string) (t : tree) : bool * tree :=
  if String.eqb command "git -C /proj clone repo-url .template"
  then (true, scenario_cloned "C" "P" "T")
  else (false, t).

Definition demo_host : Host :=
  {| parse := demo_parse;
     stringify := fun _ => "{}";
     spawn := demo_spawn |}.

(** A project tree for the walk: two ignored directories, one of them
    nested. *)
Definition demo_walk_world : world :=
  mkWorld "/proj"
    [("proj", Dir [("a.txt", File "a");
                   ("node_modules", Dir [("x.js", File "x")]);
                   ("src", Dir [("b.ts", File "b");
                                (".git", Dir [("c", File "c")])])])]
    [].

(** A sufficient condition for [deepMerge] to return, on plain objects:
    the structured values of [s] are plain objects, at every depth (an
    array or a wrapper in [s] is outside the condition); each of them
    meets a plain object of [t] under the same key; and no write has to go
    through the [__proto__] setter, neither into [t] nor when a nested
    result is copied back into the object of [s]. *)
Definition settable (own : props) (k : string) : bool :=
  has_key k own || negb (String.eqb k "__proto__").




(** A value that the setter of [__proto__] ignores. *)
Definition ignorable (v : value) : bool :=
  match v with
  | VNull | VObj _ _ => false
  | _ => true
  end.

Fixpoint mergeable (t s : value) : bool :=
  match s, t with
  | VObj CObject ps, VObj CObject pt =>
      (fix each (es : props) : bool :=
         match es with
         | [] => true
         | (k, v) :: rest =>
             settable pt k &&
             (if instanceof_Object v then
                match lookup k pt, v with
                | Some (VObj CObject ptk), VObj CObject pv =>
                    forallb (fun kv => settable pv (fst kv)) ptk &&
                    mergeable (VObj CObject ptk) v
                | _, _ => false
                end
              else true) &&
             each rest
         end) ps
  | _, _ => false
  end.

(** A character that, read as a pattern, matches itself and nothing else
    needs: a literal, or the dot. *)
Definition pattern_safe (c : ascii) : bool :=
  match atom_of_char c with
  | Ok (ALit _) => true
  | Ok AAny => negb (line_terminator c)
  | _ => false
  end.

Fixpoint all_chars (f : ascii -> bool) (s : string) : bool :=
  match s with
  | EmptyString => true
  | String c rest => f c && all_chars f rest
  end.

Definition not_slash (c : ascii) : bool := negb (Ascii.eqb c slash).

(** An entry name: not empty, not [.] or [..], without separator. *)
Definition good_name (s : string) : bool :=
  negb (String.eqb s "") && negb (String.eqb s ".") && negb (String.eqb s "..")
  && all_chars not_slash s.

(** The absolute path with the given segments. *)
Definition abs_path (segs : list string) : string :=
  String "/" (join_with "/" segs).

(** The segments of a string: every one empty or an entry name, and the
    entry names among them. *)
Definition segments_are (p : string) (gs : list string) : Prop :=
  Forall (fun s => s = "" \/ good_name s = true) (split_on slash p) /\
  filter (fun s => negb (String.eqb s "")) (split_on slash p) = gs /\
  Forall (fun n => good_name n = true) gs.

(** *** Vocabulary of the further properties *)

Definition open_paren : ascii := "("%char.

Fixpoint count_char (c : ascii) (s : string) : nat :=
  match s with
  | EmptyString => O
  | String a rest => (if Ascii.eqb a c then 1 else 0) + count_char c rest
  end.

Definition is_mkdir (e : event) : bool :=
  match e with
  | EMkdir _ => true
  | _ => false
  end.

(** An event that removes the entry at [p]. *)
Definition removal_of (p : string) (e : event) : Prop :=
  e = EUnlink p \/ e = ERmdir p.

(** The loop of [Template.rmdir] over the entries of one directory. *)
Fixpoint rmdir_entries (fullLocation : string) (entries : tree) : M unit :=
  match entries with
  | [] => ret tt
  | (name, c) :: rest =>
      (rmdir_node (join [fullLocation; name]) c ;;; rmdir_entries fullLocation rest)%M
  end.

Definition newline : ascii := "010"%char.
Definition not_newline (c : ascii) : bool := negb (Ascii.eqb c newline).

(** Events that remove entries at or below [full]: each one at a path
    reached from [full] by descending through entry names. *)
Definition removals_below (full : string) (evs : list event) : Prop :=
  Forall (fun e => exists names,
              Forall (fun n => good_name n = true) names /\
              removal_of (descend full names) e) evs.

(** One step of [mkdirp]: [try { stat } catch { mkdir }]. *)
Definition mkdirp_step (segment : string) : M unit :=
  try_catch (stat segment) (mkdir segment).

(** What [mkdirp] keeps from one world to the next: the working directory,
    the files, and an effect log that grows by [mkdir] calls only. *)
Definition grows_by_mkdirs (w w' : world) : Prop :=
  cwd w' = cwd w /\
  (exists mk, effects w' = effects w ++ mk /\
              Forall (fun e => is_mkdir e = true) mk) /\
  (forall q c, lookup_path q (Dir (root w)) = Some (File c) ->
               lookup_path q (Dir (root w')) = Some (File c)).

(** A filler writes only into an empty slot, and always the same node. *)
Definition filler (f : option node -> outcome (option node)) (d : node) : Prop :=
  forall slot r, f slot = Ok r -> slot = None /\ r = Some d.

Definition fs_error (e : exn) : Prop := exists code, e = FsError code.

(** A computation that throws file-system errors only. *)
Definition throws_fs_only {A} (m : M A) : Prop :=
  forall w w' e, m w = (Throw e, w') -> fs_error e.

(** A well-formed tree: in every directory the names are entry names and
    pairwise different. *)
Inductive wf_node : node -> Prop :=
| wf_file (c : string) : wf_node (File c)
| wf_dir (es : tree) :
    NoDup (map fst es) ->
    Forall (fun e => good_name (fst e) = true /\ wf_node (snd e)) es ->
    wf_node (Dir es).

(** Puts [r] into the slot a path names, whatever is there. *)
Definition put_slot (r : option node) : option node -> outcome (option node) :=
  fun _ => Ok r.

(** *** Two more hosts, for closed examples

    A host without network: every command fails and leaves the tree as it
    is. *)
Definition offline_host : Host :=
  {| parse := demo_parse;
     stringify := fun _ => "{}";
     spawn := fun _ _ t => (false, t) |}.

(** A host whose printer and parser agree on the one object the example
    writes: ["M"] is the text of the project's [pkg.json] after a pull. *)
Definition pulled_project : value :=
  obj [("version", VStr "1.0.0"); ("name", VStr "app"); ("license", VStr "MIT")].

Definition pull_parse (s : string) : option value :=
  if String.eqb s "P" then Some scenario_project
  else if String.eqb s "T" then Some scenario_template
  else if String.eqb s "M" then Some pulled_project
  else None.

Definition pull_host : Host :=
  {| parse := pull_parse;
     stringify := fun _ => "M";
     spawn := fun _ _ t => (false, t) |}.

(** The configured file of the example: both keys the two sides share are
    ignored. *)
Definition pull_jsonFile : value :=
  obj [("name", VStr "pkg.json");
       ("ignoreKeys", arr [VStr "version"; VStr "name"])].

(** No key at any depth is a name of [Object.prototype]: a merge from such
    a source reads nothing off [Object.prototype] and changes no
    prototype. *)
Fixpoint proto_free (v : value) : bool :=
  match v with
  | VObj _ ps =>
      (fix each (es : props) : bool :=
         match es with
         | [] => true
         | (k, x) :: rest =>
             negb (includes prototype_names k) && proto_free x && each rest
         end) ps
  | _ => true
  end.


(** *** The round trip of the specification: commit, pull, pull again

    [template.json] names one JSON file, [pkg.json] in the project
    directory itself, with [keysV] as its ignored keys. *)
Definition roundtrip_file (keysV : value) : value :=
  obj [("name", VStr "pkg.json"); ("ignoreKeys", keysV)].

Definition roundtrip_config (keysV : value) : value :=
  obj [("source", VStr "repo-url"); ("json", arr [roundtrip_file keysV])].

Definition git_clone : string := "git -C /proj clone repo-url .template".


(** A host for a closed round trip: ["C"] is the text of [template.json],
    with the ignored keys [version] and [name]; the clone adds the
    template's [pkg.json], with the text ["T"], to the project. *)
Definition roundtrip_keys : value := arr [VStr "version"; VStr "name"].


Definition roundtrip_spawn (command directory : string) (t : tree) : bool * tree :=
  if String.eqb command git_clone then
    match t with
    | [(name, Dir es)] =>
        (true, [(name, Dir (es ++ [(".template", Dir [("pkg.json", File "T")])]))])
    | _ => (false, t)
    end
  else (false, t).


(** A project whose [pkg.json] binds an object under a key that is not
    ignored and that the template's file lacks. *)
Definition deep_parse (s : string) : option value :=
  if String.eqb s "C" then Some (roundtrip_config roundtrip_keys)
  else if String.eqb s "P"
       then Some (obj [("name", VStr "app");
                       ("scripts", obj [("build", VStr "tsc")])])
  else if String.eqb s "T" then Some (obj [("license", VStr "MIT")])
  else None.

Definition deep_host : Host :=
  {| parse := deep_parse;
     stringify := fun _ => "M";
     spawn := roundtrip_spawn |}.

(** The same project with its JSON file one directory down, [cfg/pkg.json]:
    ["D"] is the text of that [template.json]. *)
Definition nested_config : value :=
  obj [("source", VStr "repo-url");
       ("json", arr [obj [("name", VStr "cfg/pkg.json");
                          ("ignoreKeys", roundtrip_keys)]])].

Definition nested_parse (s : string) : option value :=
  if String.eqb s "D" then Some nested_config else pull_parse s.

Definition nested_spawn (command directory : string) (t : tree) : bool * tree :=
  if String.eqb command git_clone then
    match t with
    | [(name, Dir es)] =>
        (true,
         [(name, Dir (es ++ [(".template",
                              Dir [("cfg", Dir [("pkg.json", File "T")])])]))])
    | _ => (false, t)
    end
  else (false, t).

Definition nested_host : Host :=
  {| parse := nested_parse;
     stringify := fun _ => "M";
     spawn := nested_spawn |}.

Definition nested_world : world :=
  mkWorld "/proj"
    [("proj", Dir [("template.json", File "D");
                   ("cfg", Dir [("pkg.json", File "P")])])]
    [].
(** ** Lemmas on property lists *)

Lemma deepMerge_unfold_any (target : value) (c : cls) (ps : props) :
  deepMerge target (VObj c ps) =
  (ps' <- merge_entries target ps ;;
   written <- assign target (VObj c ps') ;;
   Ok (returned target written)).
Proof.
  cbn [deepMerge]. f_equal.
  induction ps as [|[key v] rest IH]; [reflexivity|].
  cbn [merge_entries]. unfold merge_entry at 1. rewrite <- IH. reflexivity.
Qed.

Lemma bind_Ok {A} (m : outcome A) : (x <- m ;; Ok x) = m.
Proof. now destruct m. Qed.

(** On an object the merge returns what [Object.assign] has written to. *)
Lemma deepMerge_unfold (ct c : cls) (pt ps : props) :
  deepMerge (VObj ct pt) (VObj c ps) =
  (ps' <- merge_entries (VObj ct pt) ps ;; assign (VObj ct pt) (VObj c ps')).
Proof.
  rewrite deepMerge_unfold_any.
  destruct (merge_entries (VObj ct pt) ps); cbn [bind returned]; [|reflexivity].
  apply bind_Ok.
Qed.

Lemma eqb_neq_sym (a b : string) : a <> b -> String.eqb b a = false.
Proof. intros H. apply String.eqb_neq. congruence. Qed.

Lemma has_key_true (k : string) (ps : props) :
  has_key k ps = true <-> exists v, lookup k ps = Some v.
Proof.
  unfold has_key. destruct (lookup k ps) as [v|]; split; intros H;
    try discriminate; eauto. destruct H as [? H]; discriminate.
Qed.

Lemma has_key_false (k : string) (ps : props) :
  has_key k ps = false <-> lookup k ps = None.
Proof. unfold has_key. destruct (lookup k ps); split; congruence. Qed.

Lemma lookup_In_keys (k : string) (ps : props) :
  lookup k ps <> None <-> In k (map fst ps).
Proof.
  induction ps as [|[k' v'] rest IH]; cbn.
  - split; [congruence | tauto].
  - destruct (String.eqb_spec k k') as [->|Hne].
    + split; [auto | discriminate].
    + rewrite IH. split; [auto | intros [H|H]; [congruence | exact H]].
Qed.

Lemma lookup_None_keys (k : string) (ps : props) :
  lookup k ps = None <-> ~ In k (map fst ps).
Proof.
  rewrite <- lookup_In_keys. destruct (lookup k ps); split; try congruence.
  intros H. exfalso. apply H. discriminate.
Qed.

Lemma replace_keys (k : string) (v : value) (ps : props) :
  has_key k ps = true -> map fst (replace k v ps) = map fst ps.
Proof.
  unfold has_key. induction ps as [|[k' v'] rest IH]; cbn; [discriminate|].
  destruct (String.eqb_spec k k') as [->|Hne]; cbn; [reflexivity|].
  intros H. f_equal. auto.
Qed.

Lemma lookup_replace_same (k : string) (v : value) (ps : props) :
  has_key k ps = true -> lookup k (replace k v ps) = Some v.
Proof.
  unfold has_key. induction ps as [|[k' v'] rest IH]; cbn; [discriminate|].
  destruct (String.eqb_spec k k') as [->|Hne]; cbn.
  - now rewrite String.eqb_refl.
  - intros H. apply String.eqb_neq in Hne. rewrite Hne. auto.
Qed.

Lemma lookup_replace_other (k k' : string) (v : value) (ps : props) :
  k' <> k -> lookup k' (replace k v ps) = lookup k' ps.
Proof.
  intros Hne. induction ps as [|[k0 v0] rest IH]; cbn; [reflexivity|].
  destruct (String.eqb_spec k k0) as [->|Hne0]; cbn.
  - apply String.eqb_neq in Hne. now rewrite Hne.
  - now rewrite IH.
Qed.

Lemma lookup_app (k : string) (ps qs : props) :
  lookup k (ps ++ qs) =
  match lookup k ps with Some v => Some v | None => lookup k qs end.
Proof.
  induction ps as [|[k0 v0] rest IH]; cbn; [reflexivity|].
  destruct (String.eqb k k0); auto.
Qed.

Lemma lookup_insert_index_same i k v ps :
  array_index k = Some i -> lookup k ps = None ->
  lookup k (insert_index i k v ps) = Some v.
Proof.
  intros Hk. induction ps as [|[k0 v0] rest IH]; cbn.
  - now rewrite String.eqb_refl.
  - destruct (String.eqb_spec k k0) as [->|Hne]; [discriminate|]. intros Hl.
    destruct (array_index k0) as [j|]; [destruct (j <? i)%N|]; cbn;
      rewrite ?String.eqb_refl; auto.
    apply String.eqb_neq in Hne. rewrite Hne. auto.
Qed.

Lemma lookup_insert_index_other i k k' v ps :
  k' <> k -> lookup k' (insert_index i k v ps) = lookup k' ps.
Proof.
  intros Hne. apply String.eqb_neq in Hne.
  induction ps as [|[k0 v0] rest IH]; cbn.
  - now rewrite Hne.
  - destruct (array_index k0) as [j|]; [destruct (j <? i)%N|]; cbn;
      rewrite ?Hne, ?IH; reflexivity.
Qed.

Lemma insert_index_keys i k v ps x :
  In x (map fst (insert_index i k v ps)) <-> x = k \/ In x (map fst ps).
Proof.
  induction ps as [|[k0 v0] rest IH]; cbn.
  - intuition.
  - destruct (array_index k0) as [j|]; [destruct (j <? i)%N|]; cbn;
      rewrite ?IH; intuition.
Qed.

Lemma lookup_define_own_same k v ps : lookup k (define_own k v ps) = Some v.
Proof.
  unfold define_own. destruct (has_key k ps) eqn:E.
  - now apply lookup_replace_same.
  - apply has_key_false in E. unfold insert_new.
    destruct (array_index k) eqn:Ei.
    + now apply lookup_insert_index_same.
    + rewrite lookup_app, E. cbn. now rewrite String.eqb_refl.
Qed.

Lemma lookup_define_own_other k k' v ps :
  k' <> k -> lookup k' (define_own k v ps) = lookup k' ps.
Proof.
  intros Hne. unfold define_own. destruct (has_key k ps).
  - now apply lookup_replace_other.
  - unfold insert_new. destruct (array_index k).
    + now apply lookup_insert_index_other.
    + rewrite lookup_app. cbn. apply String.eqb_neq in Hne. rewrite Hne.
      now destruct (lookup k' ps).
Qed.

Lemma define_own_keys k v ps x :
  In x (map fst (define_own k v ps)) <-> x = k \/ In x (map fst ps).
Proof.
  unfold define_own. destruct (has_key k ps) eqn:E.
  - rewrite replace_keys by exact E. apply has_key_true in E.
    destruct E as [v0 E]. split; [auto|]. intros [->|H]; [|exact H].
    apply lookup_In_keys. congruence.
  - unfold insert_new. destruct (array_index k).
    + apply insert_index_keys.
    + rewrite map_app, in_app_iff. cbn. intuition.
Qed.

Lemma insert_index_NoDup i k v ps :
  ~ In k (map fst ps) -> NoDup (map fst ps) ->
  NoDup (map fst (insert_index i k v ps)).
Proof.
  induction ps as [|[k0 v0] rest IH]; cbn; intros Hn Hd.
  - constructor; [tauto | constructor].
  - assert (Hall : NoDup (k :: k0 :: map fst rest)) by (constructor; assumption).
    inversion Hd as [|? ? Hk0 Hrest]; subst.
    destruct (array_index k0) as [j|]; [destruct (j <? i)%N|]; cbn; auto.
    constructor.
    + rewrite insert_index_keys. intros [->|H]; tauto.
    + apply IH; tauto.
Qed.

Lemma define_own_NoDup k v ps :
  NoDup (map fst ps) -> NoDup (map fst (define_own k v ps)).
Proof.
  intros Hd. unfold define_own. destruct (has_key k ps) eqn:E.
  - now rewrite replace_keys.
  - apply has_key_false, lookup_None_keys in E. unfold insert_new.
    destruct (array_index k).
    + now apply insert_index_NoDup.
    + rewrite map_app. cbn. apply NoDup_app; repeat split; auto.
      * constructor; [tauto | constructor].
      * intros x Hx [->|[]]. tauto.
Qed.

(** With unique keys the first and the last binding of a key coincide. *)
Lemma lookup_rev (k : string) (ps : props) :
  NoDup (map fst ps) -> lookup k (rev ps) = lookup k ps.
Proof.
  induction ps as [|[k0 v0] rest IH]; cbn; [reflexivity|].
  intros Hd. inversion Hd as [|? ? Hn Hrest]; subst.
  rewrite lookup_app, IH by assumption. cbn.
  destruct (String.eqb_spec k k0) as [->|Hne].
  - apply lookup_None_keys in Hn. now rewrite Hn.
  - now destruct (lookup k rest).
Qed.

(** *** Writes to a plain object *)

Lemma put_plain (ps : props) (k : string) (v : value) (o' : value) :
  put (VObj CObject ps) k v = Ok o' ->
  o' = VObj CObject (if settable ps k then define_own k v ps else ps).
Proof.
  cbn. unfold ordinary_set, define_own, settable.
  destruct (has_key k ps); cbn [orb]; [congruence|].
  destruct (String.eqb k "__proto__"); cbn [negb]; [|congruence].
  destruct v; congruence.
Qed.

Lemma put_plain_ignored (ps : props) (k : string) (v : value) (o' : value) :
  put (VObj CObject ps) k v = Ok o' -> settable ps k = false ->
  ignorable v = true.
Proof.
  cbn. unfold ordinary_set, settable.
  destruct (has_key k ps); cbn [orb]; [discriminate|].
  destruct (String.eqb k "__proto__"); cbn [negb]; [|discriminate].
  destruct v; try discriminate; reflexivity.
Qed.

Lemma put_plain_settable (ps : props) (k : string) (v : value) :
  settable ps k = true ->
  put (VObj CObject ps) k v = Ok (VObj CObject (define_own k v ps)).
Proof.
  cbn. unfold ordinary_set, define_own, settable.
  destruct (has_key k ps); cbn [orb]; [reflexivity|].
  destruct (String.eqb k "__proto__"); cbn [negb]; [discriminate | reflexivity].
Qed.

Lemma put_plain_ignores (ps : props) (k : string) (v : value) :
  settable ps k = false -> ignorable v = true ->
  put (VObj CObject ps) k v = Ok (VObj CObject ps).
Proof.
  cbn. unfold ordinary_set, settable.
  destruct (has_key k ps); cbn [orb]; [discriminate|].
  destruct (String.eqb k "__proto__"); cbn [negb]; [|discriminate].
  now destruct v.
Qed.

Lemma settable_define_own (k k' : string) (v : value) (ps : props) :
  settable (define_own k v ps) k' = settable ps k' \/ k' = k.
Proof.
  destruct (String.eqb_spec k' k) as [->|Hne]; [now right|]. left.
  unfold settable, has_key. now rewrite lookup_define_own_other.
Qed.

(** What a run of writes leaves in a plain object.  Only a missing
    [__proto__] is not [settable]: it stays missing. *)
Lemma put_all_plain (es ps : props) (o' : value) :
  put_all (VObj CObject ps) es = Ok o' ->
  exists ps', o' = VObj CObject ps' /\
    (forall k, settable ps k = true ->
               lookup k ps' =
               match lookup k (rev es) with
               | Some v => Some v
               | None => lookup k ps
               end) /\
    (forall k, settable ps k = false -> lookup k ps' = None) /\
    (forall x, In x (map fst ps') <->
               (In x (map fst es) /\ settable ps x = true) \/ In x (map fst ps)) /\
    (NoDup (map fst ps) -> NoDup (map fst ps')).
Proof.
  revert ps. induction es as [|[k v] rest IH]; intros ps; cbn [put_all].
  - intros [= <-]. exists ps. cbn. repeat split; auto.
    + intros k Hk. unfold settable in Hk. apply orb_false_iff in Hk.
      now apply has_key_false.
    + intros [[[] _]|H]; exact H.
  - destruct (put (VObj CObject ps) k v) as [o1|e] eqn:E; cbn [bind];
      [|discriminate].
    apply put_plain in E. subst o1. intros H.
    destruct (IH _ H) as (ps' & -> & Hl & Hn & Hk & Hd). exists ps'.
    split; [reflexivity|].
    destruct (settable ps k) eqn:Esk.
    + (* the write took place *)
      assert (Hset : forall k0, settable (define_own k v ps) k0 = true <->
                                settable ps k0 = true \/ k0 = k).
      { intros k0. destruct (settable_define_own k k0 v ps) as [->| ->].
        - split; [auto|]. intros [H0| ->]; [exact H0|exact Esk].
        - split; [auto|]. intros _. unfold settable.
          apply orb_true_iff. left. apply has_key_true. exists v.
          apply lookup_define_own_same. }
      split; [|split; [|split]].
      * intros k0 Hk0. rewrite Hl by (apply Hset; now left).
        cbn [rev]. rewrite lookup_app. cbn [lookup].
        destruct (lookup k0 (rev rest)); [reflexivity|].
        destruct (String.eqb_spec k0 k) as [->|Hne].
        -- apply lookup_define_own_same.
        -- now apply lookup_define_own_other.
      * intros k0 Hk0. apply Hn.
        destruct (settable (define_own k v ps) k0) eqn:E0; [|reflexivity].
        apply Hset in E0. destruct E0 as [E0| ->]; congruence.
      * intros x. rewrite Hk, define_own_keys. cbn [map fst In].
        rewrite Hset. split.
        -- intros [[Hin [Hs| ->]]|[->|Hin]]; auto.
        -- intros [[[<-|Hin] Hs]|Hin]; auto.
      * intros Hps. apply Hd. now apply define_own_NoDup.
    + (* a missing [__proto__]: nothing is written *)
      assert (Hk' : k = "__proto__" /\ lookup k ps = None).
      { unfold settable in Esk. apply orb_false_iff in Esk.
        destruct Esk as [E1 E2]. apply negb_false_iff, String.eqb_eq in E2.
        split; [exact E2 | now apply has_key_false]. }
      destruct Hk' as [-> Hnone].
      split; [|split; [|split]].
      * intros k0 Hk0. rewrite Hl by exact Hk0.
        cbn [rev]. rewrite lookup_app. cbn [lookup].
        destruct (lookup k0 (rev rest)); [reflexivity|].
        destruct (String.eqb_spec k0 "__proto__") as [->|Hne]; [congruence|].
        reflexivity.
      * exact Hn.
      * intros x. rewrite Hk. cbn [map fst In]. split.
        -- intros [[Hin Hs]|Hin]; auto.
        -- intros [[[<-|Hin] Hs]|Hin]; auto. congruence.
      * exact Hd.
Qed.

(** A key that the writes do not name keeps its binding. *)
Lemma put_all_plain_untouched (es ps ps' : props) (k : string) :
  put_all (VObj CObject ps) es = Ok (VObj CObject ps') ->
  lookup k es = None -> lookup k ps' = lookup k ps.
Proof.
  intros H Hk. destruct (put_all_plain _ _ _ H) as (ps0 & [= <-] & Hl & Hn & _).
  destruct (settable ps k) eqn:Es.
  - rewrite Hl by exact Es.
    assert (Hr : lookup k (rev es) = None).
    { apply lookup_None_keys. rewrite map_rev. intros Hin. apply in_rev in Hin.
      now apply lookup_None_keys in Hk. }
    now rewrite Hr.
  - rewrite Hn by exact Es. unfold settable in Es. apply orb_false_iff in Es.
    symmetry. now apply has_key_false.
Qed.

Lemma merge_entries_keys (target : value) (es es' : props) :
  merge_entries target es = Ok es' -> map fst es' = map fst es.
Proof.
  revert es'. induction es as [|[k v] rest IH]; intros es'; cbn.
  - now intros [= <-].
  - destruct (merge_entry target k v); cbn; [|discriminate].
    destruct (merge_entries target rest); cbn; [|discriminate].
    intros [= <-]. cbn. f_equal. auto.
Qed.

Lemma merge_entries_lookup (target : value) (es es' : props) (k : string) (v : value) :
  merge_entries target es = Ok es' -> lookup k es = Some v ->
  exists v', merge_entry target k v = Ok v' /\ lookup k es' = Some v'.
Proof.
  revert es'. induction es as [|[k0 v0] rest IH]; intros es'; cbn; [discriminate|].
  destruct (merge_entry target k0 v0) as [v0'|] eqn:E0; cbn; [|discriminate].
  destruct (merge_entries target rest) as [rest'|]; cbn; [|discriminate].
  intros [= <-]. cbn. destruct (String.eqb_spec k k0) as [->|Hne].
  - intros [= <-]. eauto.
  - intros Hl. apply (IH rest'); auto.
Qed.

Lemma lookup_rev_None (k : string) (ps : props) :
  lookup k ps = None -> lookup k (rev ps) = None.
Proof.
  rewrite !lookup_None_keys, map_rev. intros H Hin. apply H.
  now apply in_rev.
Qed.

Lemma lookup_same_keys (k : string) (ps qs : props) :
  map fst ps = map fst qs -> lookup k qs = None -> lookup k ps = None.
Proof. rewrite !lookup_None_keys. now intros ->. Qed.

Lemma get_plain (ps : props) (k : string) (v : value) :
  lookup k ps = Some v -> get (VObj CObject ps) k = Ok v.
Proof. cbn. now intros ->. Qed.

(** What [deepMerge] of two plain objects returns, when it returns. *)
Lemma deepMerge_plain (pt ps : props) (r : value) :
  deepMerge (VObj CObject pt) (VObj CObject ps) = Ok r ->
  exists ps2 pr,
    merge_entries (VObj CObject pt) ps = Ok ps2 /\
    r = VObj CObject pr /\
    (forall k, settable pt k = true ->
               lookup k pr =
               match lookup k (rev ps2) with
               | Some v => Some v
               | None => lookup k pt
               end) /\
    (forall k, settable pt k = false -> lookup k pr = None) /\
    (forall x, In x (map fst pr) <->
               (In x (map fst ps) /\ settable pt x = true) \/ In x (map fst pt)) /\
    (NoDup (map fst pt) -> NoDup (map fst pr)).
Proof.
  rewrite deepMerge_unfold.
  destruct (merge_entries (VObj CObject pt) ps) as [ps2|] eqn:E;
    cbn [bind]; [|discriminate].
  unfold assign. cbn [to_object bind own_entries]. intros H.
  destruct (put_all_plain _ _ _ H) as (pr & -> & Hl & Hn & Hk & Hd).
  exists ps2, pr. repeat split; auto.
  - intros Hx. apply Hk in Hx. now rewrite (merge_entries_keys _ _ _ E) in Hx.
  - intros Hx. apply Hk. now rewrite (merge_entries_keys _ _ _ E).
Qed.

(** A key that the source lacks keeps the target's binding. *)
Lemma deepMerge_plain_untouched (pt ps pr : props) (k : string) :
  deepMerge (VObj CObject pt) (VObj CObject ps) = Ok (VObj CObject pr) ->
  lookup k ps = None -> lookup k pr = lookup k pt.
Proof.
  rewrite deepMerge_unfold.
  destruct (merge_entries (VObj CObject pt) ps) as [ps2|] eqn:E;
    cbn [bind]; [|discriminate].
  unfold assign. cbn [to_object bind own_entries]. intros H Hk.
  apply (put_all_plain_untouched _ _ _ _ H).
  now apply (lookup_same_keys _ _ _ (merge_entries_keys _ _ _ E)).
Qed.

(** *** Array-index keys *)

Lemma to_uint_nonnil (n : N) : N.to_uint n <> Decimal.Nil.
Proof.
  destruct n as [|p]; cbn; [discriminate|].
  apply DecimalPos.Unsigned.to_uint_nonnil.
Qed.

Lemma array_index_index_key (i : N) :
  (i < 4294967295)%N -> array_index (index_key i) = Some i.
Proof.
  intros Hi. unfold array_index, index_key.
  rewrite NilZero.usu by apply to_uint_nonnil.
  rewrite DecimalN.Unsigned.of_to. cbn zeta.
  rewrite String.eqb_refl. apply N.ltb_lt in Hi. now rewrite Hi.
Qed.

Lemma index_key_inj (i j : N) : index_key i = index_key j -> i = j.
Proof.
  unfold index_key. intros H.
  apply DecimalN.Unsigned.to_uint_inj.
  assert (E : NilZero.uint_of_string (NilZero.string_of_uint (N.to_uint i)) =
              NilZero.uint_of_string (NilZero.string_of_uint (N.to_uint j)))
    by now rewrite H.
  rewrite !NilZero.usu in E by apply to_uint_nonnil. congruence.
Qed.

Lemma index_key_not_length (i : N) : String.eqb (index_key i) "length" = false.
Proof.
  apply String.eqb_neq. intros H.
  assert (E : NilZero.uint_of_string (index_key i) = NilZero.uint_of_string "length")
    by now rewrite H.
  unfold index_key in E. rewrite NilZero.usu in E by apply to_uint_nonnil.
  discriminate.
Qed.

Lemma define_own_cons_lt k k0 v v0 (t : props) (i j : N) :
  array_index k = Some i -> array_index k0 = Some j -> (j < i)%N ->
  define_own k v ((k0, v0) :: t) = (k0, v0) :: define_own k v t.
Proof.
  intros Hk Hk0 Hlt.
  assert (Hne : String.eqb k k0 = false).
  { apply String.eqb_neq. intros ->. rewrite Hk in Hk0.
    injection Hk0 as ->. lia. }
  unfold define_own, has_key. cbn [lookup replace]. rewrite Hne.
  destruct (lookup k t); [reflexivity|].
  unfold insert_new. rewrite Hk. cbn [insert_index]. rewrite Hk0.
  apply N.ltb_lt in Hlt. now rewrite Hlt.
Qed.

Lemma define_own_index_entries (l : list value) (j : N) (i : nat) (v : value) :
  (i <= List.length l)%nat ->
  (j + N.of_nat (List.length l) < 4294967295)%N ->
  define_own (index_key (j + N.of_nat i)) v (index_entries j l) =
  index_entries j (firstn i l ++ v :: skipn (S i) l).
Proof.
  revert j i. induction l as [|x rest IH]; intros j i Hi Hb.
  - cbn in Hi. assert (i = 0%nat) as -> by lia. cbn [N.of_nat].
    rewrite N.add_0_r. unfold define_own, has_key, insert_new. cbn [lookup index_entries].
    rewrite array_index_index_key by (cbn in Hb; lia). reflexivity.
  - cbn [List.length] in Hi, Hb. destruct i as [|i'].
    + cbn [N.of_nat]. rewrite N.add_0_r. cbn [firstn skipn app index_entries].
      unfold define_own, has_key. cbn [lookup replace].
      now rewrite String.eqb_refl.
    + cbn [firstn skipn app index_entries].
      replace (j + N.of_nat (S i'))%N with (N.succ j + N.of_nat i')%N by lia.
      rewrite (define_own_cons_lt _ _ _ _ _ (N.succ j + N.of_nat i')%N j).
      * f_equal. apply IH; lia.
      * apply array_index_index_key. lia.
      * apply array_index_index_key. lia.
      * lia.
Qed.

Lemma length_splice (l : list value) (j : nat) (v : value) :
  (j <= List.length l)%nat ->
  List.length (firstn j l ++ v :: skipn (S j) l) = Nat.max (List.length l) (S j).
Proof.
  intros Hj. rewrite length_app, length_firstn. cbn [List.length].
  rewrite length_skipn. lia.
Qed.

Lemma put_all_index_entries (ls l : list value) (j : nat) :
  (j <= List.length l)%nat ->
  (N.of_nat (Nat.max (List.length l) (j + List.length ls)) < 4294967295)%N ->
  put_all (arr l) (index_entries (N.of_nat j) ls) =
  Ok (arr (firstn j l ++ ls ++ skipn (j + List.length ls) l)).
Proof.
  revert l j. induction ls as [|v rest IH]; intros l j Hj Hb.
  - cbn [put_all index_entries List.length app]. rewrite Nat.add_0_r.
    now rewrite firstn_skipn.
  - cbn [index_entries put_all List.length] in *. unfold arr at 1. cbn [put].
    rewrite index_key_not_length.
    rewrite array_index_index_key by lia. cbn [bind].
    pose proof (define_own_index_entries l 0 j v Hj) as Hd.
    rewrite !N.add_0_l in Hd. rewrite Hd by lia. clear Hd.
    set (l1 := firstn j l ++ v :: skipn (S j) l).
    assert (Hlen : List.length l1 = Nat.max (List.length l) (S j))
      by now apply length_splice.
    replace (N.max (N.of_nat (List.length l)) (N.succ (N.of_nat j)))
      with (N.of_nat (List.length l1)) by lia.
    change (VObj (CArray (N.of_nat (List.length l1))) (index_entries 0 l1))
      with (arr l1).
    replace (N.succ (N.of_nat j)) with (N.of_nat (S j)) by lia.
    rewrite IH by lia. do 2 f_equal.
    assert (Hf : List.length (firstn j l) = j) by (rewrite length_firstn; lia).
    assert (H1 : firstn (S j) l1 = firstn j l ++ [v]).
    { unfold l1. rewrite firstn_app, Hf.
      replace (S j - j)%nat with 1%nat by lia.
      rewrite (firstn_all2 (firstn j l)) by lia. reflexivity. }
    assert (H2 : skipn (S j + List.length rest) l1 =
                 skipn (j + S (List.length rest)) l).
    { unfold l1. rewrite skipn_app, Hf.
      rewrite (skipn_all2 (firstn j l)) by lia. cbn [app].
      replace (S j + List.length rest - j)%nat with (S (List.length rest)) by lia.
      change (skipn (S (List.length rest)) (v :: skipn (S j) l))
        with (skipn (List.length rest) (skipn (S j) l)).
      rewrite skipn_skipn. f_equal. lia. }
    rewrite H1, H2, <- app_assoc. reflexivity.
Qed.

(** [Object.assign] of a JSON array onto a JSON array overwrites by index. *)
Lemma assign_arr_arr (lt ls : list value) :
  (N.of_nat (Nat.max (List.length lt) (List.length ls)) < 4294967295)%N ->
  assign (arr lt) (arr ls) = Ok (arr (ls ++ skipn (List.length ls) lt)).
Proof.
  intros Hb. unfold assign. cbn [arr to_object bind own_entries].
  change (VObj (CArray (N.of_nat (List.length lt))) (index_entries 0 lt))
    with (arr lt).
  apply (put_all_index_entries ls lt 0); [lia | exact Hb].
Qed.

(** ** JsonMerger: the claims on [deepMerge] *)

Lemma settable_own (pt : props) (k : string) (v : value) :
  lookup k pt = Some v -> settable pt k = true.
Proof.
  intros H. unfold settable. apply orb_true_iff. left.
  apply has_key_true. now exists v.
Qed.

Lemma settable_other (pt : props) (k : string) :
  k <> "__proto__" -> settable pt k = true.
Proof.
  intros H. unfold settable. apply orb_true_iff. right.
  apply negb_true_iff. now apply String.eqb_neq.
Qed.



Lemma merge_entries_nullish (target : value) (es : props) :
  target = VUndefined \/ target = VNull ->
  (exists es', merge_entries target es = Ok es') \/
  merge_entries target es = Throw TypeError.
Proof.
  intros Ht. induction es as [|[k v] rest IH]; cbn [merge_entries].
  - left. now exists [].
  - unfold merge_entry. destruct (instanceof_Object v).
    + right. destruct Ht as [-> | ->]; reflexivity.
    + cbn [bind]. destruct IH as [(rest' & ->)| ->]; cbn [bind]; eauto.
Qed.

(** Merging into [undefined] or [null] throws a [TypeError]. *)
Lemma deepMerge_nullish_target (target source : value) :
  target = VUndefined \/ target = VNull ->
  instanceof_Object source = true ->
  deepMerge target source = Throw TypeError.
Proof.
  intros Ht Hs. destruct source as [| | | | |c ps]; try discriminate.
  rewrite deepMerge_unfold_any.
  destruct (merge_entries_nullish target ps Ht) as [(es' & ->)| ->];
    [|reflexivity].
  cbn [bind]. destruct Ht as [-> | ->]; reflexivity.
Qed.

Lemma deepMerge_undefined_target (source r : value) :
  instanceof_Object source = true -> deepMerge VUndefined source <> Ok r.
Proof.
  intros Hs. rewrite deepMerge_nullish_target by auto. discriminate.
Qed.



(** Where the embedding of a merge into a plain object returns, every
    structured entry of the source has met an own entry of the target (a
    key that the target would inherit stops the embedding). *)
Lemma deepMerge_structured_present (pt ps : props) (c : cls) (r : value)
      (k : string) (v : value) :
  deepMerge (VObj CObject pt) (VObj c ps) = Ok r ->
  lookup k ps = Some v -> instanceof_Object v = true ->
  lookup k pt <> None.
Proof.
  intros E Hs Hv Ht. rewrite deepMerge_unfold in E.
  destruct (merge_entries (VObj CObject pt) ps) as [ps2|] eqn:Em;
    cbn [bind] in E; [|discriminate].
  destruct (merge_entries_lookup _ _ _ _ _ Em Hs) as (v' & He & _).
  unfold merge_entry in He. rewrite Hv in He.
  cbn [get] in He. rewrite Ht in He. unfold inherited in He.
  destruct (includes prototype_names k); cbn [bind] in He; [discriminate|].
  rewrite deepMerge_nullish_target in He by auto. discriminate.
Qed.

(** A structured entry of [source] under a key that a plain [target] lacks
    makes [deepMerge] throw: the recursive call receives [undefined].  The
    source is one that holds no name of [Object.prototype]: a key of such
    a source that a plain object lacks reads as [undefined] there, and no
    earlier entry of the source has put it on [Object.prototype]. *)
Lemma deepMerge_absent_never_ok (pt ps : props) (c : cls) (k : string) (v r : value) :
  proto_free (VObj c ps) = true ->
  lookup k pt = None -> lookup k ps = Some v -> instanceof_Object v = true ->
  deepMerge (VObj CObject pt) (VObj c ps) <> Ok r.
Proof.
  intros _ Ht Hs Hv E.
  now apply (deepMerge_structured_present _ _ _ _ _ _ E Hs Hv).
Qed.

(** C2 (the code departs from the claim).  With [target = {}] and
    [source = {"a": {"b": 1}}] the absent entry is not treated as an empty
    structure: [deepMerge] throws a [TypeError]. *)
Theorem deepMerge_absent_target_entry_throws :
  deepMerge (obj []) (obj [("a", obj [("b", VNum 1)])]) = Throw TypeError.
Proof. reflexivity. Qed.

Lemma merge_entries_scalars (target : value) (es : props) :
  Forall (fun kv => instanceof_Object (snd kv) = false) es ->
  merge_entries target es = Ok es.
Proof.
  induction 1 as [|[k v] rest Hv _ IH]; cbn; [reflexivity|].
  unfold merge_entry. cbn in Hv. rewrite Hv. cbn. now rewrite IH.
Qed.

Lemma index_entries_scalars (i : N) (l : list value) :
  Forall (fun v => instanceof_Object v = false) l ->
  Forall (fun kv => instanceof_Object (snd kv) = false) (index_entries i l).
Proof.
  intros H. revert i. induction H; intros i; cbn; constructor; auto.
Qed.

Lemma deepMerge_arr_arr (lt ls : list value) :
  Forall (fun v => instanceof_Object v = false) ls ->
  (N.of_nat (Nat.max (List.length lt) (List.length ls)) < 4294967295)%N ->
  deepMerge (arr lt) (arr ls) = Ok (arr (ls ++ skipn (List.length ls) lt)).
Proof.
  intros Hs Hb. unfold arr at 1 2. rewrite deepMerge_unfold.
  rewrite merge_entries_scalars by now apply index_entries_scalars.
  cbn [bind]. now apply assign_arr_arr.
Qed.

(** *** Arrays in the source *)

(** The decimal name of an index is none of the names of a prototype. *)
Lemma index_key_not_among (names : list string) (j : N) :
  forallb (fun n => match NilZero.uint_of_string n with
                    | None => true
                    | Some _ => false
                    end) names = true ->
  includes names (index_key j) = false.
Proof.
  intros Hall. unfold includes. apply not_true_is_false. intros H.
  apply existsb_exists in H. destruct H as (n & Hin & He).
  apply String.eqb_eq in He. subst n.
  rewrite forallb_forall in Hall. specialize (Hall _ Hin).
  unfold index_key in Hall.
  rewrite NilZero.usu in Hall by apply to_uint_nonnil. discriminate.
Qed.

Lemma index_key_not_inherited (j : N) :
  includes prototype_names (index_key j) = false.
Proof. now apply index_key_not_among. Qed.

Lemma inherited_index_key (more : list string) (j : N) :
  forallb (fun n => match NilZero.uint_of_string n with
                    | None => true
                    | Some _ => false
                    end) more = true ->
  inherited_with more (index_key j) = Ok VUndefined.
Proof.
  intros Hall. unfold inherited_with, inherited.
  now rewrite (index_key_not_among more j Hall), index_key_not_inherited.
Qed.

(** An array index is no name of [Object.prototype]. *)
Lemma array_index_not_inherited (k : string) (i : N) :
  array_index k = Some i -> includes prototype_names k = false.
Proof.
  intros Hk. unfold includes.
  apply not_true_is_false. intros H. apply existsb_exists in H.
  destruct H as (n & Hin & He). apply String.eqb_eq in He. subst n.
  cbn [prototype_names In] in Hin.
  repeat (destruct Hin as [<-|Hin]; [vm_compute in Hk; discriminate|]).
  exact Hin.
Qed.


Lemma lookup_index_entries (l : list value) (j : N) (i : nat) :
  lookup (index_key (j + N.of_nat i)) (index_entries j l) = nth_error l i.
Proof.
  revert j i. induction l as [|x rest IH]; intros j i; cbn [index_entries lookup].
  - now destruct i.
  - destruct i as [|i'].
    + cbn [N.of_nat nth_error]. rewrite N.add_0_r. now rewrite String.eqb_refl.
    + destruct (String.eqb_spec (index_key (j + N.of_nat (S i'))) (index_key j))
        as [E|_].
      * apply index_key_inj in E. lia.
      * cbn [nth_error].
        replace (j + N.of_nat (S i'))%N with (N.succ j + N.of_nat i')%N by lia.
        apply IH.
Qed.

(** Reading an element of a JSON array: the element, or [undefined] beyond
    the end. *)
Lemma get_arr_index (l : list value) (i : nat) :
  (N.of_nat i < 4294967295)%N ->
  get (arr l) (index_key (N.of_nat i)) = Ok (nth i l VUndefined).
Proof.
  intros Hi. unfold arr. cbn [get].
  pose proof (lookup_index_entries l 0 i) as Hl. rewrite N.add_0_l in Hl.
  rewrite Hl. destruct (nth_error l i) as [v|] eqn:E.
  - now rewrite (nth_error_nth _ _ _ E).
  - rewrite index_key_not_length, inherited_index_key by reflexivity.
    apply nth_error_None in E. now rewrite nth_overflow.
Qed.









(** *** Arrays merged into a primitive *)











(** *** Where [deepMerge] returns *)

Lemma value_induction (P : value -> Prop) :
  P VUndefined -> P VNull -> (forall b, P (VBool b)) -> (forall n, P (VNum n)) ->
  (forall s, P (VStr s)) ->
  (forall c ps, Forall (fun kv => P (snd kv)) ps -> P (VObj c ps)) ->
  forall v, P v.
Proof.
  intros H1 H2 H3 H4 H5 H6. fix IH 1.
  intros [| |b|n|s|c ps];
    [exact H1 | exact H2 | apply H3 | apply H4 | apply H5 |].
  apply H6. induction ps as [|[k v] rest IHps]; constructor;
    [apply IH | exact IHps].
Qed.

Lemma has_key_define_own (k k' : string) (v : value) (ps : props) :
  has_key k' ps = true -> has_key k' (define_own k v ps) = true.
Proof.
  intros Hk. apply has_key_true in Hk. destruct Hk as [v' Hk].
  apply has_key_true. destruct (String.eqb_spec k' k) as [->|Hne].
  - exists v. apply lookup_define_own_same.
  - exists v'. now rewrite lookup_define_own_other.
Qed.

Lemma put_all_plain_succeeds (es ps : props) :
  Forall (fun kv => settable ps (fst kv) = true) es ->
  exists ps', put_all (VObj CObject ps) es = Ok (VObj CObject ps').
Proof.
  revert ps. induction es as [|[k v] rest IH]; intros ps Hall; cbn [put_all].
  - now exists ps.
  - inversion Hall as [|? ? Hk Hrest]; subst. cbn [fst] in Hk.
    assert (Hput : put (VObj CObject ps) k v = Ok (VObj CObject (define_own k v ps))).
    { cbn [put]. unfold ordinary_set, define_own, settable in *.
      destruct (has_key k ps); [reflexivity|]. cbn [orb] in Hk.
      destruct (String.eqb k "__proto__"); [discriminate | reflexivity]. }
    rewrite Hput. cbn [bind]. apply IH.
    apply Forall_forall. intros [k0 v0] Hin. cbn [fst].
    rewrite Forall_forall in Hrest. specialize (Hrest _ Hin). cbn [fst] in Hrest.
    unfold settable in *. apply orb_true_iff in Hrest. apply orb_true_iff.
    destruct Hrest as [Hh|Hn]; [left; now apply has_key_define_own | now right].
Qed.

Lemma settable_In (ps : props) (k : string) :
  In k (map fst ps) -> settable ps k = true.
Proof.
  intros Hin. unfold settable. apply orb_true_iff. left.
  apply has_key_true. apply lookup_In_keys in Hin.
  destruct (lookup k ps) as [v|]; [now exists v | congruence].
Qed.

(** X19. [deepMerge] returns a plain object, and does not throw, on a
    plain target and a plain source that are [mergeable]: the source is
    built from scalars and plain objects only (it holds no array), every
    plain object nested in it meets a plain object of the target under the
    same key, and [__proto__] is written only where it is an own key
    already. *)
Lemma deepMerge_mergeable (s : value) :
  forall t, mergeable t s = true ->
            exists pr, deepMerge t s = Ok (VObj CObject pr).
Proof.
  induction s as [| | | | |c ps IH] using value_induction; try discriminate.
  intros t Hm. destruct c; try discriminate.
  destruct t as [| | | | |[] pt]; try discriminate.
  cbn [mergeable] in Hm. rewrite deepMerge_unfold.
  assert (Hentries : exists ps',
             merge_entries (VObj CObject pt) ps = Ok ps' /\
             map fst ps' = map fst ps).
  { clear -IH Hm. induction ps as [|[k v] rest IHrest]; cbn [merge_entries].
    - now exists [].
    - inversion IH as [|? ? IHv IHr]; subst. cbn [snd] in IHv.
      apply andb_true_iff in Hm. destruct Hm as [Hm Hrest].
      apply andb_true_iff in Hm. destruct Hm as [_ Hv].
      destruct (IHrest IHr Hrest) as (rest' & -> & Hkeys).
      assert (He : exists v', merge_entry (VObj CObject pt) k v = Ok v').
      { unfold merge_entry. destruct (instanceof_Object v) eqn:Ev; [|eauto].
        destruct (lookup k pt) as [[| | | | |[] ptk]|] eqn:Ek; try discriminate.
        destruct v as [| | | | |[] pv]; try discriminate.
        apply andb_true_iff in Hv. destruct Hv as [Hback Hmv].
        rewrite (get_plain _ _ _ Ek). cbn [bind].
        destruct (IHv _ Hmv) as (pm & Em). rewrite Em. cbn [bind].
        destruct (deepMerge_plain _ _ _ Em)
          as (? & pm' & _ & [= <-] & _ & _ & Hk & _).
        unfold assign. cbn [to_object bind own_entries].
        destruct (put_all_plain_succeeds pm pv) as (pr & ->); [|eauto].
        apply Forall_forall. intros [k2 v2] Hin. cbn [fst].
        apply (in_map fst) in Hin. cbn [fst] in Hin. apply Hk in Hin.
        destruct Hin as [[Hin _]|Hin]; [now apply settable_In|].
        rewrite forallb_forall in Hback.
        apply in_map_iff in Hin. destruct Hin as ([k3 v3] & <- & Hin3).
        exact (Hback _ Hin3). }
      destruct He as (v' & ->). cbn [bind]. eexists. split; [reflexivity|].
      cbn [map fst]. now rewrite Hkeys. }
  destruct Hentries as (ps' & -> & Hkeys). cbn [bind].
  unfold assign. cbn [to_object bind own_entries].
  apply put_all_plain_succeeds.
  apply Forall_forall. intros [k v] Hin. cbn [fst].
  apply (in_map fst) in Hin. cbn [fst] in Hin. rewrite Hkeys in Hin.
  clear -Hm Hin. induction ps as [|[k0 v0] rest IHrest]; [destruct Hin|].
  apply andb_true_iff in Hm. destruct Hm as [Hm Hrest].
  apply andb_true_iff in Hm. destruct Hm as [Hs _].
  destruct Hin as [<-|Hin]; [exact Hs | now apply IHrest].
Qed.

(** ** Computations that leave the world as it is *)


Lemma mbind_ok {A B} (m : M A) (f : A -> M B) (w w' : world) (a : A) :
  m w = (Ok a, w') -> mbind m f w = f a w'.
Proof. unfold mbind. now intros ->. Qed.

Lemma mbind_throw {A B} (m : M A) (f : A -> M B) (w w' : world) (e : exn) :
  m w = (Throw e, w') -> mbind m f w = (Throw e, w').
Proof. unfold mbind. now intros ->. Qed.

Lemma pure_ret {A} (a : A) : pure_M (ret a).
Proof. now intros w. Qed.

Lemma pure_throw {A} (e : exn) : pure_M (@throw A e).
Proof. now intros w. Qed.

Lemma pure_lift {A} (o : outcome A) : pure_M (lift o).
Proof. now intros w. Qed.

Lemma pure_mbind {A B} (m : M A) (f : A -> M B) :
  pure_M m -> (forall a, pure_M (f a)) -> pure_M (mbind m f).
Proof.
  intros Hm Hf w. unfold mbind. specialize (Hm w).
  destruct (m w) as [[a|e] w1]; cbn in *; subst; [apply Hf | reflexivity].
Qed.

Lemma pure_try_catch {A} (m h : M A) :
  pure_M m -> pure_M h -> pure_M (try_catch m h).
Proof.
  intros Hm Hh w. unfold try_catch. specialize (Hm w).
  destruct (m w) as [[a|e] w1]; cbn in *; subst; [reflexivity | apply Hh].
Qed.

Lemma pure_for_each {A B} (f : A -> M B) (xs : list A) :
  (forall x, pure_M (f x)) -> pure_M (for_each f xs).
Proof.
  intros Hf. induction xs as [|x rest IH]; cbn [for_each].
  - apply pure_ret.
  - apply pure_mbind; [apply Hf|]. intros y.
    apply pure_mbind; [exact IH|]. intros ys. apply pure_ret.
Qed.

Lemma pure_node_at (p : string) : pure_M (node_at p).
Proof. now intros w. Qed.

Lemma pure_resolve (p : string) : pure_M (resolve p).
Proof. now intros w. Qed.

Lemma pure_readFile (p : string) : pure_M (readFile p).
Proof.
  apply pure_mbind; [apply pure_node_at|].
  intros [[c|es]|]; (apply pure_ret || apply pure_throw).
Qed.

Lemma pure_stat (p : string) : pure_M (stat p).
Proof.
  apply pure_mbind; [apply pure_node_at|].
  intros [n|]; (apply pure_ret || apply pure_throw).
Qed.

Lemma pure_readdir (p : string) : pure_M (readdir p).
Proof.
  apply pure_mbind; [apply pure_node_at|].
  intros [[c|es]|]; (apply pure_ret || apply pure_throw).
Qed.

Lemma pure_run {A} (m : M A) (w w' : world) (r : outcome A) :
  pure_M m -> m w = (r, w') -> w' = w.
Proof. intros Hm E. specialize (Hm w). rewrite E in Hm. exact Hm. Qed.

Section ProgramFacts.
Context `{Host}.

Lemma pure_readJson (p : string) : pure_M (readJson p).
Proof.
  apply pure_try_catch; [|apply pure_ret].
  apply pure_mbind; [apply pure_readFile|].
  intros c. destruct (parse c); (apply pure_ret || apply pure_throw).
Qed.

Lemma pure_readGitIgnore (p : string) : pure_M (readGitIgnore p).
Proof.
  apply pure_try_catch; [|apply pure_ret].
  apply pure_mbind; [apply pure_readFile|]. intros c. apply pure_ret.
Qed.

Lemma pure_config (location : string) : pure_M (config location).
Proof.
  unfold config.
  apply pure_mbind; [apply pure_readJson|]. intros cfg.
  apply pure_mbind; [apply pure_readGitIgnore|]. intros gi.
  apply pure_mbind; [apply pure_lift|]. intros src.
  destruct (falsy src); [apply pure_throw|].
  repeat (apply pure_mbind; [apply pure_lift|]; intros ?).
  apply pure_ret.
Qed.

Lemma pure_files (location : string) (ignore : list value) :
  pure_M (files location ignore).
Proof.
  apply pure_mbind; [apply pure_readdir|]. intros es. apply pure_ret.
Qed.

(** The merge phase under a command that is neither [commit] nor [pull]. *)
Lemma pure_mergeJson (json : value) (location cmd : string) :
  cmd <> COMMIT -> cmd <> PULL -> pure_M (mergeJson json location cmd).
Proof.
  intros Hc Hp. apply String.eqb_neq in Hc, Hp. unfold mergeJson.
  apply pure_mbind; [apply pure_lift|]. intros jsonFiles.
  apply pure_mbind; [|intros; apply pure_ret].
  apply pure_for_each. intros jsonFile. unfold mergeJsonFile.
  do 4 (apply pure_mbind; [apply pure_lift|]; intros ?).
  do 2 (apply pure_mbind; [apply pure_readJson|]; intros ?).
  do 3 (apply pure_mbind; [apply pure_lift|]; intros ?).
  rewrite Hc, Hp.
  apply pure_mbind; [apply pure_ret|]. intros _. apply pure_ret.
Qed.

End ProgramFacts.

(** ** SyncEngine: ordering of failures and effects *)

Section Ordering.
Context `{Host}.

Lemma clone_runs_git (repo : value) (location : string) (w w' : world)
      (rc : outcome unit) (r : string) :
  clone repo location w = (rc, w') ->
  template_string repo = Ok r ->
  exists before, effects w' = before ++ [EExec (clone_command location r)].
Proof.
  unfold clone. intros E Hr. unfold mbind at 1 in E.
  destruct (try_catch (rmdir (join [location; ".template"])) (ret tt) w)
    as [[u|e] w1] eqn:E1.
  - rewrite Hr in E. unfold mbind, lift, execAsync, mbind, emit in E.
    cbn [cwd root effects] in E.
    destruct (spawn (clone_command location r) (cwd w1) (root w1)) as [ok t].
    injection E as _ <-. cbn [effects]. now exists (effects w1).
  - exfalso. unfold try_catch in E1.
    destruct (rmdir (join [location; ".template"]) w) as [[u|e0] w0];
      cbn in E1; discriminate.
Qed.

Lemma clone_ok_source (repo : value) (location : string) (w w' : world) (u : unit) :
  clone repo location w = (Ok u, w') -> exists r, template_string repo = Ok r.
Proof.
  unfold clone. intros E. unfold mbind at 1 in E.
  destruct (try_catch (rmdir (join [location; ".template"])) (ret tt) w)
    as [[u1|e] w1]; [|discriminate].
  destruct (template_string repo) as [r|e]; [now exists r|].
  cbn in E. discriminate.
Qed.

(** How [main] runs under a command that is neither [commit] nor [pull]. *)
Lemma main_invalid_run (location cmd : string) (w w' : world) (r : outcome unit) :
  cmd <> COMMIT -> cmd <> PULL ->
  main location cmd w = (r, w') ->
  (exists e, config location w = (Throw e, w) /\ r = Throw e /\ w' = w) \/
  (exists c, config location w = (Ok c, w) /\
     ((exists e, clone (source c) location w = (Throw e, w') /\ r = Throw e) \/
      (clone (source c) location w = (Ok tt, w') /\
       ((exists e, mergeJson (json c) location cmd w' = (Throw e, w') /\ r = Throw e) \/
        (mergeJson (json c) location cmd w' = (Ok tt, w') /\
         r = Throw (JsError "invalid sub-command")))))).
Proof.
  intros Hc Hp E. unfold main in E.
  destruct (config location w) as [rc w1] eqn:Ec.
  pose proof (pure_run _ _ _ _ (pure_config location) Ec) as ->.
  unfold mbind at 1 in E. rewrite Ec in E.
  destruct rc as [c|e]; [right; exists c; split; [reflexivity|]
                        | left; exists e; injection E as <- <-; auto].
  unfold mbind at 1 in E.
  destruct (clone (source c) location w) as [[[]|e] w2] eqn:Ecl;
    [|left; exists e; injection E as <- <-; auto].
  unfold mbind at 1 in E.
  destruct (mergeJson (json c) location cmd w2) as [rm w3] eqn:Em.
  pose proof (pure_run _ _ _ _ (pure_mergeJson _ _ _ Hc Hp) Em) as ->.
  apply String.eqb_neq in Hc, Hp. rewrite Hc, Hp in E.
  destruct rm as [[]|e]; injection E as <- <-; right; split; auto.
  left. now exists e.
Qed.

(** *** Where the invalid-command error can come from *)


Lemma avoids_ret {A} (a : A) : avoids (ret a).
Proof. intros w w'. discriminate. Qed.

Lemma avoids_lift {A} (o : outcome A) : oavoids o -> avoids (lift o).
Proof. intros Ho w w' [= E _]. now apply Ho. Qed.

Lemma avoids_mbind {A B} (m : M A) (f : A -> M B) :
  avoids m -> (forall a, avoids (f a)) -> avoids (mbind m f).
Proof.
  intros Hm Hf w w'. unfold mbind.
  destruct (m w) as [[a|e] w1] eqn:E; [apply Hf|].
  intros [= -> ->]. now apply (Hm w w').
Qed.

Lemma avoids_try_catch {A} (m h : M A) : avoids h -> avoids (try_catch m h).
Proof.
  intros Hh w w'. unfold try_catch.
  destruct (m w) as [[a|e] w1]; [discriminate | apply Hh].
Qed.

Lemma avoids_for_each {A B} (f : A -> M B) (xs : list A) :
  (forall x, avoids (f x)) -> avoids (for_each f xs).
Proof.
  intros Hf. induction xs as [|x rest IH]; cbn [for_each].
  - apply avoids_ret.
  - apply avoids_mbind; [apply Hf|]. intros y.
    apply avoids_mbind; [exact IH|]. intros ys. apply avoids_ret.
Qed.

Lemma oavoids_bind {A B} (o : outcome A) (f : A -> outcome B) :
  oavoids o -> (forall a, oavoids (f a)) -> oavoids (bind o f).
Proof.
  intros Ho Hf. destruct o as [a|e]; cbn; [apply Hf|].
  intros [= ->]. now apply Ho.
Qed.

Lemma oavoids_Ok {A} (a : A) : oavoids (Ok a).
Proof. discriminate. Qed.

Lemma oavoids_get (o : value) (k : string) : oavoids (get o k).
Proof.
  assert (Hi : forall more, oavoids (inherited_with more k)).
  { intros more. unfold oavoids, inherited_with, inherited.
    destruct (includes more k); [discriminate|].
    destruct (includes prototype_names k); discriminate. }
  assert (H0 : oavoids (inherited k)) by exact (Hi []).
  unfold get.
  destruct o as [| | | |s|c ps]; try discriminate; auto.
  - destruct (string_get s k); [discriminate | apply Hi].
  - destruct (lookup k ps); [discriminate|].
    destruct c as [|len|s| |]; auto.
    + destruct (String.eqb k "length"); [discriminate | apply Hi].
    + destruct (string_get s k); [discriminate | apply Hi].
Qed.

Lemma oavoids_array_or_empty (v : value) : oavoids (array_or_empty v).
Proof.
  unfold oavoids, array_or_empty. destruct (falsy v); [discriminate|].
  destruct v as [| | | | |[] ?]; discriminate.
Qed.

Lemma oavoids_spread_or_empty (v : value) : oavoids (spread_or_empty v).
Proof.
  unfold oavoids, spread_or_empty. destruct (falsy v); [discriminate|].
  destruct v as [| | | | |[] ?]; discriminate.
Qed.

Lemma oavoids_map_outcome {A B} (f : A -> outcome B) (xs : list A) :
  (forall x, oavoids (f x)) -> oavoids (map_outcome f xs).
Proof.
  intros Hf. induction xs as [|x rest IH]; cbn; [discriminate|].
  apply oavoids_bind; [apply Hf|]. intros y.
  apply oavoids_bind; [exact IH|]. intros ys. discriminate.
Qed.

Lemma oavoids_parse_pattern (p : string) (depth : nat) :
  oavoids (parse_pattern depth p).
Proof.
  revert depth. induction p as [|c rest IH]; intros depth; cbn.
  - destruct depth; discriminate.
  - apply oavoids_bind.
    + unfold oavoids, atom_of_char.
      repeat match goal with
             | |- context [if ?b then _ else _] => destruct b
             end; discriminate.
    + intros a. destruct a; try (apply oavoids_bind; [apply IH|]; intros; discriminate).
      destruct depth; [discriminate|].
      apply oavoids_bind; [apply IH|]; intros; discriminate.
Qed.

Lemma oavoids_strip_prefix (pattern s : string) : oavoids (strip_prefix pattern s).
Proof.
  apply oavoids_bind; [apply oavoids_parse_pattern|]. intros; discriminate.
Qed.

Lemma oavoids_templateFile (file location : string) :
  oavoids (templateFile file location).
Proof.
  apply oavoids_bind; [apply oavoids_strip_prefix|]. intros; discriminate.
Qed.

Lemma oavoids_omit (keys : list string) (o : value) : oavoids (omit keys o).
Proof.
  apply oavoids_bind; [|intros; discriminate].
  destruct o; discriminate.
Qed.

Lemma avoids_readJson (p : string) : avoids (readJson p).
Proof. apply avoids_try_catch, avoids_ret. Qed.

Lemma avoids_config (location : string) : avoids (config location).
Proof.
  unfold config.
  apply avoids_mbind; [apply avoids_readJson|]. intros cfg.
  apply avoids_mbind; [apply avoids_try_catch, avoids_ret|]. intros gi.
  apply avoids_mbind; [apply avoids_lift, oavoids_get|]. intros src.
  destruct (falsy src); [intros w w'; discriminate|].
  apply avoids_mbind; [apply avoids_lift, oavoids_get|]. intros cjson.
  apply avoids_mbind; [apply avoids_lift, oavoids_array_or_empty|]. intros es.
  apply avoids_mbind.
  { apply avoids_lift, oavoids_map_outcome. intros; apply oavoids_get. }
  intros names.
  apply avoids_mbind; [apply avoids_lift, oavoids_get|]. intros ci.
  apply avoids_mbind; [apply avoids_lift, oavoids_spread_or_empty|]. intros ex.
  apply avoids_ret.
Qed.

Lemma avoids_clone (repo : value) (location : string) :
  avoids (clone repo location).
Proof.
  unfold clone.
  apply avoids_mbind; [apply avoids_try_catch, avoids_ret|]. intros _.
  apply avoids_mbind.
  { apply avoids_lift. destruct repo as [| |[]| | |]; discriminate. }
  intros r w w'. unfold execAsync, mbind, emit. cbn [cwd root effects].
  destruct (spawn _ _ _) as [[] t]; discriminate.
Qed.

Lemma avoids_mergeJson (json : value) (location cmd : string) :
  cmd <> COMMIT -> cmd <> PULL -> avoids (mergeJson json location cmd).
Proof.
  intros Hc Hp. apply String.eqb_neq in Hc, Hp. unfold mergeJson.
  apply avoids_mbind; [apply avoids_lift, oavoids_array_or_empty|].
  intros jsonFiles.
  apply avoids_mbind; [|intros; apply avoids_ret].
  apply avoids_for_each. intros jsonFile. unfold mergeJsonFile.
  apply avoids_mbind; [apply avoids_lift, oavoids_get|]. intros ik.
  apply avoids_mbind; [apply avoids_lift, oavoids_get|]. intros nv.
  apply avoids_mbind.
  { apply avoids_lift. destruct nv; discriminate. }
  intros name.
  apply avoids_mbind; [apply avoids_lift, oavoids_templateFile|]. intros tf.
  apply avoids_mbind; [apply avoids_readJson|]. intros fj.
  apply avoids_mbind; [apply avoids_readJson|]. intros tj.
  apply avoids_mbind.
  { apply avoids_lift. destruct ik as [| | | | |[] ?]; discriminate. }
  intros keys.
  apply avoids_mbind; [apply avoids_lift, oavoids_omit|]. intros ifj.
  apply avoids_mbind; [apply avoids_lift, oavoids_omit|]. intros itj.
  rewrite Hc, Hp.
  apply avoids_mbind; [apply avoids_ret|]. intros _. apply avoids_ret.
Qed.

End Ordering.


(** C7. Under a command that is neither [commit] nor [pull], [main] never
    succeeds; when it fails with the invalid-command error, the
    configuration was loaded and the clone had run (its [git] command is the
    last effect); as soon as the configuration loads with a printable
    source the clone is attempted, whatever the run ends with; and the
    invalid-command error is what [main] throws once clone and merge have
    succeeded. *)
Theorem main_invalid_command_fails_after_clone `{Host}
        (location cmd : string) (w w' : world) (r : outcome unit) :
  cmd <> COMMIT -> cmd <> PULL ->
  main location cmd w = (r, w') ->
  (forall u, r <> Ok u) /\
  (r = Throw invalid_command ->
   exists c repo,
     config location w = (Ok c, w) /\
     template_string (source c) = Ok repo /\
     clone (source c) location w = (Ok tt, w') /\
     exists before, effects w' = before ++ [EExec (clone_command location repo)]) /\
  (forall c repo,
     config location w = (Ok c, w) ->
     template_string (source c) = Ok repo ->
     In (EExec (clone_command location repo)) (effects w')) /\
  (forall c,
     config location w = (Ok c, w) ->
     clone (source c) location w = (Ok tt, w') ->
     mergeJson (json c) location cmd w' = (Ok tt, w') ->
     r = Throw invalid_command).
Proof.
  intros Hc Hp E.
  destruct (main_invalid_run _ _ _ _ _ Hc Hp E)
    as [(e & Ecfg & -> & ->) | (c & Ecfg & Hrest)].
  - repeat split.
    + discriminate.
    + intros [= ->]. exfalso. now apply (avoids_config location w w).
    + intros c repo Ec. rewrite Ecfg in Ec. discriminate.
    + intros c Ec. rewrite Ecfg in Ec. discriminate.
  - assert (Hin : forall rc c0 repo0,
               clone (source c) location w = (rc, w') ->
               config location w = (Ok c0, w) ->
               template_string (source c0) = Ok repo0 ->
               In (EExec (clone_command location repo0)) (effects w')).
    { intros rc c0 repo0 Ecl Ec Hr. rewrite Ecfg in Ec. injection Ec as <-.
      destruct (clone_runs_git _ _ _ _ _ _ Ecl Hr) as (before & ->).
      apply in_or_app. right. now left. }
    destruct Hrest as [(e & Ecl & ->) | (Ecl & Hm)].
    + repeat split; eauto.
      * discriminate.
      * intros [= ->]. exfalso. now apply (avoids_clone (source c) location w w').
      * intros c0 Ec Ecl'. rewrite Ecfg in Ec. injection Ec as <-.
        rewrite Ecl in Ecl'. discriminate.
    + destruct (clone_ok_source _ _ _ _ _ Ecl) as (repo & Hrepo).
      destruct Hm as [(e & Em & ->) | (Em & ->)].
      * repeat split; eauto.
        -- discriminate.
        -- intros [= ->]. exfalso.
           now apply (avoids_mergeJson (json c) location cmd Hc Hp w' w').
        -- intros c0 Ec Ecl' Em'. rewrite Ecfg in Ec. injection Ec as <-.
           rewrite Em in Em'. discriminate.
      * repeat split; eauto.
        -- discriminate.
        -- intros _. exists c, repo. repeat split; auto.
           eapply clone_runs_git; eauto.
Qed.

(** C8. When the loaded configuration has no (or a falsy) [source],
    [config] throws the missing-source error and so does [main], and the
    world is as it was: no file was written, removed or copied and no
    command was run. *)
Theorem config_missing_source_fails_first `{Host}
        (location : string) (w : world) (cfg src : value) :
  readJson (join [location; "template.json"]) w = (Ok cfg, w) ->
  get cfg "source" = Ok src ->
  falsy src = true ->
  config location w = (Throw (JsError "config is missing source"), w) /\
  forall cmd,
    main location cmd w = (Throw (JsError "config is missing source"), w).
Proof.
  intros Hr Hg Hf.
  assert (Hc : config location w =
               (Throw (JsError "config is missing source"), w)).
  { unfold config. erewrite mbind_ok by exact Hr.
    destruct (readGitIgnore (join [location; ".gitignore"]) w) as [rg w1] eqn:Eg.
    pose proof (pure_run _ _ _ _ (pure_readGitIgnore _) Eg) as ->.
    destruct rg as [gi|e].
    - erewrite mbind_ok by exact Eg. rewrite Hg. unfold mbind, lift.
      now rewrite Hf.
    - exfalso. revert Eg. unfold readGitIgnore, try_catch.
      destruct (mbind _ _ w) as [[?|?] ?]; discriminate. }
  split; [exact Hc|]. intros cmd. unfold main.
  now erewrite mbind_throw by exact Hc.
Qed.

(** C10. Under a command that is neither [commit] nor [pull] the merge
    phase leaves the world as it is (no file created or modified on either
    side), so the world [main] ends in is the one the clone left, or the
    initial one when the configuration did not load. *)
Theorem mergeJson_invalid_command_writes_nothing `{Host}
        (json : value) (location cmd : string) (w : world) :
  cmd <> COMMIT -> cmd <> PULL ->
  snd (mergeJson json location cmd w) = w /\
  forall r w',
    main location cmd w = (r, w') ->
    w' = w \/
    exists c rc,
      config location w = (Ok c, w) /\
      clone (source c) location w = (rc, w').
Proof.
  intros Hc Hp. split; [now apply pure_mergeJson|].
  intros r w' E.
  destruct (main_invalid_run _ _ _ _ _ Hc Hp E)
    as [(e & _ & _ & ->) | (c & Ecfg & Hrest)]; [now left|].
  right. exists c.
  destruct Hrest as [(e & Ecl & _) | (Ecl & _)]; eauto.
Qed.

(** ** TreeWalker *)

Lemma node_induction (P : node -> Prop) :
  (forall c, P (File c)) ->
  (forall es, Forall (fun e => P (snd e)) es -> P (Dir es)) ->
  forall n, P n.
Proof.
  intros Hf Hd. fix IH 1. intros [c|es]; [apply Hf|]. apply Hd.
  induction es as [|[name c] rest IHes]; constructor; [apply IH | exact IHes].
Qed.


Lemma walk_node_Dir (ignore : list value) (full : string) (es : tree) :
  walk_node ignore full (Dir es) = walk_entries ignore full es.
Proof.
  cbn [walk_node]. induction es as [|[name c] rest IH]; [reflexivity|].
  cbn [walk_entries]. now rewrite <- IH.
Qed.

Lemma walk_entries_In (ignore : list value) (full : string) (es : tree) (p : string) :
  In p (walk_entries ignore full es) <->
  exists name c, In (name, c) es /\ ignored ignore name = false /\
                 In p (walk_node ignore (join [full; name]) c).
Proof.
  induction es as [|[name c] rest IH]; cbn [walk_entries].
  - split; [intros [] | intros (? & ? & [] & _)].
  - destruct (ignored ignore name) eqn:Ei.
    + rewrite IH. split.
      * intros (n & c0 & Hin & Hi & Hp). exists n, c0. cbn. auto.
      * intros (n & c0 & [[= <- <-]|Hin] & Hi & Hp); [congruence|].
        exists n, c0. auto.
    + rewrite in_app_iff, IH. split.
      * intros [Hp|(n & c0 & Hin & Hi & Hp)].
        -- exists name, c. cbn. auto.
        -- exists n, c0. cbn. auto.
      * intros (n & c0 & [[= <- <-]|Hin] & Hi & Hp); [now left|].
        right. exists n, c0. auto.
Qed.

Lemma walk_node_spec (ignore : list value) (n : node) :
  forall full p,
    In p (walk_node ignore full n) <->
    exists names content,
      p = descend full names /\
      at_path names n (File content) /\
      Forall (fun name => ignored ignore name = false) names.
Proof.
  induction n as [c|es IH] using node_induction; intros full p.
  - cbn [walk_node In]. split.
    + intros [<-|[]]. exists [], c. repeat split; constructor.
    + intros (names & content & -> & Hat & _). inversion Hat; subst. now left.
  - rewrite walk_node_Dir, walk_entries_In. split.
    + intros (name & c & Hin & Hi & Hp).
      rewrite Forall_forall in IH. specialize (IH _ Hin). cbn [snd] in IH.
      apply IH in Hp. destruct Hp as (names & content & -> & Hat & Hall).
      exists (name :: names), content. repeat split.
      * econstructor; eauto.
      * now constructor.
    + intros (names & content & -> & Hat & Hall).
      inversion Hat as [|name c es0 rest m Hin Hat']; subst.
      inversion Hall; subst.
      exists name, c. repeat split; auto.
      rewrite Forall_forall in IH. specialize (IH _ Hin). cbn [snd] in IH.
      apply IH. exists rest, content. auto.
Qed.

(** C9. [files] changes nothing and returns exactly the paths obtained by
    descending from the root location through entries none of which is
    named in the ignore list, down to an entry that is not a directory: no
    returned path passes through an ignored directory at any depth, none
    names an ignored file, and none names a directory. *)
Theorem files_excludes_ignored
        (location : string) (ignore : list value) (w w' : world)
        (paths : list string) :
  files location ignore w = (Ok paths, w') ->
  w' = w /\
  exists entries,
    readdir location w = (Ok entries, w) /\
    forall p,
      In p paths <->
      exists names content,
        names <> [] /\
        p = descend location names /\
        at_path names (Dir entries) (File content) /\
        Forall (fun name => ignored ignore name = false) names.
Proof.
  intros E. pose proof (pure_run _ _ _ _ (pure_files location ignore) E) as ->.
  split; [reflexivity|]. unfold files in E.
  destruct (readdir location w) as [re w1] eqn:Er.
  pose proof (pure_run _ _ _ _ (pure_readdir location) Er) as ->.
  unfold mbind in E. rewrite Er in E. destruct re as [entries|e]; [|discriminate].
  injection E as <-. exists entries. split; [reflexivity|].
  intros p.
  change (In p (walk_node ignore location (Dir entries)) <->
          exists names content,
            names <> [] /\
            p = descend location names /\
            at_path names (Dir entries) (File content) /\
            Forall (fun name => ignored ignore name = false) names).
  rewrite walk_node_spec. split.
  - intros (names & content & -> & Hat & Hall). exists names, content.
    repeat split; auto. intros ->. inversion Hat.
  - intros (names & content & _ & -> & Hat & Hall). eauto.
Qed.

(** ** The commit scenario *)

Lemma mbind_run {A B} (m : M A) (f : A -> M B) (w w' : world) (a : A)
      (r : outcome B * world) :
  m w = (Ok a, w') -> f a w' = r -> mbind m f w = r.
Proof. unfold mbind. now intros ->. Qed.

Lemma readJson_parsed `{Host} (p : string) (w : world) (c : string) (v : value) :
  readFile p w = (Ok c, w) -> parse c = Some v -> readJson p w = (Ok v, w).
Proof.
  intros Hr Hp. unfold readJson, try_catch, mbind. rewrite Hr. now rewrite Hp.
Qed.

Lemma execAsync_run `{Host} (command : string) (w : world) (ok : bool) (t : tree) :
  spawn command (cwd w) (root w) = (ok, t) ->
  execAsync command w =
  (if ok then Ok tt else Throw ExecError,
   mkWorld (cwd w) t (effects w ++ [EExec command])).
Proof.
  intros Hs. unfold execAsync, mbind, emit. cbn [cwd root effects].
  now rewrite Hs.
Qed.

(** Runs the first computation of a sequence on a concrete world. *)
Ltac step :=
  match goal with
  | |- mbind ?m ?f ?w = _ =>
      let v := eval vm_compute in (m w) in
      match v with
      | (Ok ?a, ?w') =>
          apply (mbind_run m f w w' a); [vm_cast_no_check (eq_refl v)|];
          cbv beta
      end
  end.

(** The same for a [readJson] whose file parses as [Hparse] says. *)
Ltac step_read Hparse :=
  match goal with
  | |- mbind (readJson ?p) ?f ?w = _ =>
      eapply (mbind_run (readJson p) f w w);
      [eapply readJson_parsed; [vm_compute; reflexivity | exact Hparse]|];
      cbv beta
  end.

Section Scenario.
Context `{Host}.
Variables cC cP cT : string.

Hypothesis parse_config : parse cC = Some scenario_config.
Hypothesis parse_project : parse cP = Some scenario_project.
Hypothesis parse_template : parse cT = Some scenario_template.
Hypothesis clone_succeeds :
  spawn "git -C /proj clone repo-url .template" "/proj" (scenario_tree cC cP) =
  (true, (scenario_cloned cC cP cT)).

Lemma scenario_config_loaded :
  config "/proj" (scenario_world cC cP) =
  (Ok (mkConfig (VStr "repo-url")
                [VStr "pkg.json"; VStr ".git"; VStr ".template"]
                (arr [obj [("name", VStr "pkg.json");
                           ("ignoreKeys", arr [VStr "version"])]])),
   (scenario_world cC cP)).
Proof.
  unfold config. step_read parse_config. do 2 step.
  change (falsy (VStr "repo-url")) with false. cbv iota.
  do 5 step. reflexivity.
Qed.

Lemma scenario_cloned_world :
  clone (VStr "repo-url") "/proj" (scenario_world cC cP) =
  (Ok tt, mkWorld "/proj" (scenario_cloned cC cP cT)
                  [EExec "git -C /proj clone repo-url .template"]).
Proof.
  unfold clone. do 2 step.
  exact (execAsync_run "git -C /proj clone repo-url .template"
                       (mkWorld "/proj" (scenario_tree cC cP) []) true (scenario_cloned cC cP cT)
                       clone_succeeds).
Qed.

Lemma scenario_merge :
  mergeJsonFile "/proj" COMMIT
    (obj [("name", VStr "pkg.json"); ("ignoreKeys", arr [VStr "version"])])
    (mkWorld "/proj" (scenario_cloned cC cP cT)
             [EExec "git -C /proj clone repo-url .template"]) =
  (Ok tt,
   mkWorld "/proj"
     [("proj", Dir [("template.json", File cC); ("pkg.json", File cP);
                    (".template",
                     Dir [("pkg.json", File (stringify scenario_merged))])])]
     [EExec "git -C /proj clone repo-url .template";
      EWriteFile "/proj/.template/pkg.json" (stringify scenario_merged)]).
Proof.
  unfold mergeJsonFile. do 4 step.
  step_read parse_project. step_read parse_template. do 3 step.
  change (String.eqb COMMIT COMMIT) with true.
  change (String.eqb COMMIT PULL) with false. cbv iota.
  step. reflexivity.
Qed.

End Scenario.

(** C4. With [template.json], the project's [pkg.json] and the cloned
    template's [pkg.json] as in the scenario, [main] under [commit]
    succeeds and leaves in the template's [pkg.json] the text of
    [{"version":"0.9.0","name":"app","license":"MIT"}]: the ignored key
    keeps the template's value, the shared key takes the project's, the
    template-only key stays; the project's file is untouched. *)
Theorem commit_scenario `{Host} (cC cP cT : string) :
  parse cC = Some scenario_config ->
  parse cP = Some scenario_project ->
  parse cT = Some scenario_template ->
  spawn "git -C /proj clone repo-url .template" "/proj" (scenario_tree cC cP) =
    (true, scenario_cloned cC cP cT) ->
  main "/proj" COMMIT (scenario_world cC cP) = (Ok tt, scenario_final cC cP) /\
  readFile "/proj/.template/pkg.json" (scenario_final cC cP) =
    (Ok (stringify scenario_merged), scenario_final cC cP) /\
  readFile "/proj/pkg.json" (scenario_final cC cP) =
    (Ok cP, scenario_final cC cP).
Proof.
  intros HC HP HT Hclone. split; [|split; reflexivity].
  unfold main.
  eapply mbind_run; [now apply scenario_config_loaded|]. cbn [source json ignore].
  eapply mbind_run; [now apply (scenario_cloned_world cC cP cT)|].
  eapply mbind_run.
  { unfold mergeJson. step. cbn [for_each].
    eapply mbind_run; [eapply mbind_run;
                       [now apply (scenario_merge cC cP cT)|reflexivity]|].
    reflexivity. }
  change (String.eqb COMMIT COMMIT) with true. cbv iota.
  step. step. reflexivity.
Qed.

(** ** Commit, then pull *)

Lemma omit_fold_lookup (keys : list string) (es acc : props) (k : string) :
  lookup k (fold_left
              (fun prev kv =>
                 if negb (includes keys (fst kv))
                 then define_own (fst kv) (snd kv) prev
                 else prev) es acc) =
  if includes keys k then lookup k acc
  else match lookup k (rev es) with
       | Some v => Some v
       | None => lookup k acc
       end.
Proof.
  revert acc. induction es as [|[k0 v0] rest IH]; intros acc; cbn [fold_left rev].
  - cbn. now destruct (includes keys k).
  - rewrite IH. cbn [fst snd]. rewrite lookup_app. cbn [lookup].
    destruct (includes keys k) eqn:Ek.
    + destruct (includes keys k0) eqn:Ek0; cbn [negb]; [reflexivity|].
      apply lookup_define_own_other. intros ->. congruence.
    + destruct (lookup k (rev rest)); [reflexivity|].
      destruct (String.eqb_spec k k0) as [->|Hne].
      * rewrite Ek. cbn [negb]. apply lookup_define_own_same.
      * destruct (includes keys k0); cbn [negb]; [reflexivity|].
        now apply lookup_define_own_other.
Qed.

Lemma omit_fold_NoDup (keys : list string) (es acc : props) :
  NoDup (map fst acc) ->
  NoDup (map fst (fold_left
                    (fun prev kv =>
                       if negb (includes keys (fst kv))
                       then define_own (fst kv) (snd kv) prev
                       else prev) es acc)).
Proof.
  revert acc. induction es as [|[k0 v0] rest IH]; intros acc Hd; cbn [fold_left].
  - exact Hd.
  - apply IH. cbn [fst snd]. destruct (negb (includes keys k0)); [|exact Hd].
    now apply define_own_NoDup.
Qed.

(** [omit] on a plain object with unique keys: the listed keys are gone,
    the others keep their values. *)
Lemma omit_plain (keys : list string) (ps : props) :
  NoDup (map fst ps) ->
  exists po,
    omit keys (VObj CObject ps) = Ok (VObj CObject po) /\
    NoDup (map fst po) /\
    forall k, lookup k po = if includes keys k then None else lookup k ps.
Proof.
  intros Hd. unfold omit. cbn [keys_of own_entries bind].
  eexists. split; [reflexivity|]. split.
  - apply omit_fold_NoDup. constructor.
  - intros k. rewrite omit_fold_lookup. rewrite lookup_rev by exact Hd.
    cbn [lookup].
    destruct (includes keys k); [reflexivity|]. now destruct (lookup k ps).
Qed.

Lemma replace_same (k : string) (v : value) (ps : props) :
  lookup k ps = Some v -> replace k v ps = ps.
Proof.
  induction ps as [|[k0 v0] rest IH]; cbn; [discriminate|].
  destruct (String.eqb_spec k k0) as [->|Hne].
  - now intros [= ->].
  - intros Hl. f_equal. auto.
Qed.

Lemma lookup_In (k : string) (v : value) (ps : props) :
  lookup k ps = Some v -> In (k, v) ps.
Proof.
  induction ps as [|[k0 v0] rest IH]; cbn; [discriminate|].
  destruct (String.eqb_spec k k0) as [->|Hne]; [intros [= ->]; now left|].
  intros Hl. right. auto.
Qed.

Lemma In_lookup (k : string) (v : value) (ps : props) :
  NoDup (map fst ps) -> In (k, v) ps -> lookup k ps = Some v.
Proof.
  induction ps as [|[k0 v0] rest IH]; cbn; [tauto|].
  intros Hd [[= -> ->]|Hin].
  - now rewrite String.eqb_refl.
  - inversion Hd as [|? ? Hn Hrest]; subst.
    destruct (String.eqb_spec k k0) as [->|Hne]; [|auto].
    exfalso. apply Hn. apply (in_map fst) in Hin. exact Hin.
Qed.

(** After a run of writes with unique keys, every entry is either bound as
    written or was a missing [__proto__] that the setter ignored. *)
Lemma put_all_plain_entries (es : props) :
  forall ps ps',
    put_all (VObj CObject ps) es = Ok (VObj CObject ps') ->
    NoDup (map fst es) ->
    forall k v, In (k, v) es ->
                lookup k ps' = Some v \/
                (lookup k ps' = None /\ k = "__proto__" /\ ignorable v = true).
Proof.
  induction es as [|[k0 v0] rest IH]; intros ps ps' H Hd k v Hin; [destruct Hin|].
  cbn [put_all] in H.
  destruct (put (VObj CObject ps) k0 v0) as [o1|] eqn:E; cbn [bind] in H;
    [|discriminate].
  pose proof (put_plain _ _ _ _ E) as ->.
  inversion Hd as [|? ? Hn Hrest]; subst.
  destruct Hin as [[= -> ->]|Hin].
  - assert (Hk : lookup k rest = None) by now apply lookup_None_keys.
    rewrite (put_all_plain_untouched _ _ _ _ H Hk).
    destruct (settable ps k) eqn:Es.
    + left. apply lookup_define_own_same.
    + right. pose proof (put_plain_ignored _ _ _ _ E Es) as Hi.
      unfold settable in Es. apply orb_false_iff in Es. destruct Es as [E1 E2].
      apply negb_false_iff, String.eqb_eq in E2.
      split; [now apply has_key_false | auto].
  - exact (IH _ _ H Hrest k v Hin).
Qed.

(** Writing the same entries again changes nothing. *)
Lemma put_all_plain_again (es ps ps' : props) :
  put_all (VObj CObject ps) es = Ok (VObj CObject ps') ->
  NoDup (map fst es) ->
  put_all (VObj CObject ps') es = Ok (VObj CObject ps').
Proof.
  intros H Hd. pose proof (put_all_plain_entries _ _ _ H Hd) as Hall.
  clear H Hd. induction es as [|[k v] rest IH]; cbn [put_all]; [reflexivity|].
  assert (Hput : put (VObj CObject ps') k v = Ok (VObj CObject ps')).
  { destruct (Hall k v (or_introl eq_refl)) as [Hk|(Hk & -> & Hi)].
    - cbn [put]. unfold ordinary_set, has_key. rewrite Hk.
      now rewrite (replace_same _ _ _ Hk).
    - apply put_plain_ignores; [|exact Hi]. unfold settable, has_key.
      now rewrite Hk. }
  rewrite Hput. cbn [bind]. apply IH. intros k0 v0 Hin. apply Hall. now right.
Qed.

(** A successful merge into a plain object of entries that are all scalar:
    the result binds every entry but a missing [__proto__], keeps the
    rest, and merging the same entries again returns the same object. *)
Lemma deepMerge_scalars (pt ps : props) (r : value) :
  NoDup (map fst ps) ->
  Forall (fun kv => instanceof_Object (snd kv) = false) ps ->
  deepMerge (VObj CObject pt) (VObj CObject ps) = Ok r ->
  exists pr,
    r = VObj CObject pr /\
    (forall k, settable pt k = true ->
               lookup k pr =
               match lookup k ps with Some v => Some v | None => lookup k pt end) /\
    (forall k, lookup k ps = None -> lookup k pr = lookup k pt) /\
    deepMerge r (VObj CObject ps) = Ok r.
Proof.
  intros Hd Hs E. pose proof E as E0. rewrite deepMerge_unfold in E.
  rewrite merge_entries_scalars in E by exact Hs. cbn [bind] in E.
  unfold assign in E. cbn [to_object bind own_entries] in E.
  destruct (put_all_plain _ _ _ E) as (pr & -> & Hl & _ & _ & _).
  exists pr. split; [reflexivity|]. split; [|split].
  - intros k Hk. rewrite Hl by exact Hk. now rewrite lookup_rev.
  - intros k Hk. exact (deepMerge_plain_untouched _ _ _ _ E0 Hk).
  - rewrite deepMerge_unfold, merge_entries_scalars by exact Hs. cbn [bind].
    unfold assign. cbn [to_object bind own_entries].
    exact (put_all_plain_again _ _ _ E Hd).
Qed.


Section Pull.
Variable keys : list string.
Variables pP pT : props.
Hypothesis unique_T : NoDup (map fst pT).
Hypothesis disjoint :
  forall k, In k (map fst pP) -> In k (map fst pT) -> includes keys k = true.

(** What [omit] leaves of the template is absent from the project. *)
Lemma omitted_absent (pi : props) (k : string) (v : value) :
  (forall k0, lookup k0 pi = if includes keys k0 then None else lookup k0 pT) ->
  lookup k pi = Some v -> lookup k pP = None.
Proof.
  intros Hli Hk. rewrite Hli in Hk.
  destruct (includes keys k) eqn:Hi; [discriminate|].
  apply lookup_None_keys. intros Hin.
  assert (In k (map fst pT)) by (apply lookup_In_keys; congruence).
  rewrite (disjoint k) in Hi by assumption. discriminate.
Qed.

(** Pulling again from the same template into the result of a pull
    returns the result. *)
Lemma pull_idempotent (P' : value) :
  pull_merge keys (VObj CObject pP) (VObj CObject pT) = Ok P' ->
  pull_merge keys P' (VObj CObject pT) = Ok P'.
Proof.
  unfold pull_merge.
  destruct (omit_plain keys pT unique_T) as (pi & -> & Hdi & Hli). cbn [bind].
  intros E.
  assert (Hscalar : Forall (fun kv => instanceof_Object (snd kv) = false) pi).
  { apply Forall_forall. intros [k v] Hin. cbn [snd].
    pose proof (In_lookup _ _ _ Hdi Hin) as Hk.
    destruct (instanceof_Object v) eqn:Hv; [|reflexivity].
    exfalso. apply (deepMerge_structured_present _ _ _ _ _ _ E Hk Hv).
    exact (omitted_absent _ _ _ Hli Hk). }
  now destruct (deepMerge_scalars _ _ _ Hdi Hscalar E) as (pr & -> & _ & _ & Hidem).
Qed.

End Pull.


(** The link to the program: what [mergeJsonFile] writes under [pull] is
    the text of [pull_merge] of the two files it has read, and under
    [commit] the text of [commit_merge]. *)
Ltac run_bind E a w1 Ea :=
  unfold mbind at 1 in E;
  match type of E with
  | (let (_, _) := ?m ?w in _) = _ =>
      destruct (m w) as [[a|?] w1] eqn:Ea; [|discriminate E]
  end.

Ltac run_lift E a Ea :=
  unfold mbind at 1 in E; unfold lift at 1 in E;
  match type of E with
  | (match ?o with Ok _ => _ | Throw _ => _ end) = _ =>
      destruct o as [a|?] eqn:Ea; [|discriminate E]
  end.

Lemma writeFile_effect (p c : string) (w w' : world) (r : outcome unit) :
  writeFile p c w = (r, w') -> effects w' = effects w ++ [EWriteFile p c].
Proof.
  unfold writeFile, mbind, emit, alter_at. cbn [cwd root effects].
  match goal with
  | |- context [alter_path ?s ?f ?n] => destruct (alter_path s f n) as [[?|?]|?]
  end; intros [= _ <-]; reflexivity.
Qed.

Theorem mergeJsonFile_writes `{Host}
        (location : string) (jsonFile : value) (w w' : world) :
  (mergeJsonFile location PULL jsonFile w = (Ok tt, w') ->
   exists name tf keysV keys P T v,
     get jsonFile "name" = Ok (VStr name) /\
     templateFile (join [location; name]) location = Ok tf /\
     get jsonFile "ignoreKeys" = Ok keysV /\
     string_array keysV = Ok keys /\
     readJson (join [location; name]) w = (Ok P, w) /\
     readJson tf w = (Ok T, w) /\
     pull_merge keys P T = Ok v /\
     exists before,
       effects w' = before ++ [EWriteFile (join [location; name]) (stringify v)]) /\
  (mergeJsonFile location COMMIT jsonFile w = (Ok tt, w') ->
   exists name tf keysV keys P T v,
     get jsonFile "name" = Ok (VStr name) /\
     templateFile (join [location; name]) location = Ok tf /\
     get jsonFile "ignoreKeys" = Ok keysV /\
     string_array keysV = Ok keys /\
     readJson (join [location; name]) w = (Ok P, w) /\
     readJson tf w = (Ok T, w) /\
     commit_merge keys P T = Ok v /\
     exists before,
       effects w' = before ++ [EWriteFile tf (stringify v)]).
Proof.
  split; intros E; unfold mergeJsonFile in E.
  - run_lift E keysV Ek. run_lift E nameV En. run_lift E name Ep.
    destruct nameV; try discriminate Ep. injection Ep as ->.
    run_lift E tf Et. run_bind E P w1 EP.
    pose proof (pure_run _ _ _ _ (pure_readJson _) EP) as ->.
    run_bind E T w2 ET.
    pose proof (pure_run _ _ _ _ (pure_readJson _) ET) as ->.
    run_lift E keys Eks. run_lift E iP EiP. run_lift E iT EiT.
    change (String.eqb PULL COMMIT) with false in E.
    change (String.eqb PULL PULL) with true in E. cbv iota in E.
    unfold mbind at 1 in E. unfold ret at 1 in E.
    run_lift E v Ev. run_bind E u w3 Em. 
    exists name, tf, keysV, keys, P, T, v. repeat split; auto.
    + unfold pull_merge. now rewrite EiT.
    + exists (effects w3). eapply writeFile_effect; eauto.
  - run_lift E keysV Ek. run_lift E nameV En. run_lift E name Ep.
    destruct nameV; try discriminate Ep. injection Ep as ->.
    run_lift E tf Et. run_bind E P w1 EP.
    pose proof (pure_run _ _ _ _ (pure_readJson _) EP) as ->.
    run_bind E T w2 ET.
    pose proof (pure_run _ _ _ _ (pure_readJson _) ET) as ->.
    run_lift E keys Eks. run_lift E iP EiP. run_lift E iT EiT.
    change (String.eqb COMMIT COMMIT) with true in E.
    change (String.eqb COMMIT PULL) with false in E. cbv iota in E.
    unfold mbind at 1 in E.
    match type of E with
    | (let (_, _) := ?m ?w in _) = _ =>
        destruct (m w) as [[u|?] w3] eqn:Ec; [|discriminate E]
    end.
    unfold ret in E. injection E as <-.
    run_lift Ec v Ev. run_bind Ec u' w4 Em.
    exists name, tf, keysV, keys, P, T, v. repeat split; auto.
    + unfold commit_merge. now rewrite EiP.
    + exists (effects w4). eapply writeFile_effect; eauto.
Qed.

(** X21. On the program: a pull, then a second pull in a world where the project
    file parses to what the first one wrote and the template file is as
    before, write the same text to the same file. *)
Theorem pull_again_writes_same_text `{Host}
        (location : string) (jsonFile keysV : value) (keys : list string)
        (name tf : string) (pP pT : props) (w w1 w2 w3 : world) :
  get jsonFile "name" = Ok (VStr name) ->
  get jsonFile "ignoreKeys" = Ok keysV ->
  string_array keysV = Ok keys ->
  templateFile (join [location; name]) location = Ok tf ->
  NoDup (map fst pT) ->
  (forall k, In k (map fst pP) -> In k (map fst pT) -> includes keys k = true) ->
  readJson (join [location; name]) w = (Ok (VObj CObject pP), w) ->
  readJson tf w = (Ok (VObj CObject pT), w) ->
  mergeJsonFile location PULL jsonFile w = (Ok tt, w1) ->
  (forall v, pull_merge keys (VObj CObject pP) (VObj CObject pT) = Ok v ->
             readJson (join [location; name]) w2 = (Ok v, w2)) ->
  readJson tf w2 = (Ok (VObj CObject pT), w2) ->
  mergeJsonFile location PULL jsonFile w2 = (Ok tt, w3) ->
  exists text before1 before3,
    effects w1 = before1 ++ [EWriteFile (join [location; name]) text] /\
    effects w3 = before3 ++ [EWriteFile (join [location; name]) text].
Proof.
  intros Hname Hkeys Hsa Htf HdT Hdis HrP HrT Hrun1 Hback HrT2 Hrun2.
  destruct (proj1 (mergeJsonFile_writes location jsonFile w w1) Hrun1)
    as (n1 & tf1 & kv1 & ks1 & P1 & T1 & v1 & En1 & Et1 & Ek1 & Es1 & EP1 & ET1
        & Em1 & before1 & Ew1).
  rewrite Hname in En1. injection En1 as <-.
  rewrite Hkeys in Ek1. injection Ek1 as <-.
  rewrite Hsa in Es1. injection Es1 as <-.
  rewrite Htf in Et1. injection Et1 as <-.
  rewrite HrP in EP1. injection EP1 as <-.
  rewrite HrT in ET1. injection ET1 as <-.
  destruct (proj1 (mergeJsonFile_writes location jsonFile w2 w3) Hrun2)
    as (n2 & tf2 & kv2 & ks2 & P2 & T2 & v2 & En2 & Et2 & Ek2 & Es2 & EP2 & ET2
        & Em2 & before3 & Ew3).
  rewrite Hname in En2. injection En2 as <-.
  rewrite Hkeys in Ek2. injection Ek2 as <-.
  rewrite Hsa in Es2. injection Es2 as <-.
  rewrite Htf in Et2. injection Et2 as <-.
  rewrite (Hback _ Em1) in EP2. injection EP2 as <-.
  rewrite HrT2 in ET2. injection ET2 as <-.
  assert (Hidem : pull_merge keys v1 (VObj CObject pT) = Ok v1)
    by (eapply (pull_idempotent keys pP pT); eauto).
  rewrite Hidem in Em2. injection Em2 as <-.
  exists (stringify v1), before1, before3. now split.
Qed.

(** ** Commit, then pull, on the program *)


Section RoundTrip.
Context `{Host}.
Variables cC cP cT : string.
Variable keysV : value.
Variable keys : list string.
Variables pP pT : props.

Hypothesis parse_config : parse cC = Some (roundtrip_config keysV).
Hypothesis ignored_keys : string_array keysV = Ok keys.
Hypothesis parse_template : parse cT = Some (VObj CObject pT).
Hypothesis clone_delivers :
  forall c, spawn git_clone "/proj" (scenario_tree cC c) = (true, scenario_cloned cC c cT).







Hypothesis parse_project : parse cP = Some (VObj CObject pP).



End RoundTrip.



(** The JSON file has to sit in the project directory itself.  [config]
    puts the whole [name] of a JSON file on the ignore list, and the walk
    of [files] compares that list with entry names: for [cfg/pkg.json] the
    copy that follows the merge does not skip the file, and a pull leaves
    in the project the template's text, not the merged one it has just
    written. *)
Lemma pull_overwrites_json_in_subdirectory :
  exists w',
    @main nested_host "/proj" PULL nested_world = (Ok tt, w') /\
    In (EWriteFile "/proj/cfg/pkg.json" "M") (effects w') /\
    In (ECopyFile "/proj/.template/cfg/pkg.json" "/proj/cfg/pkg.json") (effects w') /\
    readFile "/proj/cfg/pkg.json" w' = (Ok "T", w').
Proof.
  eexists. split; [vm_compute; reflexivity|].
  split; [cbn; tauto|]. split; [cbn; tauto|]. vm_compute. reflexivity.
Qed.

(** The values outside the ignored keys have to be scalars.  A project
    file that binds an object under a key of its own, which the template
    lacks as the claim supposes, stops the commit: the merge throws on the
    absent entry and nothing is written. *)
Lemma commit_stops_on_nested_value :
  exists w',
    @main deep_host "/proj" COMMIT (scenario_world "C" "P")
      = (Throw TypeError, w') /\
    effects w' = [EExec git_clone] /\
    readFile "/proj/.template/pkg.json" w' = (Ok "T", w').
Proof.
  eexists. split; [vm_compute; reflexivity|].
  split; [reflexivity|]. vm_compute. reflexivity.
Qed.

(** ** TemplateCache: the path mappings *)

Lemma atom_of_char_lit (c c' : ascii) : atom_of_char c = Ok (ALit c') -> c' = c.
Proof.
  unfold atom_of_char.
  repeat match goal with
         | |- context [if ?b then _ else _] => destruct b
         end; intros [= ->]; reflexivity || discriminate.
Qed.

Lemma atom_of_char_any (c : ascii) : atom_of_char c = Ok AAny -> c = "."%char.
Proof.
  unfold atom_of_char. destruct (Ascii.eqb_spec c "."%char) as [->|]; [reflexivity|].
  repeat match goal with
         | |- context [if ?b then _ else _] => destruct b
         end; discriminate.
Qed.

(** A location made of safe characters is stripped from the front of every
    path that starts with it. *)
Lemma strip_prefix_safe (location rest : string) :
  all_chars pattern_safe location = true ->
  strip_prefix location (String.append location rest) = Ok rest.
Proof.
  intros Hs. unfold strip_prefix.
  assert (H : forall depth at_start,
             exists atoms,
               parse_pattern depth location =
                 (match depth with
                  | O => Ok atoms
                  | S _ => Throw SyntaxError
                  end) /\
               match_here atoms at_start (String.append location rest) = Some rest).
  { induction location as [|c loc IH]; intros depth at_start.
    - exists []. split; [now destruct depth | reflexivity].
    - cbn [all_chars] in Hs. apply andb_true_iff in Hs. destruct Hs as [Hc Hl].
      destruct (IH Hl depth false) as (atoms & Hp & Hm).
      unfold pattern_safe in Hc. cbn [parse_pattern].
      destruct (atom_of_char c) as [[c'| | | | |]|] eqn:Ea; try discriminate.
      + apply atom_of_char_lit in Ea. subst c'. cbn [bind]. rewrite Hp.
        exists (ALit c :: atoms). split; [now destruct depth|].
        cbn [String.append match_here]. now rewrite Ascii.eqb_refl.
      + cbn [bind]. rewrite Hp. exists (AAny :: atoms).
        split; [now destruct depth|]. cbn [String.append match_here].
        apply negb_true_iff in Hc. now rewrite Hc. }
  destruct (H 0%nat true) as (atoms & -> & Hm). cbn [bind match_here].
  now rewrite Hm.
Qed.

(** C6 (the code departs from the claim).  The project root
    [/u/app (copy)] is read as a regular expression with a group, which does
    not match the root's own text: [templateFile] strips nothing and nests
    the whole path under the cache, and [normalFile] does not lead back. *)
Theorem path_mappings_regex_root :
  let location := "/u/app (copy)" in
  let p := "/u/app (copy)/x.json" in
  templateFile p location =
    Ok "/u/app (copy)/.template/u/app (copy)/x.json" /\
  (t <- templateFile p location ;;
   normalFile t (join [location; ".template"]) location) =
    Ok "/u/app (copy)/u/app (copy)/.template/u/app (copy)/x.json" /\
  (t <- templateFile p location ;;
   normalFile t (join [location; ".template"]) location) <> Ok p.
Proof. cbv zeta. split; [reflexivity|]. split; [reflexivity|]. discriminate. Qed.

(** On a root without such characters the mappings are inverse, for
    instance: *)
Example path_mappings_plain_root :
  templateFile "/proj/sub/pkg.json" "/proj" = Ok "/proj/.template/sub/pkg.json" /\
  normalFile "/proj/.template/sub/pkg.json" (join ["/proj"; ".template"]) "/proj" =
    Ok "/proj/sub/pkg.json".
Proof. split; reflexivity. Qed.

(** *** Joining and normalising paths made of entry names *)

Lemma append_nil_r (s : string) : (s ++ "")%string = s.
Proof. induction s; cbn; congruence. Qed.

Lemma append_assoc (a b c : string) :
  ((a ++ b) ++ c)%string = (a ++ (b ++ c))%string.
Proof. induction a; cbn; congruence. Qed.

Lemma split_on_cons (c : ascii) (s : string) :
  exists seg segs, split_on c s = seg :: segs.
Proof.
  induction s as [|a rest (seg & segs & IH)]; cbn; [eauto|].
  destruct (Ascii.eqb a c); [eauto|]. rewrite IH. eauto.
Qed.

Lemma split_on_append (c : ascii) (a b : string) :
  split_on c (a ++ String c b)%string = split_on c a ++ split_on c b.
Proof.
  induction a as [|x rest IH]; cbn.
  - now rewrite Ascii.eqb_refl.
  - destruct (Ascii.eqb x c); [now rewrite IH|].
    rewrite IH. destruct (split_on_cons c rest) as (seg & segs & ->).
    reflexivity.
Qed.

Lemma split_on_name (s : string) :
  all_chars not_slash s = true -> split_on slash s = [s].
Proof.
  induction s as [|a rest IH]; cbn; [reflexivity|].
  intros H. apply andb_true_iff in H. destruct H as [Ha Hr].
  unfold not_slash in Ha. apply negb_true_iff in Ha. rewrite Ha.
  now rewrite IH.
Qed.

Lemma good_name_chars (s : string) :
  good_name s = true -> all_chars not_slash s = true.
Proof. unfold good_name. intros H. now apply andb_true_iff in H. Qed.

Lemma good_name_nonempty (s : string) : good_name s = true -> s <> "".
Proof.
  unfold good_name. intros H ->. discriminate.
Qed.

Lemma join_with_cons (x : string) (rest : list string) :
  rest <> [] ->
  join_with "/" (x :: rest) = (x ++ String "/" (join_with "/" rest))%string.
Proof. destruct rest; [congruence | reflexivity]. Qed.

Lemma split_join_names (ns : list string) :
  Forall (fun n => good_name n = true) ns -> ns <> [] ->
  split_on slash (join_with "/" ns) = ns.
Proof.
  induction 1 as [|n rest Hn Hrest IH]; [congruence|]. intros _.
  destruct rest as [|n' rest'].
  - cbn. now apply split_on_name, good_name_chars.
  - rewrite join_with_cons by discriminate.
    change (String "/" ?x) with (String slash x).
    rewrite split_on_append, split_on_name by now apply good_name_chars.
    cbn [app]. f_equal. now apply IH.
Qed.

Lemma join_with_app (rs ns : list string) :
  rs <> [] -> ns <> [] ->
  join_with "/" (rs ++ ns) =
  (join_with "/" rs ++ String "/" (join_with "/" ns))%string.
Proof.
  intros Hr Hn. induction rs as [|r rest IH]; [congruence|].
  destruct rest as [|r' rest'].
  - cbn [app]. now rewrite join_with_cons.
  - change ((r :: r' :: rest') ++ ns) with (r :: ((r' :: rest') ++ ns)).
    rewrite join_with_cons by discriminate.
    rewrite IH by discriminate.
    rewrite (join_with_cons r (r' :: rest')) by discriminate.
    now rewrite append_assoc.
Qed.

(** Empty segments vanish, entry names stay, in order. *)
Lemma normalize_fold_names (allow : bool) (segs acc : list string) :
  Forall (fun s => s = "" \/ good_name s = true) segs ->
  fold_left (normalize_step allow) segs acc =
  rev (filter (fun s => negb (String.eqb s "")) segs) ++ acc.
Proof.
  intros H. revert acc. induction H as [|s rest Hs _ IH]; intros acc;
    cbn [fold_left filter]; [reflexivity|].
  rewrite IH. destruct Hs as [->|Hg].
  - reflexivity.
  - unfold normalize_step. unfold good_name in Hg.
    repeat (apply andb_true_iff in Hg; destruct Hg as [Hg ?]).
    destruct (String.eqb s ""); [discriminate|].
    destruct (String.eqb s "."); [discriminate|].
    destruct (String.eqb s ".."); [discriminate|].
    cbn [orb negb rev]. now rewrite <- app_assoc.
Qed.

Lemma ends_with_slash_name (s : string) :
  all_chars not_slash s = true -> ends_with_slash s = false.
Proof.
  induction s as [|a rest IH]; cbn; [reflexivity|].
  intros H. apply andb_true_iff in H. destruct H as [Ha Hr].
  destruct rest; [|now apply IH].
  unfold not_slash in Ha. now apply negb_true_iff in Ha.
Qed.

Lemma ends_with_slash_append (a b : string) :
  b <> "" -> ends_with_slash (a ++ b)%string = ends_with_slash b.
Proof.
  intros Hb. induction a as [|x rest IH]; [reflexivity|].
  cbn [String.append]. destruct (rest ++ b)%string as [|y s'] eqn:E.
  - destruct rest; [cbn in E; congruence | discriminate].
  - rewrite <- IH. reflexivity.
Qed.

Lemma join_with_names_nonempty (ns : list string) :
  Forall (fun n => good_name n = true) ns -> ns <> [] -> join_with "/" ns <> "".
Proof.
  intros H Hn. destruct H as [|n rest Hg _]; [congruence|].
  apply good_name_nonempty in Hg. destruct n; [congruence|].
  destruct rest; discriminate.
Qed.

Lemma ends_with_slash_join_names (ns : list string) :
  Forall (fun n => good_name n = true) ns ->
  ends_with_slash (join_with "/" ns) = false.
Proof.
  induction 1 as [|n rest Hn Hrest IH]; [reflexivity|].
  destruct rest as [|n' rest'].
  - cbn. now apply ends_with_slash_name, good_name_chars.
  - rewrite join_with_cons by discriminate.
    rewrite ends_with_slash_append by discriminate.
    assert (Hne : join_with "/" (n' :: rest') <> "")
      by (apply join_with_names_nonempty; [assumption | discriminate]).
    change (String "/" (join_with "/" (n' :: rest')))
      with ("/" ++ join_with "/" (n' :: rest'))%string.
    now rewrite ends_with_slash_append.
Qed.

Lemma filter_names (ns : list string) :
  Forall (fun n => good_name n = true) ns ->
  filter (fun s => negb (String.eqb s "")) ns = ns.
Proof.
  induction 1 as [|n rest Hn _ IH]; cbn; [reflexivity|].
  apply good_name_nonempty in Hn. apply String.eqb_neq in Hn. rewrite Hn.
  cbn. now rewrite IH.
Qed.

Lemma segments_join_names (ns : list string) :
  Forall (fun n => good_name n = true) ns ->
  segments_are (join_with "/" ns) ns.
Proof.
  intros H. destruct ns as [|n rest].
  - repeat split; cbn; auto.
  - unfold segments_are.
    rewrite split_join_names by (auto; discriminate). repeat split; auto.
    + eapply Forall_impl; [|exact H]. cbn. auto.
    + now apply filter_names.
Qed.

Lemma segments_slash (p : string) (gs : list string) :
  segments_are p gs -> segments_are (String "/" p) gs.
Proof.
  intros (H1 & H2 & H3).
  change (String "/" p) with ("" ++ String slash p)%string.
  unfold segments_are. rewrite split_on_append. cbn [split_on app filter].
  repeat split; auto.
Qed.

Lemma segments_abs_path (ns : list string) :
  Forall (fun n => good_name n = true) ns -> segments_are (abs_path ns) ns.
Proof. intros H. now apply segments_slash, segments_join_names. Qed.

Lemma segments_append (a b : string) (ga gb : list string) :
  segments_are a ga -> segments_are b gb ->
  segments_are (a ++ String "/" b)%string (ga ++ gb).
Proof.
  intros (A1 & A2 & A3) (B1 & B2 & B3). unfold segments_are.
  change (String "/" b) with (String slash b). rewrite split_on_append.
  repeat split.
  - now apply Forall_app.
  - now rewrite filter_app, A2, B2.
  - now apply Forall_app.
Qed.

(** [normalize] on a path made of entry names and separators. *)
Lemma normalize_names (p : string) (gs : list string) :
  segments_are p gs -> gs <> [] -> ends_with_slash p = false ->
  normalize p =
  if starts_with_slash p then abs_path gs else join_with "/" gs.
Proof.
  intros (H1 & H2 & H3) Hgs He. unfold normalize.
  destruct (String.eqb_spec p "") as [->|Hp]; [cbn in H2; congruence|].
  unfold normalize_segments. rewrite (normalize_fold_names _ _ _ H1), H2.
  rewrite app_nil_r, rev_involutive, He.
  pose proof (join_with_names_nonempty gs H3 Hgs) as Hne.
  apply String.eqb_neq in Hne. rewrite Hne.
  now destruct (starts_with_slash p).
Qed.

(** [path.join] of two such paths. *)
Lemma join_names (a b : string) (ga gb : list string) :
  a <> "" -> b <> "" ->
  segments_are a ga -> segments_are b gb -> gb <> [] ->
  ends_with_slash b = false ->
  join [a; b] =
  if starts_with_slash a then abs_path (ga ++ gb) else join_with "/" (ga ++ gb).
Proof.
  intros Ha Hb Sa Sb Hgb He. unfold join. cbn [filter].
  apply String.eqb_neq in Ha, Hb. rewrite Ha, Hb. cbn [negb join_with].
  apply String.eqb_neq in Ha, Hb.
  rewrite (normalize_names _ (ga ++ gb)).
  - destruct a; [congruence | reflexivity].
  - now apply segments_append.
  - destruct ga; [exact Hgb | discriminate].
  - change (String "/" b) with ("/" ++ b)%string.
    now rewrite !ends_with_slash_append.
Qed.

Lemma all_chars_append (f : ascii -> bool) (a b : string) :
  all_chars f (a ++ b)%string = all_chars f a && all_chars f b.
Proof.
  induction a as [|x rest IH]; cbn; [reflexivity|].
  now rewrite IH, andb_assoc.
Qed.

Lemma all_chars_join (f : ascii -> bool) (rs : list string) :
  f slash = true -> Forall (fun r => all_chars f r = true) rs ->
  all_chars f (join_with "/" rs) = true.
Proof.
  intros Hf. induction 1 as [|r rest Hr Hrest IH]; [reflexivity|].
  destruct rest as [|r' rest']; [exact Hr|].
  rewrite join_with_cons by discriminate.
  rewrite all_chars_append, Hr. cbn [all_chars andb]. rewrite IH.
  change "/"%char with slash. now rewrite Hf.
Qed.

Lemma safe_abs_path (rs : list string) :
  Forall (fun r => all_chars pattern_safe r = true) rs ->
  all_chars pattern_safe (abs_path rs) = true.
Proof.
  intros H. unfold abs_path. cbn [all_chars].
  rewrite all_chars_join; [reflexivity | reflexivity | exact H].
Qed.

Lemma abs_path_app (rs ns : list string) :
  ns <> [] ->
  abs_path (rs ++ ns) =
  (abs_path rs ++
   (match rs with
    | [] => join_with "/" ns
    | _ => String "/" (join_with "/" ns)
    end))%string.
Proof.
  intros Hn. destruct rs as [|r rest]; [reflexivity|].
  unfold abs_path. rewrite join_with_app by (assumption || discriminate).
  reflexivity.
Qed.

(** X20. On a project root made of entry names with safe characters the two
    mappings are inverse to each other: a path below the root goes to the
    same path below [.template], and back. *)
Theorem path_mappings_inverse_on_safe_root (rs ns : list string) :
  Forall (fun r => good_name r = true) rs ->
  Forall (fun r => all_chars pattern_safe r = true) rs ->
  Forall (fun n => good_name n = true) ns ->
  ns <> [] ->
  templateFile (abs_path (rs ++ ns)) (abs_path rs) =
    Ok (abs_path (rs ++ ".template" :: ns)) /\
  normalFile (abs_path (rs ++ ".template" :: ns))
             (join [abs_path rs; ".template"]) (abs_path rs) =
    Ok (abs_path (rs ++ ns)).
Proof.
  intros Hrs Hsafe Hns Hne.
  assert (Hjn : join_with "/" ns <> "") by now apply join_with_names_nonempty.
  assert (Hen : ends_with_slash (join_with "/" ns) = false)
    by now apply ends_with_slash_join_names.
  assert (Hdot : Forall (fun n => good_name n = true) [".template"])
    by (repeat constructor).
  assert (Hmid : Forall (fun n => good_name n = true) (".template" :: ns))
    by now constructor.
  (* the template cache directory *)
  assert (Hdir : join [abs_path rs; ".template"] = abs_path (rs ++ [".template"])).
  { rewrite (join_names _ _ rs [".template"]); try discriminate; auto.
    - now apply segments_abs_path.
    - exact (segments_join_names [".template"] Hdot). }
  split.
  - unfold templateFile. rewrite abs_path_app by exact Hne.
    rewrite strip_prefix_safe by now apply safe_abs_path. cbn [bind]. f_equal.
    assert (Hinner :
              join [".template";
                    match rs with
                    | [] => join_with "/" ns
                    | _ :: _ => String "/" (join_with "/" ns)
                    end] = join_with "/" (".template" :: ns)).
    { rewrite (join_names _ _ [".template"] ns); try discriminate; auto.
      - destruct rs; [exact Hjn | discriminate].
      - exact (segments_join_names [".template"] Hdot).
      - destruct rs; [| apply segments_slash]; now apply segments_join_names.
      - destruct rs; [exact Hen|].
        change (String "/" (join_with "/" ns)) with ("/" ++ join_with "/" ns)%string.
        now rewrite ends_with_slash_append. }
    rewrite Hinner.
    rewrite (join_names _ _ rs (".template" :: ns)); try discriminate; auto.
    + now apply join_with_names_nonempty.
    + now apply segments_abs_path.
    + now apply segments_join_names.
    + now apply ends_with_slash_join_names.
  - unfold normalFile. rewrite Hdir.
    replace (rs ++ ".template" :: ns) with ((rs ++ [".template"]) ++ ns)
      by now rewrite <- app_assoc.
    rewrite (abs_path_app (rs ++ [".template"]) ns Hne).
    rewrite strip_prefix_safe.
    + cbn [bind]. f_equal.
      replace (match rs ++ [".template"] with
               | [] => join_with "/" ns
               | _ :: _ => String "/" (join_with "/" ns)
               end) with (String "/" (join_with "/" ns))
        by now destruct rs.
      rewrite (join_names _ _ rs ns); try discriminate; auto.
      * now apply segments_abs_path.
      * now apply segments_slash, segments_join_names.
      * change (String "/" (join_with "/" ns)) with ("/" ++ join_with "/" ns)%string.
        now rewrite ends_with_slash_append.
    + apply safe_abs_path. apply Forall_app. split; [exact Hsafe|].
      repeat constructor.
Qed.

(** ** The project root as a prefix of characters *)

Lemma join_with_extend (r x : string) (ns : list string) :
  join_with "/" ((r ++ x)%string :: ns) = (r ++ join_with "/" (x :: ns))%string.
Proof.
  destruct ns as [|n rest]; [reflexivity|].
  rewrite !join_with_cons by discriminate. now rewrite append_assoc.
Qed.

Lemma abs_path_extend (rs : list string) (r x : string) (ns : list string) :
  abs_path (rs ++ (r ++ x)%string :: ns) =
  (abs_path (rs ++ [r]) ++ join_with "/" (x :: ns))%string.
Proof.
  unfold abs_path. cbn [String.append]. f_equal.
  destruct rs as [|r0 rest].
  - cbn [app]. rewrite join_with_extend. reflexivity.
  - rewrite !join_with_app by discriminate.
    rewrite join_with_extend. cbn [join_with].
    rewrite append_assoc. cbn [String.append]. reflexivity.
Qed.

(** X22. The project root is stripped as a prefix of characters, not of
    path segments: a file of a neighbouring directory whose name continues
    the project's name ([/home/app-old/x] beside the project [/home/app])
    is mapped into the project's own [.template], under the rest of that
    name. *)
Theorem templateFile_ignores_directory_boundary
        (rs : list string) (r x : string) (ns : list string) :
  Forall (fun n => good_name n = true) (rs ++ [r]) ->
  Forall (fun n => all_chars pattern_safe n = true) (rs ++ [r]) ->
  Forall (fun n => good_name n = true) (x :: ns) ->
  templateFile (abs_path (rs ++ (r ++ x)%string :: ns)) (abs_path (rs ++ [r])) =
  Ok (abs_path (rs ++ r :: ".template" :: x :: ns)).
Proof.
  intros Hrs Hsafe Hns. unfold templateFile.
  rewrite abs_path_extend, strip_prefix_safe by now apply safe_abs_path.
  cbn [bind]. f_equal.
  assert (Hdot : Forall (fun n => good_name n = true) [".template"])
    by (repeat constructor).
  rewrite (join_names ".template" _ [".template"] (x :: ns)); try discriminate.
  - cbn [starts_with_slash Ascii.eqb Bool.eqb app]. cbv iota.
    rewrite (join_names _ _ (rs ++ [r]) (".template" :: x :: ns)); try discriminate.
    + cbn [abs_path starts_with_slash]. change (Ascii.eqb "/" slash) with true.
      cbv iota. now rewrite <- app_assoc.
    + now apply segments_abs_path.
    + apply segments_join_names. now constructor.
    + apply ends_with_slash_join_names. now constructor.
  - apply join_with_names_nonempty; [exact Hns | discriminate].
  - exact (segments_join_names [".template"] Hdot).
  - now apply segments_join_names.
  - apply ends_with_slash_join_names. exact Hns.
Qed.

(** ** Further properties of the JSON merger *)

(** X1. [omit] on an object with unique keys returns a fresh plain object
    with unique keys in which every listed key is absent and every other
    key is bound as in the input; with no key listed nothing is removed. *)
Theorem omit_removes_listed_keys (keys : list string) (ps : props) :
  NoDup (map fst ps) ->
  exists po,
    omit keys (VObj CObject ps) = Ok (VObj CObject po) /\
    NoDup (map fst po) /\
    (forall k, includes keys k = true -> lookup k po = None) /\
    (forall k, includes keys k = false -> lookup k po = lookup k ps) /\
    (keys = [] -> forall k, lookup k po = lookup k ps).
Proof.
  intros Hd. destruct (omit_plain keys ps Hd) as (po & E & Hdo & Hl).
  exists po. repeat split; auto.
  - intros k Hk. now rewrite Hl, Hk.
  - intros k Hk. now rewrite Hl, Hk.
  - intros -> k. now rewrite Hl.
Qed.

(** X2. The keys a merge direction ignores keep the binding of the side
    that is written: under commit the template's, under pull the
    project's, absent keys staying absent. *)
Theorem merge_keeps_ignored_keys (keys : list string) (pP pT : props)
        (k : string) :
  includes keys k = true ->
  (NoDup (map fst pP) ->
   forall r, commit_merge keys (VObj CObject pP) (VObj CObject pT) = Ok r ->
             exists pr, r = VObj CObject pr /\ lookup k pr = lookup k pT) /\
  (NoDup (map fst pT) ->
   forall r, pull_merge keys (VObj CObject pP) (VObj CObject pT) = Ok r ->
             exists pr, r = VObj CObject pr /\ lookup k pr = lookup k pP).
Proof.
  intros Hk.
  assert (H : forall pa pb r,
             NoDup (map fst pa) ->
             (i <- omit keys (VObj CObject pa) ;; deepMerge (VObj CObject pb) i) = Ok r ->
             exists pr, r = VObj CObject pr /\ lookup k pr = lookup k pb).
  { intros pa pb r Hd E.
    destruct (omit_plain keys pa Hd) as (po & Eo & Hdo & Hl).
    rewrite Eo in E. cbn [bind] in E.
    destruct (deepMerge_plain _ _ _ E) as (ps2 & pr & _ & -> & _).
    exists pr. split; [reflexivity|].
    apply (deepMerge_plain_untouched _ _ _ _ E). now rewrite Hl, Hk. }
  split; intros Hd r E; eapply H; eauto.
Qed.

(** X3. When the source has the key [__proto__] only if the target has it
    too, the object [deepMerge] returns binds exactly the keys of its two
    arguments, and binds each once when the target does. *)
Theorem deepMerge_keys_union (pt ps : props) (r : value) :
  (In "__proto__" (map fst ps) -> In "__proto__" (map fst pt)) ->
  deepMerge (VObj CObject pt) (VObj CObject ps) = Ok r ->
  exists pr,
    r = VObj CObject pr /\
    (forall k, In k (map fst pr) <-> In k (map fst pt) \/ In k (map fst ps)) /\
    (NoDup (map fst pt) -> NoDup (map fst pr)).
Proof.
  intros Hp E.
  destruct (deepMerge_plain _ _ _ E) as (ps2 & pr & _ & -> & _ & _ & Hk & Hd).
  exists pr. split; [reflexivity|]. split; [|exact Hd].
  intros k. rewrite Hk. split.
  - intros [[H _]|H]; auto.
  - intros [H|H]; [now right|].
    destruct (String.eqb_spec k "__proto__") as [->|Hne].
    + right. now apply Hp.
    + left. split; [exact H | now apply settable_other].
Qed.

(** X4. On a source that holds no name of [Object.prototype] as a key,
    [deepMerge] does not return when the source holds an object or an
    array under a key that the target lacks or binds to [null]: the
    recursive call is handed [undefined] or [null]. *)
Theorem deepMerge_needs_target_entry (pt ps : props) (c : cls)
        (k : string) (v : value) :
  proto_free (VObj c ps) = true ->
  lookup k ps = Some v ->
  instanceof_Object v = true ->
  lookup k pt = None \/ lookup k pt = Some VNull ->
  forall r, deepMerge (VObj CObject pt) (VObj c ps) <> Ok r.
Proof.
  intros Hpf Hs Hv [Ht|Ht] r E.
  - now apply (deepMerge_structured_present _ _ _ _ _ _ E Hs Hv).
  - rewrite deepMerge_unfold in E.
    destruct (merge_entries (VObj CObject pt) ps) as [ps2|] eqn:Em;
      cbn [bind] in E; [|discriminate].
    destruct (merge_entries_lookup _ _ _ _ _ Em Hs) as (v' & He & _).
    unfold merge_entry in He. rewrite Hv in He.
    rewrite (get_plain _ _ _ Ht) in He. cbn [bind] in He.
    rewrite deepMerge_nullish_target in He by auto. discriminate.
Qed.

(** X5. Where the target binds a number or a boolean and the source an
    object holding only scalars, the merged object binds the source's
    object as it is: the scalar is replaced, nothing of it remains. *)
Theorem deepMerge_replaces_scalar_entry (pt ps pv : props) (k : string)
        (tv r : value) :
  NoDup (map fst ps) ->
  NoDup (map fst pv) ->
  lookup k pt = Some tv ->
  (exists n, tv = VNum n) \/ (exists b, tv = VBool b) ->
  lookup k ps = Some (VObj CObject pv) ->
  Forall (fun kv => instanceof_Object (snd kv) = false) pv ->
  deepMerge (VObj CObject pt) (VObj CObject ps) = Ok r ->
  get r k = Ok (VObj CObject pv).
Proof.
  intros Hds Hdv Ht Htv Hs Hsc E.
  destruct (deepMerge_plain _ _ _ E) as (ps2 & pr & Hm & -> & Hl & _ & _ & _).
  destruct (merge_entries_lookup _ _ _ _ _ Hm Hs) as (v' & He & Hk2).
  assert (Hv' : v' = VObj CObject pv).
  { unfold merge_entry in He. cbn [instanceof_Object] in He.
    rewrite (get_plain _ _ _ Ht) in He. cbn [bind] in He.
    rewrite deepMerge_unfold_any in He.
    rewrite merge_entries_scalars in He by exact Hsc. cbn [bind] in He.
    destruct (assign tv (VObj CObject pv)) as [w|]; cbn [bind] in He;
      [|discriminate].
    destruct Htv as [[n ->]|[b ->]]; cbn in He; congruence. }
  subst v'. apply get_plain.
  rewrite Hl by exact (settable_own _ _ _ Ht).
  rewrite lookup_rev, Hk2; [reflexivity|].
  now rewrite (merge_entries_keys _ _ _ Hm).
Qed.

(** X6. Merging a source that holds only scalars, and not the key
    [__proto__], a second time into what the first merge returned returns
    the same object. *)
Theorem deepMerge_flat_source_idempotent (pt ps : props) (r : value) :
  NoDup (map fst ps) ->
  Forall (fun kv => instanceof_Object (snd kv) = false) ps ->
  lookup "__proto__" ps = None ->
  deepMerge (VObj CObject pt) (VObj CObject ps) = Ok r ->
  deepMerge r (VObj CObject ps) = Ok r.
Proof.
  intros Hd Hs _ E.
  now destruct (deepMerge_scalars _ _ _ Hd Hs E) as (pr & _ & _ & _ & H).
Qed.

(** ** Further properties of the path mappings and of the loaders *)

Lemma atom_of_open_paren : atom_of_char open_paren = Ok AOpen.
Proof. reflexivity. Qed.

Lemma parse_pattern_unclosed (p : string) :
  forall depth,
    all_chars (fun c => pattern_safe c || Ascii.eqb c open_paren) p = true ->
    (0 < depth + count_char open_paren p)%nat ->
    parse_pattern depth p = Throw SyntaxError.
Proof.
  induction p as [|c rest IH]; intros depth Hall Hc.
  - cbn in *. destruct depth; [lia | reflexivity].
  - cbn [all_chars count_char] in *. apply andb_true_iff in Hall.
    destruct Hall as [Hh Hr]. cbn [parse_pattern].
    destruct (Ascii.eqb_spec c open_paren) as [->|Hne].
    + rewrite atom_of_open_paren. cbn [bind].
      rewrite (IH (S depth)) by (auto; lia). reflexivity.
    + rewrite orb_false_r in Hh. unfold pattern_safe in Hh.
      destruct (atom_of_char c) as [[c'| | | | |]|] eqn:Ea; try discriminate;
        cbn [bind]; rewrite (IH depth) by (auto; lia); reflexivity.
Qed.

(** X7. A location with an opening parenthesis and no closing one (its
    other characters matching themselves) is not a regular expression:
    [templateFile] throws a [SyntaxError] whatever the file. *)
Theorem templateFile_unclosed_group (file location : string) :
  all_chars (fun c => pattern_safe c || Ascii.eqb c open_paren) location = true ->
  (0 < count_char open_paren location)%nat ->
  templateFile file location = Throw SyntaxError.
Proof.
  intros Hall Hc. unfold templateFile, strip_prefix.
  now rewrite (parse_pattern_unclosed location 0 Hall Hc).
Qed.

Lemma readJson_returns `{Host} (filePath : string) (w : world) :
  exists v, readJson filePath w = (Ok v, w).
Proof.
  unfold readJson, try_catch, mbind.
  destruct (readFile filePath w) as [[c|e] w1] eqn:E;
    pose proof (pure_run _ _ _ _ (pure_readFile filePath) E) as ->.
  - destruct (parse c) as [v|]; eexists; reflexivity.
  - eexists; reflexivity.
Qed.

(** X8. [readJson] never throws and changes nothing: it returns what the
    file parses to, and the empty object when the file cannot be read or
    does not parse. *)
Theorem readJson_never_throws `{Host} (filePath : string) (w : world) :
  exists v,
    readJson filePath w = (Ok v, w) /\
    (forall c v', readFile filePath w = (Ok c, w) -> parse c = Some v' -> v = v') /\
    (forall c, readFile filePath w = (Ok c, w) -> parse c = None ->
               v = VObj CObject []) /\
    (forall e, readFile filePath w = (Throw e, w) -> v = VObj CObject []).
Proof.
  unfold readJson, try_catch, mbind.
  destruct (readFile filePath w) as [[c|e] w1] eqn:E.
  - pose proof (pure_run _ _ _ _ (pure_readFile filePath) E) as ->.
    destruct (parse c) as [v|] eqn:Ep.
    + exists v. repeat split; try congruence.
    + eexists. split; [reflexivity|]. repeat split; congruence.
  - pose proof (pure_run _ _ _ _ (pure_readFile filePath) E) as ->.
    eexists. split; [reflexivity|]. repeat split; congruence.
Qed.

Lemma split_on_chars (c : ascii) (s : string) :
  Forall (fun seg => all_chars (fun a => negb (Ascii.eqb a c)) seg = true)
         (split_on c s).
Proof.
  induction s as [|a rest IH]; cbn [split_on].
  - repeat constructor.
  - destruct (Ascii.eqb a c) eqn:Ea.
    + constructor; [reflexivity | exact IH].
    + destruct (split_on c rest) as [|seg segs]; [repeat constructor; cbn; now rewrite Ea|].
      inversion IH; subst. constructor; [|assumption].
      cbn. now rewrite Ea.
Qed.

(** X9. [readGitIgnore] never throws and changes nothing; the entries it
    returns are not empty and hold no line break, and there is none when
    the file cannot be read. *)
Theorem readGitIgnore_entries (filePath : string) (w : world) :
  exists entries,
    readGitIgnore filePath w = (Ok entries, w) /\
    Forall (fun l => l <> "" /\ all_chars not_newline l = true) entries /\
    (forall e, readFile filePath w = (Throw e, w) -> entries = []).
Proof.
  unfold readGitIgnore, try_catch, mbind.
  destruct (readFile filePath w) as [[c|e] w1] eqn:E;
    pose proof (pure_run _ _ _ _ (pure_readFile filePath) E) as ->.
  - eexists. split; [reflexivity|]. split; [|congruence].
    apply Forall_forall. intros l Hin. apply filter_In in Hin.
    destruct Hin as [Hin Hne]. split.
    + apply negb_true_iff, String.eqb_neq in Hne. exact Hne.
    + pose proof (split_on_chars newline c) as Hall.
      rewrite Forall_forall in Hall. exact (Hall _ Hin).
  - exists []. repeat split; auto.
Qed.

Lemma ignored_app (a b : list value) (name : string) :
  ignored (a ++ b) name = ignored a name || ignored b name.
Proof. unfold ignored. apply existsb_app. Qed.

Lemma ignored_In (l : list value) (name : string) :
  In (VStr name) l -> ignored l name = true.
Proof.
  intros Hin. unfold ignored. apply existsb_exists. exists (VStr name).
  split; [exact Hin | apply String.eqb_refl].
Qed.

Lemma map_outcome_In {A B} (f : A -> outcome B) (xs : list A) (ys : list B)
      (x : A) (y : B) :
  map_outcome f xs = Ok ys -> In x xs -> f x = Ok y -> In y ys.
Proof.
  revert ys. induction xs as [|x0 rest IH]; intros ys; cbn; [tauto|].
  destruct (f x0) as [y0|] eqn:E0; cbn; [|discriminate].
  destruct (map_outcome f rest) as [ys'|]; cbn; [|discriminate].
  intros [= <-] [->|Hin] Hx.
  - left. congruence.
  - right. eapply IH; eauto.
Qed.

(** X10. When [config] returns, nothing has changed, the source is truthy,
    and the ignore list names [.git], [.template], every entry of
    [.gitignore] and the [name] of every configured JSON file. *)
Theorem config_ignore_list `{Host} (location : string) (w w' : world) (c : Config) :
  config location w = (Ok c, w') ->
  w' = w /\
  falsy (source c) = false /\
  ignored (ignore c) ".git" = true /\
  ignored (ignore c) ".template" = true /\
  (forall entries l,
      readGitIgnore (join [location; ".gitignore"]) w = (Ok entries, w) ->
      In l entries -> ignored (ignore c) l = true) /\
  (forall jsonFiles jsonFile name,
      array_or_empty (json c) = Ok jsonFiles ->
      In jsonFile jsonFiles ->
      get jsonFile "name" = Ok (VStr name) ->
      ignored (ignore c) name = true).
Proof.
  intros E. pose proof (pure_run _ _ _ _ (pure_config location) E) as ->.
  split; [reflexivity|]. unfold config in E.
  run_bind E cfg w1 Ec. pose proof (pure_run _ _ _ _ (pure_readJson _) Ec) as ->.
  run_bind E gi w2 Eg. pose proof (pure_run _ _ _ _ (pure_readGitIgnore _) Eg) as ->.
  run_lift E src Es. destruct (falsy src) eqn:Ef; [discriminate E|].
  run_lift E cjson Ej. run_lift E es Ee. run_lift E names En.
  run_lift E ci Ei. run_lift E extra Ex.
  unfold ret in E. injection E as <-. cbn [source ignore json].
  split; [exact Ef|].
  split; [rewrite !ignored_app; cbn; now rewrite !orb_true_r|].
  split; [rewrite !ignored_app; cbn; now rewrite !orb_true_r|].
  split.
  - intros entries l Hr Hin. injection Hr as <-.
    rewrite ignored_app. apply orb_true_iff. left.
    apply ignored_In. now apply in_map.
  - intros jsonFiles jsonFile name Ha Hin Hn. rewrite Ee in Ha. injection Ha as <-.
    rewrite !ignored_app. apply orb_true_iff. right. apply orb_true_iff. left.
    apply ignored_In. eapply map_outcome_In; eauto.
Qed.

(** *** What [Template.rmdir] and [Template.clone] do to the world *)

Lemma emit_then {A} (e : event) (m : M A) (w : world) :
  mbind (emit e) (fun _ => m) w =
  m (mkWorld (cwd w) (root w) (effects w ++ [e])).
Proof. reflexivity. Qed.

Lemma alter_at_effects (p : string) (f : option node -> outcome (option node))
      (w w' : world) (r : outcome unit) :
  alter_at p f w = (r, w') -> effects w' = effects w.
Proof.
  unfold alter_at.
  destruct (alter_path _ f (Dir (root w))) as [[?|?]|?]; intros [= _ <-]; reflexivity.
Qed.

Lemma unlink_effect (p : string) (w w' : world) (r : outcome unit) :
  unlink p w = (r, w') -> effects w' = effects w ++ [EUnlink p].
Proof.
  unfold unlink. rewrite emit_then. intros E.
  now rewrite (alter_at_effects _ _ _ _ _ E).
Qed.

Lemma fs_rmdir_effect (p : string) (w w' : world) (r : outcome unit) :
  fs_rmdir p w = (r, w') -> effects w' = effects w ++ [ERmdir p].
Proof.
  unfold fs_rmdir. rewrite emit_then. intros E.
  now rewrite (alter_at_effects _ _ _ _ _ E).
Qed.

Lemma mkdir_effect (p : string) (w w' : world) (r : outcome unit) :
  mkdir p w = (r, w') -> effects w' = effects w ++ [EMkdir p].
Proof.
  unfold mkdir. rewrite emit_then. intros E.
  now rewrite (alter_at_effects _ _ _ _ _ E).
Qed.

Lemma alter_at_cwd (p : string) (f : option node -> outcome (option node))
      (w w' : world) (r : outcome unit) :
  alter_at p f w = (r, w') -> cwd w' = cwd w.
Proof.
  unfold alter_at.
  destruct (alter_path _ f (Dir (root w))) as [[?|?]|?]; intros [= _ <-]; reflexivity.
Qed.

Lemma unlink_cwd (p : string) (w w' : world) (r : outcome unit) :
  unlink p w = (r, w') -> cwd w' = cwd w.
Proof.
  unfold unlink. rewrite emit_then. intros E.
  now rewrite (alter_at_cwd _ _ _ _ _ E).
Qed.

Lemma fs_rmdir_cwd (p : string) (w w' : world) (r : outcome unit) :
  fs_rmdir p w = (r, w') -> cwd w' = cwd w.
Proof.
  unfold fs_rmdir. rewrite emit_then. intros E.
  now rewrite (alter_at_cwd _ _ _ _ _ E).
Qed.

Lemma rmdir_node_Dir (full : string) (es : tree) :
  rmdir_node full (Dir es) = mbind (rmdir_entries full es) (fun _ => fs_rmdir full).
Proof.
  cbn [rmdir_node]. f_equal.
  induction es as [|[name c] rest IH]; [reflexivity|].
  cbn [rmdir_entries]. now rewrite <- IH.
Qed.

Lemma find_entry_In (s : string) (c : node) (es : tree) :
  find_entry s es = Some c -> In (s, c) es.
Proof.
  induction es as [|[n c0] rest IH]; cbn; [discriminate|].
  destruct (String.eqb_spec s n) as [->|]; [intros [= ->]; now left|].
  intros H. right. auto.
Qed.

Lemma wf_child (s : string) (c : node) (es : tree) :
  wf_node (Dir es) -> find_entry s es = Some c -> good_name s = true /\ wf_node c.
Proof.
  intros Hwf Hf. inversion Hwf as [|? _ Hall]; subst.
  apply find_entry_In in Hf. rewrite Forall_forall in Hall.
  exact (Hall _ Hf).
Qed.

Lemma wf_lookup (ps : list string) :
  forall n m, wf_node n -> lookup_path ps n = Some m -> wf_node m.
Proof.
  induction ps as [|s rest IH]; intros n m Hwf Hl.
  - now injection Hl as <-.
  - destruct n as [c|es]; [discriminate|]. cbn [lookup_path] in Hl.
    destruct (find_entry s es) as [ch|] eqn:Ef; [|discriminate].
    apply (IH ch m); [|exact Hl]. exact (proj2 (wf_child s ch es Hwf Ef)).
Qed.

Lemma removals_below_step (full name : string) (evs : list event) :
  good_name name = true ->
  removals_below (join [full; name]) evs -> removals_below full evs.
Proof.
  intros Hg. apply Forall_impl. intros e (names & Hn & He).
  exists (name :: names). split; [now constructor | exact He].
Qed.

Lemma removal_here (full : string) (e : event) :
  removal_of full e -> removals_below full [e].
Proof.
  intros He. constructor; [|constructor]. exists []. split; [constructor | exact He].
Qed.

Lemma rmdir_node_effects (n : node) :
  forall full w w' r,
    wf_node n ->
    rmdir_node full n w = (r, w') ->
    cwd w' = cwd w /\
    exists evs, effects w' = effects w ++ evs /\ removals_below full evs.
Proof.
  induction n as [c|es IH] using node_induction; intros full w w' r Hwf E.
  - cbn [rmdir_node] in E. split; [exact (unlink_cwd _ _ _ _ E)|].
    apply unlink_effect in E.
    exists [EUnlink full]. split; [exact E|]. apply removal_here. now left.
  - rewrite rmdir_node_Dir in E.
    inversion Hwf as [|? _ Hall]; subst.
    assert (Hent : forall w0 w1 r0,
               rmdir_entries full es w0 = (r0, w1) ->
               cwd w1 = cwd w0 /\
               exists evs, effects w1 = effects w0 ++ evs /\ removals_below full evs).
    { clear E Hwf. induction es as [|[name c] rest IHrest]; intros w0 w1 r0 E0.
      - injection E0 as _ <-. split; [reflexivity|].
        exists []. split; [now rewrite app_nil_r | constructor].
      - inversion IH as [|? ? IHc IHr]; subst. cbn [snd] in IHc.
        inversion Hall as [|? ? [Hg Hwc] Hrest]; subst. cbn [fst snd] in Hg, Hwc.
        cbn [rmdir_entries] in E0. unfold mbind at 1 in E0.
        destruct (rmdir_node (join [full; name]) c w0) as [[u|e] wa] eqn:Ea.
        + destruct (IHc _ _ _ _ Hwc Ea) as (C1 & ev1 & H1 & R1).
          destruct (IHrest IHr Hrest _ _ _ E0) as (C2 & ev2 & H2 & R2).
          split; [congruence|].
          exists (ev1 ++ ev2). split; [now rewrite H2, H1, app_assoc|].
          apply Forall_app. split; [now apply (removals_below_step full name) | exact R2].
        + injection E0 as _ <-. destruct (IHc _ _ _ _ Hwc Ea) as (C1 & ev1 & H1 & R1).
          split; [exact C1|].
          exists ev1. split; [exact H1 | now apply (removals_below_step full name)]. }
    unfold mbind in E.
    destruct (rmdir_entries full es w) as [[u|e] wa] eqn:Ea.
    + destruct (Hent _ _ _ Ea) as (C1 & ev1 & H1 & R1).
      split; [rewrite (fs_rmdir_cwd _ _ _ _ E); exact C1|].
      apply fs_rmdir_effect in E.
      exists (ev1 ++ [ERmdir full]). split; [now rewrite E, H1, app_assoc|].
      apply Forall_app. split; [exact R1|]. apply removal_here. now right.
    + injection E as _ <-. now apply Hent in Ea.
Qed.

Lemma readdir_wf (location : string) (w : world) (es : tree) :
  wf_node (Dir (root w)) -> readdir location w = (Ok es, w) -> wf_node (Dir es).
Proof.
  intros Hwf Er. unfold readdir, mbind, node_at in Er. cbv beta in Er.
  destruct (lookup_path (resolve_segments w location) (Dir (root w)))
    as [[c|es0]|] eqn:El; try discriminate.
  injection Er as <-. exact (wf_lookup _ _ _ Hwf El).
Qed.

Lemma rmdir_run_effects (location : string) (w w' : world) (r : outcome unit) :
  wf_node (Dir (root w)) ->
  rmdir location w = (r, w') ->
  cwd w' = cwd w /\
  exists evs, effects w' = effects w ++ evs /\ removals_below location evs.
Proof.
  intros Hwf. unfold rmdir, mbind. intros E.
  destruct (readdir location w) as [[es|e] w1] eqn:Er;
    pose proof (pure_run _ _ _ _ (pure_readdir location) Er) as ->.
  - apply (rmdir_node_effects (Dir es)) in E; [exact E|].
    exact (readdir_wf _ _ _ Hwf Er).
  - injection E as _ <-. split; [reflexivity|].
    exists []. split; [now rewrite app_nil_r | constructor].
Qed.

(** X11. On a tree whose directories hold entry names, [Template.rmdir]
    issues nothing but [unlink] and [rmdir] calls, whatever its outcome,
    each on a path reached from the location it was given by descending
    through entry names (the location itself included): nothing outside
    the location is touched. *)
Theorem rmdir_only_removes_below (location : string) (w w' : world)
        (r : outcome unit) :
  wf_node (Dir (root w)) ->
  rmdir location w = (r, w') ->
  exists evs, effects w' = effects w ++ evs /\ removals_below location evs.
Proof.
  intros Hwf. unfold rmdir, mbind. intros E.
  destruct (readdir location w) as [[es|e] w1] eqn:Er;
    pose proof (pure_run _ _ _ _ (pure_readdir location) Er) as ->.
  - apply (rmdir_node_effects (Dir es)) in E; [exact (proj2 E)|].
    exact (readdir_wf _ _ _ Hwf Er).
  - injection E as _ <-. exists []. split; [now rewrite app_nil_r | constructor].
Qed.

(** ** Further properties of [mkdirp] *)

Lemma normalize_step_good (stack : list string) (seg : string) :
  all_chars not_slash seg = true ->
  Forall (fun s => good_name s = true) stack ->
  Forall (fun s => good_name s = true) (normalize_step false stack seg).
Proof.
  intros Hc Hs. unfold normalize_step.
  destruct (String.eqb seg "") eqn:E1; [exact Hs|].
  destruct (String.eqb seg ".") eqn:E2; [exact Hs|]. cbn [orb].
  destruct (String.eqb seg "..") eqn:E3.
  - destruct stack as [|top below]; [constructor|].
    inversion Hs; subst. destruct (String.eqb top ".."); assumption.
  - constructor; [|exact Hs]. unfold good_name. now rewrite E1, E2, E3, Hc.
Qed.

Lemma normalize_segments_good (p : string) :
  Forall (fun s => good_name s = true) (normalize_segments false p).
Proof.
  unfold normalize_segments. apply Forall_rev.
  assert (H : forall segs stack,
             Forall (fun seg => all_chars not_slash seg = true) segs ->
             Forall (fun s => good_name s = true) stack ->
             Forall (fun s => good_name s = true)
                    (fold_left (normalize_step false) segs stack)).
  { induction segs as [|seg rest IH]; intros stack Hsegs Hstack; [exact Hstack|].
    inversion Hsegs; subst. cbn [fold_left]. apply IH; [assumption|].
    now apply normalize_step_good. }
  apply H; [apply split_on_chars | constructor].
Qed.

Lemma normalize_segments_abs_path (allow : bool) (rs : list string) :
  Forall (fun r => good_name r = true) rs ->
  normalize_segments allow (abs_path rs) = rs.
Proof.
  intros Hrs. destruct (segments_abs_path rs Hrs) as (H1 & H2 & _).
  unfold normalize_segments.
  now rewrite (normalize_fold_names _ _ _ H1), H2, app_nil_r, rev_involutive.
Qed.

Lemma resolve_segments_abs_path (w : world) (rs : list string) :
  Forall (fun r => good_name r = true) rs ->
  resolve_segments w (abs_path rs) = rs.
Proof.
  intros Hrs. unfold resolve_segments. cbn [abs_path starts_with_slash].
  change (Ascii.eqb "/"%char slash) with true. cbv iota.
  now apply (normalize_segments_abs_path false).
Qed.

Lemma resolve_segments_good (w : world) (p : string) :
  Forall (fun s => good_name s = true) (resolve_segments w p).
Proof.
  unfold resolve_segments.
  destruct (starts_with_slash p); apply normalize_segments_good.
Qed.

Lemma join_root_names (names : list string) :
  Forall (fun n => good_name n = true) names ->
  join ("/" :: "" :: names) = abs_path names.
Proof.
  intros Hn. unfold join. cbn [filter String.eqb Ascii.eqb negb].
  change (negb (String.eqb "/" "")) with true. cbv iota.
  change (negb (String.eqb "" "")) with false. cbv iota.
  rewrite (filter_names names Hn).
  destruct names as [|n rest]; [reflexivity|].
  rewrite join_with_cons by discriminate.
  rewrite (normalize_names _ (n :: rest)).
  - reflexivity.
  - change ("/" ++ String "/" (join_with "/" (n :: rest)))%string
      with (String "/" (String "/" (join_with "/" (n :: rest)))).
    now apply segments_slash, segments_slash, segments_join_names.
  - discriminate.
  - change ("/" ++ String "/" (join_with "/" (n :: rest)))%string
      with ("/" ++ ("/" ++ join_with "/" (n :: rest)))%string.
    assert (Hne : join_with "/" (n :: rest) <> "")
      by (apply join_with_names_nonempty; [assumption | discriminate]).
    rewrite ends_with_slash_append.
    + rewrite ends_with_slash_append by exact Hne.
      now apply ends_with_slash_join_names.
    + destruct (join_with "/" (n :: rest)); discriminate.
Qed.

Lemma Forall_prefix {A} (P : A -> Prop) (n : nat) (l : list A) :
  Forall P l -> Forall P (firstn n l).
Proof.
  intros H. revert n. induction H as [|x rest Hx _ IH]; intros [|n]; cbn;
    constructor; auto.
Qed.

(** The paths [mkdirp] visits are the prefixes of the resolved location. *)
Lemma mkdirp_segment (rs : list string) (index : nat) :
  Forall (fun r => good_name r = true) rs ->
  join ("/" :: firstn (S index) (split_on slash (abs_path rs))) =
  abs_path (firstn index rs).
Proof.
  intros Hrs. unfold abs_path at 1.
  change (String "/" (join_with "/" rs)) with ("" ++ String slash (join_with "/" rs))%string.
  rewrite split_on_append. cbn [split_on app].
  destruct rs as [|r rest].
  - cbn [join_with split_on]. destruct index as [|[|i]]; reflexivity.
  - rewrite split_join_names by (assumption || discriminate).
    cbn [firstn]. apply join_root_names. now apply Forall_prefix.
Qed.

Lemma lookup_path_prefix (rs : list string) :
  forall n m index,
    lookup_path rs n = Some m ->
    exists m', lookup_path (firstn index rs) n = Some m'.
Proof.
  induction rs as [|s rest IH]; intros n m index H.
  - rewrite firstn_nil. eauto.
  - destruct index as [|i]; [cbn; eauto|]. cbn [firstn lookup_path] in *.
    destruct n as [c|es]; [discriminate|].
    destruct (find_entry s es) as [ch|]; [|discriminate]. eapply IH; eauto.
Qed.

Lemma stat_abs_path (w : world) (names : list string) (m : node) :
  Forall (fun r => good_name r = true) names ->
  lookup_path names (Dir (root w)) = Some m ->
  stat (abs_path names) w = (Ok tt, w).
Proof.
  intros Hn Hl. unfold stat, mbind, node_at.
  now rewrite (resolve_segments_abs_path w names Hn), Hl.
Qed.

Lemma for_each_all_ok {A} (f : A -> M unit) (xs : list A) (w : world) :
  (forall x, In x xs -> f x w = (Ok tt, w)) ->
  exists us, for_each f xs w = (Ok us, w).
Proof.
  induction xs as [|x rest IH]; intros Hall; cbn [for_each].
  - now exists [].
  - unfold mbind at 1. rewrite (Hall x) by now left.
    destruct IH as (us & Hus); [intros; apply Hall; now right|].
    unfold mbind at 1. rewrite Hus. now exists (tt :: us).
Qed.

(** X13. [mkdirp] on a path that exists (as a directory or as a file)
    succeeds and changes nothing: no directory is created and no call is
    issued. *)
Theorem mkdirp_existing_is_noop (location : string) (w : world) :
  stat location w = (Ok tt, w) ->
  mkdirp location w = (Ok tt, w).
Proof.
  intros Hstat.
  set (rs := resolve_segments w location).
  assert (Hrs : Forall (fun r => good_name r = true) rs)
    by apply resolve_segments_good.
  assert (Hex : exists m, lookup_path rs (Dir (root w)) = Some m).
  { unfold stat, mbind, node_at in Hstat. fold rs in Hstat.
    destruct (lookup_path rs (Dir (root w))) as [m|]; [eauto | discriminate]. }
  destruct Hex as (m & Hm).
  unfold mkdirp. unfold mbind at 1. unfold resolve at 1. fold rs.
  change (String "/" (join_with "/" rs)) with (abs_path rs).
  unfold mbind at 1.
  match goal with
  | |- (let (_, _) := for_each ?f ?xs w in _) = _ =>
      destruct (for_each_all_ok f xs w) as (us & ->); [|reflexivity]
  end.
  intros x Hin. apply filter_In in Hin. destruct Hin as [Hin _].
  apply in_map_iff in Hin. destruct Hin as (index & <- & _).
  rewrite (mkdirp_segment rs index Hrs).
  destruct (lookup_path_prefix rs _ _ index Hm) as (m' & Hm').
  unfold try_catch.
  rewrite (stat_abs_path w (firstn index rs) m'); [reflexivity | | exact Hm'].
  now apply Forall_prefix.
Qed.

Lemma find_set_entry (s s' : string) (c : node) (es : tree) :
  find_entry s' (set_entry s c es) =
  if String.eqb s' s then Some c else find_entry s' es.
Proof.
  induction es as [|[n c0] rest IH]; cbn.
  - reflexivity.
  - destruct (String.eqb_spec s n) as [->|Hne]; cbn.
    + now destruct (String.eqb s' n).
    + rewrite IH. destruct (String.eqb_spec s' n) as [->|Hne'];
        [|reflexivity].
      apply String.eqb_neq in Hne. now rewrite String.eqb_sym, Hne.
Qed.

Lemma alter_path_filled (segs : list string) (f : option node -> outcome (option node))
      (d : node) :
  filler f d ->
  forall n n',
    alter_path segs f n = Ok n' ->
    lookup_path segs n' = Some d /\
    (forall q c, lookup_path q n = Some (File c) -> lookup_path q n' = Some (File c)).
Proof.
  intros Hf. induction segs as [|s rest IH]; intros n n' E.
  - destruct n; discriminate.
  - destruct n as [c0|es]; [discriminate|]. cbn [alter_path] in E.
    destruct rest as [|s2 rest'].
    + destruct (f (find_entry s es)) as [r|] eqn:Ef; cbn [bind] in E; [|discriminate].
      destruct (Hf _ _ Ef) as (Hnone & ->). injection E as <-. split.
      * cbn [lookup_path]. now rewrite find_set_entry, String.eqb_refl.
      * intros [|s' q'] c; [discriminate|]. cbn [lookup_path].
        rewrite find_set_entry. destruct (String.eqb_spec s' s) as [->|]; [|auto].
        now rewrite Hnone.
    + destruct (find_entry s es) as [ch|] eqn:Efind; [|discriminate].
      destruct (alter_path (s2 :: rest') f ch) as [ch'|] eqn:Ea; cbn [bind] in E;
        [|discriminate].
      injection E as <-. destruct (IH _ _ Ea) as (Hl & Hk). split.
      * cbn [lookup_path] in *. now rewrite find_set_entry, String.eqb_refl.
      * intros [|s' q'] c; [discriminate|]. cbn [lookup_path].
        rewrite find_set_entry. destruct (String.eqb_spec s' s) as [->|]; [|auto].
        rewrite Efind. apply Hk.
Qed.

Lemma grows_refl (w : world) : grows_by_mkdirs w w.
Proof.
  split; [reflexivity|]. split; [|auto].
  exists []. split; [now rewrite app_nil_r | constructor].
Qed.

Lemma grows_trans (w1 w2 w3 : world) :
  grows_by_mkdirs w1 w2 -> grows_by_mkdirs w2 w3 -> grows_by_mkdirs w1 w3.
Proof.
  intros (C1 & (m1 & E1 & F1) & K1) (C2 & (m2 & E2 & F2) & K2).
  split; [congruence|]. split; [|auto].
  exists (m1 ++ m2). split; [now rewrite E2, E1, app_assoc | now apply Forall_app].
Qed.

Lemma resolve_segments_cwd (w w' : world) (p : string) :
  cwd w' = cwd w -> resolve_segments w' p = resolve_segments w p.
Proof. unfold resolve_segments. now intros ->. Qed.

Lemma mkdirp_step_props (x : string) (w w' : world) (r : outcome unit) :
  mkdirp_step x w = (r, w') ->
  grows_by_mkdirs w w' /\ (r = Ok tt -> stat x w' = (Ok tt, w')).
Proof.
  unfold mkdirp_step, try_catch. intros E.
  destruct (stat x w) as [[[]|e] w1] eqn:Es;
    pose proof (pure_run _ _ _ _ (pure_stat x) Es) as ->.
  - injection E as <- <-. split; [apply grows_refl | auto].
  - unfold mkdir in E. rewrite emit_then in E. unfold alter_at in E.
    cbn [cwd root effects] in E.
    set (w0 := mkWorld (cwd w) (root w) (effects w ++ [EMkdir x])) in *.
    change (resolve_segments w0 x) with (resolve_segments w x) in E.
    set (f := fun slot : option node =>
                match slot with
                | Some _ => Throw (FsError "EEXIST")
                | None => Ok (Some (Dir []))
                end) in *.
    assert (Hf : filler f (Dir [])).
    { intros [n|] r0; cbn; [discriminate | now intros [= <-]]. }
    destruct (alter_path (resolve_segments w x) f (Dir (root w))) as [[c|es]|e0] eqn:Ea.
    + injection E as <- <-. split; [|discriminate].
      split; [reflexivity|]. split; [|auto].
      exists [EMkdir x]. split; [reflexivity | repeat constructor].
    + injection E as <- <-.
      destruct (alter_path_filled _ f _ Hf _ _ Ea) as (Hl & Hk).
      split.
      * split; [reflexivity|]. split; [|exact Hk].
        exists [EMkdir x]. split; [reflexivity | repeat constructor].
      * intros _. unfold stat, mbind, node_at. cbn [cwd root].
        change (resolve_segments (mkWorld (cwd w) es (effects w ++ [EMkdir x])) x)
          with (resolve_segments w x).
        now rewrite Hl.
    + injection E as <- <-. split; [|discriminate].
      split; [reflexivity|]. split; [|auto].
      exists [EMkdir x]. split; [reflexivity | repeat constructor].
Qed.

Lemma for_each_mkdirp_steps (xs : list string) :
  forall w w' r,
    for_each mkdirp_step xs w = (r, w') ->
    grows_by_mkdirs w w' /\
    (forall us, r = Ok us -> xs <> [] -> stat (last xs "") w' = (Ok tt, w')).
Proof.
  induction xs as [|x rest IH]; intros w w' r E; cbn [for_each] in E.
  - injection E as <- <-. split; [apply grows_refl | congruence].
  - unfold mbind at 1 in E.
    destruct (mkdirp_step x w) as [[[]|e] w1] eqn:Ex.
    + destruct (mkdirp_step_props _ _ _ _ Ex) as (G1 & S1).
      unfold mbind at 1 in E.
      destruct (for_each mkdirp_step rest w1) as [[us|e] w2] eqn:Er.
      * injection E as <- <-. destruct (IH _ _ _ Er) as (G2 & S2).
        split; [eapply grows_trans; eauto|]. intros us0 _ _.
        destruct rest as [|y rest'].
        -- cbn in Er. injection Er as _ <-. cbn [last]. now apply S1.
        -- change (last (x :: y :: rest') "") with (last (y :: rest') "").
           eapply S2; [reflexivity | discriminate].
      * injection E as <- <-. destruct (IH _ _ _ Er) as (G2 & _).
        split; [eapply grows_trans; eauto | discriminate].
    + injection E as <- <-. destruct (mkdirp_step_props _ _ _ _ Ex) as (G1 & _).
      split; [exact G1 | discriminate].
Qed.

Lemma filter_none {A} (p : A -> bool) (l : list A) :
  (forall x, In x l -> p x = false) -> filter p l = [].
Proof.
  induction l as [|x rest IH]; intros H; cbn; [reflexivity|].
  rewrite (H x) by now left. apply IH. intros y Hy. apply H. now right.
Qed.

Lemma abs_path_not_root (rs : list string) :
  Forall (fun r => good_name r = true) rs -> rs <> [] ->
  String.eqb (abs_path rs) "/" = false.
Proof.
  intros Hrs Hne. apply String.eqb_neq. unfold abs_path. intros [= E].
  now apply (join_with_names_nonempty rs Hrs Hne).
Qed.

(** The list [mkdirp] works through, as it is written in the source. *)
Lemma mkdirp_unfold (location : string) (w : world) :
  mkdirp location w =
  mbind (for_each mkdirp_step
           (filter (fun i => negb (String.eqb i "/"))
              (map (fun index =>
                      join ("/" :: firstn (S index)
                                      (split_on slash (abs_path (resolve_segments w location)))))
                   (seq 0 (List.length
                             (split_on slash (abs_path (resolve_segments w location))))))))
        (fun _ => ret tt) w.
Proof. reflexivity. Qed.

Lemma mkdirp_effects (location : string) (w w' : world) :
  mkdirp location w = (Ok tt, w') ->
  exists mk, effects w' = effects w ++ mk /\
             Forall (fun e => is_mkdir e = true) mk.
Proof.
  rewrite mkdirp_unfold. set (xs := filter _ _). unfold mbind. intros E.
  destruct (for_each mkdirp_step xs w) as [[us|e] w1] eqn:Ef; [|discriminate].
  injection E as <-.
  now destruct (for_each_mkdirp_steps xs _ _ _ Ef) as ((_ & Hmk & _) & _).
Qed.

(** X14. When [mkdirp] succeeds, the absolute path that [path.resolve]
    makes of the location (its segments are entry names: no [.], no [..])
    exists afterwards; on the way [mkdirp] has issued [mkdir] calls only,
    and every file that could be read before reads the same afterwards. *)
Theorem mkdirp_creates_path (location : string) (w w' : world) :
  mkdirp location w = (Ok tt, w') ->
  (exists rs,
      resolve location w = (Ok (abs_path rs), w) /\
      Forall (fun r => good_name r = true) rs /\
      stat (abs_path rs) w' = (Ok tt, w')) /\
  (exists mk, effects w' = effects w ++ mk /\
              Forall (fun e => is_mkdir e = true) mk) /\
  (forall p c, readFile p w = (Ok c, w) -> readFile p w' = (Ok c, w')).
Proof.
  rewrite mkdirp_unfold.
  assert (Hrs : Forall (fun r => good_name r = true) (resolve_segments w location))
    by apply resolve_segments_good.
  remember (resolve_segments w location) as rs eqn:Hrsdef.
  set (xs := filter _ _). unfold mbind. intros E.
  destruct (for_each mkdirp_step xs w) as [[us|e] w1] eqn:Ef; [|discriminate].
  injection E as <-.
  destruct (for_each_mkdirp_steps xs _ _ _ Ef) as ((Hcwd & Hmk & Hkeep) & Hlast).
  assert (Hstat : exists m, lookup_path rs (Dir (root w1)) = Some m).
  { assert (Hcases : rs = [] \/ rs <> [])
      by (destruct rs; [now left | right; discriminate]).
    destruct Hcases as [Hnil|Hrne].
    - rewrite Hnil. cbn. eauto.
    - assert (Hxs : xs <> [] /\ last xs "" = abs_path rs).
      { unfold xs.
        assert (Hsplit : split_on slash (abs_path rs) = "" :: rs).
        { unfold abs_path.
          change (String "/" (join_with "/" rs))
            with ("" ++ String slash (join_with "/" rs))%string.
          rewrite split_on_append. cbn [split_on app].
          now rewrite split_join_names by assumption. }
        rewrite Hsplit. cbn [List.length]. rewrite seq_S, map_app, filter_app.
        cbn [map filter plus]. rewrite <- Hsplit.
        rewrite (mkdirp_segment rs (List.length rs) Hrs), firstn_all.
        rewrite (abs_path_not_root rs Hrs Hrne). cbn [negb].
        split; [|apply last_last].
        intros Habs. apply app_eq_nil in Habs. destruct Habs; discriminate. }
      destruct Hxs as (Hne & Hl).
      specialize (Hlast us eq_refl Hne). rewrite Hl in Hlast.
      unfold stat, mbind, node_at in Hlast.
      rewrite (resolve_segments_abs_path w1 rs Hrs) in Hlast.
      destruct (lookup_path rs (Dir (root w1))) as [m|]; [eauto | discriminate]. }
  destruct Hstat as (m & Hm). split; [|split; [exact Hmk|]].
  - exists rs. split; [now rewrite Hrsdef|]. split; [exact Hrs|].
    exact (stat_abs_path w1 rs m Hrs Hm).
  - intros p c Hr. unfold readFile, mbind, node_at in *.
    rewrite (resolve_segments_cwd w w1 p Hcwd).
    destruct (lookup_path (resolve_segments w p) (Dir (root w))) as [[c0|es]|] eqn:El;
      try discriminate.
    injection Hr as <-. now rewrite (Hkeep _ _ El).
Qed.

(** ** Further properties of [Template.rmdir] *)

Lemma set_entry_twice (s : string) (x y : node) (es : tree) :
  set_entry s x (set_entry s y es) = set_entry s x es.
Proof.
  induction es as [|[n c] rest IH]; cbn.
  - now rewrite String.eqb_refl.
  - destruct (String.eqb s n) eqn:E; cbn; rewrite E; [reflexivity|].
    now rewrite IH.
Qed.

Lemma find_set_same (s : string) (c : node) (es : tree) :
  find_entry s (set_entry s c es) = Some c.
Proof.
  induction es as [|[n c0] rest IH]; cbn.
  - now rewrite String.eqb_refl.
  - destruct (String.eqb s n) eqn:E; cbn; rewrite E; auto.
Qed.

Lemma remove_set_entry (s : string) (d : node) (es : tree) :
  find_entry s es <> None ->
  remove_entry s (set_entry s d es) = remove_entry s es.
Proof.
  induction es as [|[n c] rest IH]; cbn; [congruence|].
  destruct (String.eqb s n) eqn:E; cbn; rewrite E; [reflexivity|].
  intros H. now rewrite IH.
Qed.

Lemma find_remove_entry (s : string) (es : tree) :
  NoDup (map fst es) -> find_entry s (remove_entry s es) = None.
Proof.
  induction es as [|[n c] rest IH]; cbn; [reflexivity|].
  intros Hd. inversion Hd as [|? ? Hn Hrest]; subst.
  destruct (String.eqb_spec s n) as [->|Hne].
  - destruct (find_entry n rest) as [c0|] eqn:E; [|reflexivity].
    exfalso. apply Hn. apply find_entry_In in E.
    now apply (in_map fst) in E.
  - cbn. apply String.eqb_neq in Hne. rewrite Hne. auto.
Qed.

Lemma alter_path_single (s : string) (f : option node -> outcome (option node))
      (es : tree) :
  alter_path [s] f (Dir es) =
  (r <- f (find_entry s es) ;;
   Ok (Dir (match r with
            | Some c => set_entry s c es
            | None => remove_entry s es
            end))).
Proof. reflexivity. Qed.

Lemma alter_path_deeper (s s2 : string) (rest : list string)
      (f : option node -> outcome (option node)) (es : tree) :
  alter_path (s :: s2 :: rest) f (Dir es) =
  match find_entry s es with
  | Some c => c' <- alter_path (s2 :: rest) f c ;; Ok (Dir (set_entry s c' es))
  | None => Throw (FsError "ENOENT")
  end.
Proof. reflexivity. Qed.

Lemma alter_path_dir (ps : list string) (f : option node -> outcome (option node))
      (es : tree) (n' : node) :
  alter_path ps f (Dir es) = Ok n' -> exists es', n' = Dir es'.
Proof.
  destruct ps as [|s [|s2 rest]]; [discriminate| |].
  - rewrite alter_path_single.
    destruct (f (find_entry s es)); cbn [bind]; [|discriminate].
    intros [= <-]. eauto.
  - rewrite alter_path_deeper. destruct (find_entry s es); [|discriminate].
    destruct (alter_path (s2 :: rest) f n); cbn [bind]; [|discriminate].
    intros [= <-]. eauto.
Qed.

(** Where the path leads to a node, only what [f] answers there matters. *)
Lemma alter_path_known (ps : list string) (f : option node -> outcome (option node))
      (r : option node) :
  forall n m,
    ps <> [] -> lookup_path ps n = Some m -> f (Some m) = Ok r ->
    alter_path ps f n = alter_path ps (put_slot r) n.
Proof.
  induction ps as [|s rest IH]; intros n m Hne Hl Hf; [congruence|].
  destruct n as [c|es]; [reflexivity|]. cbn [lookup_path] in Hl.
  destruct (find_entry s es) as [ch|] eqn:Ef; [|discriminate].
  destruct rest as [|s2 rest'].
  - cbn [lookup_path] in Hl. injection Hl as ->.
    rewrite !alter_path_single, Ef, Hf. reflexivity.
  - rewrite !alter_path_deeper, Ef.
    now rewrite (IH ch m) by (discriminate || assumption).
Qed.

(** Removing the entry [name] of the directory at [ps]. *)
Lemma alter_path_child_removed (ps : list string) (name : string) :
  forall n n' es,
    lookup_path ps n = Some (Dir es) ->
    alter_path (ps ++ [name]) (put_slot None) n = Ok n' ->
    lookup_path ps n' = Some (Dir (remove_entry name es)).
Proof.
  induction ps as [|s rest IH]; intros n n' es Hl E.
  - cbn [lookup_path] in Hl. injection Hl as ->. cbn [app] in E.
    rewrite alter_path_single in E. cbn [put_slot bind] in E.
    injection E as <-. reflexivity.
  - destruct n as [c|es0]; [discriminate|]. cbn [lookup_path] in Hl.
    destruct (find_entry s es0) as [ch|] eqn:Ef; [|discriminate].
    change ((s :: rest) ++ [name]) with (s :: (rest ++ [name])) in E.
    destruct (rest ++ [name]) as [|s2 q] eqn:Eq;
      [destruct rest; discriminate|].
    rewrite alter_path_deeper, Ef in E.
    destruct (alter_path (s2 :: q) (put_slot None) ch) as [ch'|] eqn:Ea;
      cbn [bind] in E; [|discriminate].
    injection E as <-. cbn [lookup_path]. rewrite find_set_same.
    eapply IH; eauto.
Qed.

(** Rewriting the slot at [ps] makes an earlier change below [ps]
    irrelevant. *)
Lemma alter_path_absorbs (ps : list string) (r : option node) :
  forall q f n n1,
    ps <> [] -> q <> [] ->
    alter_path (ps ++ q) f n = Ok n1 ->
    alter_path ps (put_slot r) n1 = alter_path ps (put_slot r) n.
Proof.
  induction ps as [|s rest IH]; intros q f n n1 Hps Hq E; [congruence|].
  destruct n as [c|es]; [discriminate|].
  change ((s :: rest) ++ q) with (s :: (rest ++ q)) in E.
  destruct (rest ++ q) as [|s2 q'] eqn:Eq;
    [destruct rest; [cbn in Eq; congruence | discriminate]|].
  rewrite alter_path_deeper in E.
  destruct (find_entry s es) as [ch|] eqn:Ef; [|discriminate].
  destruct (alter_path (s2 :: q') f ch) as [ch'|] eqn:Ea; cbn [bind] in E;
    [|discriminate].
  injection E as <-. destruct rest as [|s3 rest'].
  - rewrite !alter_path_single. cbn [put_slot bind]. destruct r as [d|].
    + now rewrite set_entry_twice.
    + rewrite remove_set_entry by congruence. reflexivity.
  - rewrite !alter_path_deeper, find_set_same, Ef.
    rewrite <- Eq in Ea.
    rewrite (IH q f ch ch') by (assumption || discriminate).
    destruct (alter_path (s3 :: rest') (put_slot r) ch); cbn [bind];
      [|reflexivity].
    now rewrite set_entry_twice.
Qed.

(** In a well-formed tree the emptied slot is empty. *)
Lemma alter_path_gone (ps : list string) :
  forall n n',
    wf_node n -> alter_path ps (put_slot None) n = Ok n' ->
    lookup_path ps n' = None.
Proof.
  induction ps as [|s rest IH]; intros n n' Hwf E.
  - destruct n; discriminate.
  - destruct n as [c|es]; [discriminate|].
    destruct rest as [|s2 rest'].
    + rewrite alter_path_single in E.
      cbn [put_slot bind] in E. injection E as <-. cbn [lookup_path].
      inversion Hwf; subst. now rewrite find_remove_entry.
    + rewrite alter_path_deeper in E.
      destruct (find_entry s es) as [ch|] eqn:Ef; [|discriminate].
      destruct (alter_path (s2 :: rest') (put_slot None) ch) as [ch'|] eqn:Ea;
        cbn [bind] in E; [|discriminate].
      injection E as <-. cbn [lookup_path]. rewrite find_set_same.
      apply (IH ch ch'); [|exact Ea].
      exact (proj2 (wf_child s ch es Hwf Ef)).
Qed.

(** A slot the path leads to can be rewritten. *)
Lemma alter_path_put_ok (ps : list string) (r : option node) :
  forall n m,
    ps <> [] -> lookup_path ps n = Some m ->
    exists n', alter_path ps (put_slot r) n = Ok n'.
Proof.
  induction ps as [|s rest IH]; intros n m Hps Hl; [congruence|].
  destruct n as [c|es]; [discriminate|]. cbn [lookup_path] in Hl.
  destruct (find_entry s es) as [ch|] eqn:Ef; [|discriminate].
  destruct rest as [|s2 rest'].
  - rewrite alter_path_single. cbn [put_slot bind]. eauto.
  - rewrite alter_path_deeper, Ef.
    destruct (IH ch m) as (ch' & ->); [discriminate | assumption|].
    cbn [bind]. eauto.
Qed.

Lemma find_remove_other (s q : string) (es : tree) :
  q <> s -> find_entry q (remove_entry s es) = find_entry q es.
Proof.
  intros Hne. induction es as [|[n c] rest IH]; cbn; [reflexivity|].
  destruct (String.eqb_spec s n) as [->|Hsn].
  - apply String.eqb_neq in Hne. now rewrite Hne.
  - cbn. now rewrite IH.
Qed.

(** A change at [ps] is not seen from a path that neither leads through
    [ps] nor is on the way to it. *)
Lemma alter_path_frame (ps : list string) (f : option node -> outcome (option node)) :
  forall qs n n',
    alter_path ps f n = Ok n' ->
    (forall r, qs <> ps ++ r) -> (forall r, ps <> qs ++ r) ->
    lookup_path qs n' = lookup_path qs n.
Proof.
  induction ps as [|s rest IH]; intros qs n n' E H1 H2.
  - destruct n; discriminate.
  - destruct n as [c|es]; [discriminate|].
    destruct qs as [|q qs']; [now specialize (H2 (s :: rest))|].
    destruct rest as [|s2 rest'].
    + rewrite alter_path_single in E.
      destruct (f (find_entry s es)) as [r|]; cbn [bind] in E; [|discriminate].
      injection E as <-. cbn [lookup_path].
      assert (Hne : q <> s) by (intros ->; now specialize (H1 qs')).
      destruct r as [d|].
      * rewrite find_set_entry. apply String.eqb_neq in Hne. now rewrite Hne.
      * now rewrite find_remove_other.
    + rewrite alter_path_deeper in E.
      destruct (find_entry s es) as [ch|] eqn:Ef; [|discriminate].
      destruct (alter_path (s2 :: rest') f ch) as [ch'|] eqn:Ea;
        cbn [bind] in E; [|discriminate].
      injection E as <-. cbn [lookup_path]. rewrite find_set_entry.
      destruct (String.eqb_spec q s) as [->|Hne]; [|reflexivity].
      rewrite Ef. apply (IH qs' ch ch' Ea).
      * intros r ->. now specialize (H1 r).
      * intros r Hr. apply (H2 r). cbn. now rewrite Hr.
Qed.

Lemma lookup_path_app (ps qs : list string) :
  forall n,
    lookup_path (ps ++ qs) n =
    match lookup_path ps n with
    | Some m => lookup_path qs m
    | None => None
    end.
Proof.
  induction ps as [|s rest IH]; intros n; [reflexivity|].
  cbn [app lookup_path]. destruct n as [c|es]; [reflexivity|].
  destruct (find_entry s es); [apply IH | reflexivity].
Qed.

Lemma remove_entry_names (s x : string) (es : tree) :
  In x (map fst (remove_entry s es)) -> In x (map fst es).
Proof.
  induction es as [|[n c] rest IH]; cbn; [auto|].
  destruct (String.eqb s n); cbn; [auto|]. intros [H|H]; auto.
Qed.

Lemma remove_entry_In (s : string) (e : string * node) (es : tree) :
  In e (remove_entry s es) -> In e es.
Proof.
  induction es as [|[n c] rest IH]; cbn; [auto|].
  destruct (String.eqb s n); cbn; [auto|]. intros [H|H]; auto.
Qed.

Lemma wf_remove_entry (s : string) (es : tree) :
  wf_node (Dir es) -> wf_node (Dir (remove_entry s es)).
Proof.
  intros Hwf. inversion Hwf as [|? Hd Hall]; subst. constructor.
  - clear Hall Hwf. induction es as [|[n c] rest IH]; cbn; [constructor|].
    inversion Hd as [|? ? Hn Hrest]; subst.
    destruct (String.eqb s n); [exact Hrest|]. cbn. constructor; [|auto].
    intros Hin. apply Hn. now apply remove_entry_names in Hin.
  - rewrite Forall_forall in *. intros e He. apply Hall.
    now apply remove_entry_In in He.
Qed.

Lemma set_entry_names (s : string) (c c' : node) (es : tree) :
  find_entry s es = Some c -> map fst (set_entry s c' es) = map fst es.
Proof.
  induction es as [|[n c0] rest IH]; cbn; [discriminate|].
  destruct (String.eqb s n); cbn; [reflexivity|]. intros H. now rewrite IH.
Qed.

Lemma wf_set_entry (s : string) (c c' : node) (es : tree) :
  wf_node (Dir es) -> find_entry s es = Some c -> wf_node c' ->
  wf_node (Dir (set_entry s c' es)).
Proof.
  intros Hwf Hf Hc. inversion Hwf as [|? Hd Hall]; subst. constructor.
  - now rewrite (set_entry_names s c c' es Hf).
  - clear Hd Hwf. induction es as [|[n c0] rest IH]; cbn in *; [discriminate|].
    inversion Hall as [|? ? [Hg Hw] Hrest]; subst. cbn [fst snd] in *.
    destruct (String.eqb s n); constructor; auto.
Qed.

(** Emptying a slot keeps the tree well-formed. *)
Lemma alter_path_remove_wf (ps : list string) :
  forall n n',
    wf_node n -> alter_path ps (put_slot None) n = Ok n' -> wf_node n'.
Proof.
  induction ps as [|s rest IH]; intros n n' Hwf E.
  - destruct n; discriminate.
  - destruct n as [c|es]; [discriminate|].
    destruct rest as [|s2 rest'].
    + rewrite alter_path_single in E. cbn [put_slot bind] in E.
      injection E as <-. now apply wf_remove_entry.
    + rewrite alter_path_deeper in E.
      destruct (find_entry s es) as [ch|] eqn:Ef; [|discriminate].
      destruct (alter_path (s2 :: rest') (put_slot None) ch) as [ch'|] eqn:Ea;
        cbn [bind] in E; [|discriminate].
      injection E as <-. apply (wf_set_entry s ch ch' es Hwf Ef).
      apply (IH ch ch'); [|exact Ea].
      exact (proj2 (wf_child s ch es Hwf Ef)).
Qed.

Lemma join_child (ps : list string) (name : string) :
  Forall (fun r => good_name r = true) ps -> good_name name = true ->
  join [abs_path ps; name] = abs_path (ps ++ [name]).
Proof.
  intros Hps Hn.
  rewrite (join_names (abs_path ps) name ps [name]).
  - reflexivity.
  - discriminate.
  - now apply good_name_nonempty.
  - now apply segments_abs_path.
  - apply (segments_join_names [name]). now constructor.
  - discriminate.
  - now apply ends_with_slash_name, good_name_chars.
Qed.

(** A call that empties the slot at an existing path. *)
Lemma remove_at (ps : list string) (f : option node -> outcome (option node))
      (m : node) (e : event) (w : world) :
  Forall (fun r => good_name r = true) ps -> ps <> [] ->
  lookup_path ps (Dir (root w)) = Some m -> f (Some m) = Ok None ->
  exists es',
    alter_path ps (put_slot None) (Dir (root w)) = Ok (Dir es') /\
    mbind (emit e) (fun _ => alter_at (abs_path ps) f) w =
    (Ok tt, mkWorld (cwd w) es' (effects w ++ [e])).
Proof.
  intros Hps Hne Hl Hf.
  destruct (alter_path_put_ok ps None (Dir (root w)) m Hne Hl) as (n' & En).
  destruct (alter_path_dir ps _ _ _ En) as (es' & ->).
  exists es'. split; [exact En|].
  rewrite emit_then. unfold alter_at. cbn [root cwd effects].
  rewrite (resolve_segments_abs_path _ ps Hps).
  rewrite (alter_path_known ps f None (Dir (root w)) m Hne Hl Hf), En.
  reflexivity.
Qed.

(** Removing the node at an existing path: every call succeeds and the
    tree loses exactly that slot. *)
Lemma rmdir_node_removes (n : node) :
  forall ps w,
    wf_node (Dir (root w)) ->
    Forall (fun r => good_name r = true) ps -> ps <> [] ->
    lookup_path ps (Dir (root w)) = Some n ->
    exists w',
      rmdir_node (abs_path ps) n w = (Ok tt, w') /\
      cwd w' = cwd w /\
      alter_path ps (put_slot None) (Dir (root w)) = Ok (Dir (root w')).
Proof.
  induction n as [c|es IH] using node_induction; intros ps w Hwf Hps Hne Hl.
  - cbn [rmdir_node]. unfold unlink.
    destruct (remove_at ps (fun slot =>
                match slot with
                | Some (File _) => Ok None
                | Some (Dir _) => Throw (FsError "EISDIR")
                | None => Throw (FsError "ENOENT")
                end) (File c) (EUnlink (abs_path ps)) w Hps Hne Hl eq_refl)
      as (es' & Ea & Er).
    eexists. split; [exact Er|]. split; [reflexivity | exact Ea].
  - rewrite rmdir_node_Dir.
    assert (Hloop : forall w0,
               wf_node (Dir (root w0)) ->
               lookup_path ps (Dir (root w0)) = Some (Dir es) ->
               exists w1,
                 rmdir_entries (abs_path ps) es w0 = (Ok tt, w1) /\
                 cwd w1 = cwd w0 /\
                 lookup_path ps (Dir (root w1)) = Some (Dir []) /\
                 alter_path ps (put_slot None) (Dir (root w1)) =
                 alter_path ps (put_slot None) (Dir (root w0))).
    { clear w Hwf Hl.
      induction es as [|[name c] rest IHrest]; intros w0 Hwf0 Hl0.
      - exists w0. repeat split; auto.
      - inversion IH as [|? ? IHc IHr]; subst. cbn [snd] in IHc.
        pose proof (wf_lookup ps _ _ Hwf0 Hl0) as Hd.
        inversion Hd as [|? Hnd Hall]; subst.
        inversion Hall as [|? ? [Hg Hwc] _]; subst. cbn [fst snd] in Hg, Hwc.
        assert (Hfind : find_entry name ((name, c) :: rest) = Some c)
          by (cbn; now rewrite String.eqb_refl).
        assert (Hlc : lookup_path (ps ++ [name]) (Dir (root w0)) = Some c).
        { rewrite lookup_path_app, Hl0. cbn [lookup_path]. now rewrite Hfind. }
        assert (Hps' : Forall (fun r => good_name r = true) (ps ++ [name])).
        { apply Forall_app. split; [exact Hps | now constructor]. }
        assert (Hne' : ps ++ [name] <> [])
          by (intros Habs; apply app_eq_nil in Habs; destruct Habs; discriminate).
        destruct (IHc (ps ++ [name]) w0 Hwf0 Hps' Hne' Hlc)
          as (wa & Ea & Ca & Aa).
        pose proof (alter_path_remove_wf _ _ _ Hwf0 Aa) as Hwfa.
        pose proof (alter_path_child_removed ps name _ _ _ Hl0 Aa) as Hla.
        cbn [remove_entry] in Hla. rewrite String.eqb_refl in Hla.
        destruct (IHrest IHr wa Hwfa Hla) as (w1 & E1 & C1 & L1 & A1).
        exists w1. cbn [rmdir_entries]. unfold mbind at 1.
        rewrite (join_child ps name Hps Hg), Ea.
        split; [exact E1|]. split; [congruence|]. split; [exact L1|].
        rewrite A1.
        apply (alter_path_absorbs ps None [name] (put_slot None));
          [exact Hne | discriminate | exact Aa]. }
    destruct (Hloop w Hwf Hl) as (w1 & E1 & C1 & L1 & A1).
    unfold mbind at 1. rewrite E1. unfold fs_rmdir.
    destruct (remove_at ps (fun slot =>
                match slot with
                | Some (Dir []) => Ok None
                | Some (Dir _) => Throw (FsError "ENOTEMPTY")
                | Some (File _) => Throw (FsError "ENOTDIR")
                | None => Throw (FsError "ENOENT")
                end) (Dir []) (ERmdir (abs_path ps)) w1 Hps Hne L1 eq_refl)
      as (es' & Ea & Er).
    eexists. split; [exact Er|]. cbn [cwd root].
    split; [exact C1|]. now rewrite <- A1.
Qed.

(** X16. On a well-formed tree [Template.rmdir], given the absolute path of
    an existing directory, succeeds; afterwards nothing is found at that
    path, and every path that neither leads through it nor is on the way to
    it finds what it found before.  The working directory is unchanged. *)
Theorem rmdir_removes_directory (ps : list string) (es : tree) (w : world) :
  wf_node (Dir (root w)) ->
  Forall (fun r => good_name r = true) ps -> ps <> [] ->
  lookup_path ps (Dir (root w)) = Some (Dir es) ->
  exists w',
    rmdir (abs_path ps) w = (Ok tt, w') /\
    cwd w' = cwd w /\
    lookup_path ps (Dir (root w')) = None /\
    (forall qs,
        (forall r, qs <> ps ++ r) -> (forall r, ps <> qs ++ r) ->
        lookup_path qs (Dir (root w')) = lookup_path qs (Dir (root w))).
Proof.
  intros Hwf Hps Hne Hl.
  destruct (rmdir_node_removes (Dir es) ps w Hwf Hps Hne Hl)
    as (w' & Er & Hc & Ha).
  exists w'. split.
  - unfold rmdir, readdir, mbind, node_at. cbv beta.
    rewrite (resolve_segments_abs_path w ps Hps), Hl. exact Er.
  - split; [exact Hc|]. split.
    + exact (alter_path_gone ps _ _ Hwf Ha).
    + intros qs H1 H2. exact (alter_path_frame ps _ qs _ _ Ha H1 H2).
Qed.

(** ** Further properties of [Template.files] *)

Lemma In_find_entry (name : string) (c : node) (es : tree) :
  NoDup (map fst es) -> In (name, c) es -> find_entry name es = Some c.
Proof.
  induction es as [|[n c0] rest IH]; cbn; [intros _ []|].
  intros Hd Hin. inversion Hd as [|? ? Hn Hrest]; subst.
  destruct Hin as [[= -> ->]|Hin]; [now rewrite String.eqb_refl|].
  destruct (String.eqb_spec name n) as [->|Hne]; [|auto].
  exfalso. apply Hn. now apply (in_map fst) in Hin.
Qed.

(** In a well-formed tree a chain of entries is what the system finds
    along the names, and the names are entry names. *)
Lemma at_path_lookup (names : list string) (n m : node) :
  wf_node n -> at_path names n m ->
  lookup_path names n = Some m /\
  Forall (fun r => good_name r = true) names.
Proof.
  intros Hwf Hat. induction Hat as [n|name c es rest m Hin Hat IH].
  - split; [reflexivity | constructor].
  - inversion Hwf as [|? Hd Hall]; subst.
    rewrite Forall_forall in Hall. destruct (Hall _ Hin) as [Hg Hwc].
    destruct (IH Hwc) as [Hl Hr]. cbn [fst snd] in Hg.
    split; [|now constructor].
    cbn [lookup_path]. now rewrite (In_find_entry name c es Hd Hin).
Qed.

Lemma descend_abs_path (names : list string) :
  forall ps,
    Forall (fun r => good_name r = true) ps ->
    Forall (fun r => good_name r = true) names ->
    descend (abs_path ps) names = abs_path (ps ++ names).
Proof.
  unfold descend.
  induction names as [|name rest IH]; intros ps Hps Hn; cbn [fold_left].
  - now rewrite app_nil_r.
  - inversion Hn as [|? ? Hg Hrest]; subst.
    rewrite (join_child ps name Hps Hg), IH.
    + now rewrite <- app_assoc.
    + apply Forall_app. split; [exact Hps | now constructor].
    + exact Hrest.
Qed.

(** X17. On a well-formed tree, every path [Template.files] returns for an
    absolute location is the absolute path of an entry below that location,
    and reading it succeeds: the list holds files that exist, no directory
    and no dangling path. *)
Theorem files_lists_readable_files
        (ps : list string) (ignore : list value) (w w' : world)
        (paths : list string) (p : string) :
  wf_node (Dir (root w)) ->
  Forall (fun r => good_name r = true) ps ->
  files (abs_path ps) ignore w = (Ok paths, w') ->
  In p paths ->
  exists names content,
    names <> [] /\
    p = abs_path (ps ++ names) /\
    Forall (fun name => ignored ignore name = false) names /\
    readFile p w = (Ok content, w).
Proof.
  intros Hwf Hps E Hin. unfold files, readdir, mbind, node_at in E.
  cbv beta in E. rewrite (resolve_segments_abs_path w ps Hps) in E.
  destruct (lookup_path ps (Dir (root w))) as [[c|entries]|] eqn:Hl;
    try discriminate.
  cbn [ret] in E. injection E as <- <-.
  change (In p (walk_node ignore (abs_path ps) (Dir entries))) in Hin.
  apply walk_node_spec in Hin. destruct Hin as (names & content & -> & Hat & Hig).
  pose proof (wf_lookup ps _ _ Hwf Hl) as Hwd.
  destruct (at_path_lookup names _ _ Hwd Hat) as [Hln Hgn].
  exists names, content.
  split; [intros ->; inversion Hat|].
  rewrite (descend_abs_path names ps Hps Hgn).
  split; [reflexivity|]. split; [exact Hig|].
  unfold readFile, mbind, node_at. cbv beta.
  rewrite (resolve_segments_abs_path w (ps ++ names)),
    lookup_path_app, Hl, Hln; [reflexivity|].
  apply Forall_app. now split.
Qed.

(** ** Further properties of [mergeJson] *)

Lemma alter_path_throws (segs : list string)
      (f : option node -> outcome (option node)) :
  (forall slot e, f slot = Throw e -> fs_error e) ->
  forall n e, alter_path segs f n = Throw e -> fs_error e.
Proof.
  intros Hf. induction segs as [|s rest IH]; intros n e E.
  - destruct n; injection E as <-; eexists; reflexivity.
  - destruct n as [c|es]; [injection E as <-; eexists; reflexivity|].
    cbn [alter_path] in E. destruct rest as [|s2 rest'].
    + destruct (f (find_entry s es)) as [r|e0] eqn:Ef; cbn [bind] in E;
        [discriminate|]. injection E as <-. eapply Hf; eauto.
    + destruct (find_entry s es) as [ch|];
        [|injection E as <-; eexists; reflexivity].
      destruct (alter_path (s2 :: rest') f ch) as [ch'|e0] eqn:Ea; cbn [bind] in E;
        [discriminate|]. injection E as <-. eapply IH; eauto.
Qed.

Lemma alter_at_throws (p : string) (f : option node -> outcome (option node)) :
  (forall slot e, f slot = Throw e -> fs_error e) ->
  throws_fs_only (alter_at p f).
Proof.
  intros Hf w w' e. unfold alter_at.
  destruct (alter_path _ f (Dir (root w))) as [[c|es]|e0] eqn:Ea.
  - intros [= <- _]. eexists; reflexivity.
  - discriminate.
  - intros [= <- _]. eapply alter_path_throws; eauto.
Qed.

Lemma throws_fs_mbind {A B} (m : M A) (f : A -> M B) :
  throws_fs_only m -> (forall a, throws_fs_only (f a)) -> throws_fs_only (mbind m f).
Proof.
  intros Hm Hf w w' e. unfold mbind.
  destruct (m w) as [[a|e0] w1] eqn:E; [apply Hf|].
  intros [= <- <-]. eapply Hm; eauto.
Qed.

Lemma throws_fs_ret {A} (a : A) : throws_fs_only (ret a).
Proof. intros w w' e. discriminate. Qed.

Lemma throws_fs_emit (e : event) : throws_fs_only (emit e).
Proof. intros w w' e0. discriminate. Qed.

Lemma throws_fs_writeFile (p c : string) : throws_fs_only (writeFile p c).
Proof.
  apply throws_fs_mbind; [apply throws_fs_emit|]. intros _.
  apply alter_at_throws. intros [[?|?]|] e; try discriminate.
  intros [= <-]. eexists; reflexivity.
Qed.

Lemma throws_fs_mkdirp_step (x : string) : throws_fs_only (mkdirp_step x).
Proof.
  intros w w' e. unfold mkdirp_step, try_catch.
  destruct (stat x w) as [[u|e0] w1]; [discriminate|].
  apply throws_fs_mbind; [apply throws_fs_emit|]. intros _.
  apply alter_at_throws. intros [?|] e1; try discriminate.
  intros [= <-]. eexists; reflexivity.
Qed.

Lemma throws_fs_for_each {A B} (f : A -> M B) (xs : list A) :
  (forall x, throws_fs_only (f x)) -> throws_fs_only (for_each f xs).
Proof.
  intros Hf. induction xs as [|x rest IH]; cbn [for_each].
  - apply throws_fs_ret.
  - apply throws_fs_mbind; [apply Hf|]. intros y.
    apply throws_fs_mbind; [exact IH|]. intros ys. apply throws_fs_ret.
Qed.

Lemma throws_fs_mkdirp (location : string) : throws_fs_only (mkdirp location).
Proof.
  intros w w' e. rewrite mkdirp_unfold.
  apply throws_fs_mbind; [|intros; apply throws_fs_ret].
  apply throws_fs_for_each. apply throws_fs_mkdirp_step.
Qed.

(** The write of one direction: [mkdirp] of the parent, then [writeFile]. *)
Lemma write_out_effects (path text : string) (w w' : world) (r : outcome unit) :
  mbind (mkdirp (dirname path)) (fun _ => writeFile path text) w = (r, w') ->
  (forall e, r = Throw e -> fs_error e) /\
  (r = Ok tt ->
   exists mk, effects w' = effects w ++ mk ++ [EWriteFile path text] /\
              Forall (fun e => is_mkdir e = true) mk).
Proof.
  intros E. split.
  - intros e ->. revert E. apply throws_fs_mbind; [apply throws_fs_mkdirp|].
    intros _. apply throws_fs_writeFile.
  - intros ->. unfold mbind in E.
    destruct (mkdirp (dirname path) w) as [[[]|e] w1] eqn:Em; [|discriminate].
    destruct (mkdirp_effects _ _ _ Em) as (mk & He & Hmk).
    apply writeFile_effect in E. exists mk.
    split; [now rewrite E, He, app_assoc | exact Hmk].
Qed.

(** X15. What [mergeJsonFile] does to the world.  Under [commit] a
    successful run adds [mkdir] calls and one write, of the text of
    [commit_merge] of the two files, to the template's file; under [pull]
    the same with [pull_merge] and the project's file: neither direction
    writes the file it reads from.  And for every command, a run that fails
    with anything but a file-system error (the [TypeError] of a merge, for
    one) has changed nothing. *)
Theorem mergeJsonFile_effects `{Host}
        (location cmd : string) (jsonFile : value) (w w' : world)
        (res : outcome unit) :
  mergeJsonFile location cmd jsonFile w = (res, w') ->
  (forall e, res = Throw e -> ~ fs_error e -> w' = w) /\
  (res = Ok tt ->
   exists name tf keysV keys P T,
     get jsonFile "name" = Ok (VStr name) /\
     templateFile (join [location; name]) location = Ok tf /\
     get jsonFile "ignoreKeys" = Ok keysV /\
     string_array keysV = Ok keys /\
     readJson (join [location; name]) w = (Ok P, w) /\
     readJson tf w = (Ok T, w) /\
     (cmd = COMMIT ->
      exists v mk,
        commit_merge keys P T = Ok v /\
        effects w' = effects w ++ mk ++ [EWriteFile tf (stringify v)] /\
        Forall (fun e => is_mkdir e = true) mk) /\
     (cmd = PULL ->
      exists v mk,
        pull_merge keys P T = Ok v /\
        effects w' = effects w ++ mk ++ [EWriteFile (join [location; name]) (stringify v)] /\
        Forall (fun e => is_mkdir e = true) mk) /\
     (cmd <> COMMIT -> cmd <> PULL -> w' = w)).
Proof.
  intros E. unfold mergeJsonFile in E.
  (* the reads *)
  unfold mbind at 1 in E. unfold lift at 1 in E.
  destruct (get jsonFile "ignoreKeys") as [keysV|e0] eqn:Ek;
    [|injection E as <- <-; split; [auto | discriminate]].
  unfold mbind at 1 in E. unfold lift at 1 in E.
  destruct (get jsonFile "name") as [nameV|e0] eqn:En;
    [|injection E as <- <-; split; [auto | discriminate]].
  unfold mbind at 1 in E. unfold lift at 1 in E.
  destruct (path_argument nameV) as [name|e0] eqn:Ep;
    [|injection E as <- <-; split; [auto | discriminate]].
  destruct nameV; try discriminate Ep. injection Ep as ->.
  unfold mbind at 1 in E. unfold lift at 1 in E.
  destruct (templateFile (join [location; name]) location) as [tf|e0] eqn:Et;
    [|injection E as <- <-; split; [auto | discriminate]].
  destruct (readJson_returns (join [location; name]) w) as (P & EP).
  destruct (readJson_returns tf w) as (T & ET).
  unfold mbind at 1 in E. rewrite EP in E.
  unfold mbind at 1 in E. rewrite ET in E.
  unfold mbind at 1 in E. unfold lift at 1 in E.
  destruct (string_array keysV) as [keys|e0] eqn:Es;
    [|injection E as <- <-; split; [auto | discriminate]].
  unfold mbind at 1 in E. unfold lift at 1 in E.
  destruct (omit keys P) as [iP|e0] eqn:EiP;
    [|injection E as <- <-; split; [auto | discriminate]].
  unfold mbind at 1 in E. unfold lift at 1 in E.
  destruct (omit keys T) as [iT|e0] eqn:EiT;
    [|injection E as <- <-; split; [auto | discriminate]].
  destruct (String.eqb_spec cmd COMMIT) as [->|Hc].
  - (* commit *)
    change (String.eqb COMMIT PULL) with false in E. cbv iota in E.
    unfold mbind at 1 in E.
    match type of E with
    | (let (_, _) := ?m ?w0 in _) = _ => destruct (m w0) as [rc wc] eqn:Ec
    end.
    unfold mbind at 1 in Ec. unfold lift at 1 in Ec.
    destruct (deepMerge T iP) as [v|e0] eqn:Ev.
    + destruct (write_out_effects _ _ _ _ _ Ec) as (Hfs & Hok).
      destruct rc as [[]|e1].
      * unfold ret in E. injection E as <- <-. split; [discriminate|].
        intros _. exists name, tf, keysV, keys, P, T. repeat split; auto.
        -- intros _. destruct (Hok eq_refl) as (mk & He & Hmk).
           exists v, mk. repeat split; auto.
           unfold commit_merge. now rewrite EiP.
        -- discriminate.
        -- congruence.
      * injection E as <- <-. split; [|discriminate].
        intros e [= <-] Hn. exfalso. apply Hn. now apply Hfs.
    + injection Ec as <- <-. injection E as <- <-. split; [auto | discriminate].
  - unfold mbind at 1 in E. unfold ret at 1 in E.
    destruct (String.eqb_spec cmd PULL) as [->|Hp].
    + unfold mbind at 1 in E. unfold lift at 1 in E.
      destruct (deepMerge P iT) as [v|e0] eqn:Ev;
        [|injection E as <- <-; split; [auto | discriminate]].
      destruct (write_out_effects _ _ _ _ _ E) as (Hfs & Hok). split.
      * intros e -> Hn. exfalso. apply Hn. now apply Hfs.
      * intros ->. exists name, tf, keysV, keys, P, T. repeat split; auto.
        -- discriminate.
        -- intros _. destruct (Hok eq_refl) as (mk & He & Hmk).
           exists v, mk. repeat split; auto.
           unfold pull_merge. now rewrite EiT.
        -- congruence.
    + unfold ret in E. injection E as <- <-. split; [auto|].
      intros _. exists name, tf, keysV, keys, P, T. repeat split; auto; congruence.
Qed.

(** ** Further properties of [Template.clone] and [Template.main] *)

(** What [clone] does: the removal of the old cache, whose failure is
    swallowed, then the [git] command in the world the removal left. *)
Lemma clone_run `{Host} (repo : value) (location r : string)
      (w w' : world) (res : outcome unit) :
  template_string repo = Ok r ->
  clone repo location w = (res, w') ->
  let w1 := snd (rmdir (join [location; ".template"]) w) in
  res = (if fst (spawn (clone_command location r) (cwd w1) (root w1))
         then Ok tt else Throw ExecError) /\
  w' = mkWorld (cwd w1)
               (snd (spawn (clone_command location r) (cwd w1) (root w1)))
               (effects w1 ++ [EExec (clone_command location r)]).
Proof.
  intros Hr E. cbv zeta. unfold clone in E. unfold mbind at 1 in E.
  unfold try_catch in E.
  destruct (rmdir (join [location; ".template"]) w) as [rr w1] eqn:Erm.
  cbn [snd].
  assert (E' : mbind (lift (template_string repo))
                     (fun r0 => execAsync (clone_command location r0)) w1 = (res, w')).
  { destruct rr; exact E. }
  rewrite Hr in E'. unfold mbind, lift in E'.
  destruct (spawn (clone_command location r) (cwd w1) (root w1)) as [ok t] eqn:Es.
  rewrite (execAsync_run _ _ _ _ Es) in E'. injection E' as <- <-.
  cbn [fst snd]. auto.
Qed.

(** X12. [clone] never fails on the removal of the old cache.  On a tree
    whose directories hold entry names, with a printable repository: the
    removal issues [unlink] and [rmdir] calls below [.template] only and
    keeps the working directory; where [.template] was a directory of the
    absolute location, nothing is left of it; the outcome of [clone] is the
    outcome of the [git] command, run on the tree the removal left, and
    that command is the last effect. *)
Theorem clone_outcome_is_git `{Host} (repo : value) (location r : string)
        (w w' : world) (res : outcome unit) :
  wf_node (Dir (root w)) ->
  template_string repo = Ok r ->
  clone repo location w = (res, w') ->
  let w1 := snd (rmdir (join [location; ".template"]) w) in
  cwd w1 = cwd w /\
  (exists evs,
      effects w1 = effects w ++ evs /\
      removals_below (join [location; ".template"]) evs) /\
  (forall ps es,
      location = abs_path ps ->
      Forall (fun n => good_name n = true) ps ->
      lookup_path (ps ++ [".template"]) (Dir (root w)) = Some (Dir es) ->
      lookup_path (ps ++ [".template"]) (Dir (root w1)) = None) /\
  res = (if fst (spawn (clone_command location r) (cwd w1) (root w1))
         then Ok tt else Throw ExecError) /\
  w' = mkWorld (cwd w1)
               (snd (spawn (clone_command location r) (cwd w1) (root w1)))
               (effects w1 ++ [EExec (clone_command location r)]).
Proof.
  intros Hwf Hr E. cbv zeta.
  destruct (clone_run _ _ _ _ _ _ Hr E) as [Hres Hw'].
  destruct (rmdir_run_effects (join [location; ".template"]) w _ _ Hwf
              (surjective_pairing _)) as (Hc & Hev).
  split; [exact Hc|]. split; [exact Hev|]. split; [|split; assumption].
  intros ps es -> Hps Hl.
  assert (Hps' : Forall (fun n => good_name n = true) (ps ++ [".template"])).
  { apply Forall_app. split; [exact Hps | repeat constructor]. }
  assert (Hne : ps ++ [".template"] <> [])
    by (intros Habs; apply app_eq_nil in Habs; destruct Habs; discriminate).
  destruct (rmdir_node_removes (Dir es) _ w Hwf Hps' Hne Hl) as (w2 & Er & _ & Ha).
  rewrite (join_child ps ".template" Hps eq_refl).
  assert (Erm : rmdir (abs_path (ps ++ [".template"])) w = (Ok tt, w2)).
  { unfold rmdir, readdir, mbind, node_at. cbv beta.
    rewrite (resolve_segments_abs_path w _ Hps'), Hl. exact Er. }
  rewrite Erm. cbn [snd]. exact (alter_path_gone _ _ _ Hwf Ha).
Qed.

Lemma clone_fails_offline `{Host} (repo : value) (location r : string)
      (w w' : world) (res : outcome unit) :
  wf_node (Dir (root w)) ->
  template_string repo = Ok r ->
  (forall d t, fst (spawn (clone_command location r) d t) = false) ->
  clone repo location w = (res, w') ->
  res = Throw ExecError /\
  exists evs,
    effects w' = effects w ++ evs ++ [EExec (clone_command location r)] /\
    removals_below (join [location; ".template"]) evs.
Proof.
  intros Hwf Hr Hoff E.
  destruct (clone_run _ _ _ _ _ _ Hr E) as [-> ->].
  destruct (rmdir_run_effects (join [location; ".template"]) w _ _ Hwf
              (surjective_pairing _)) as (_ & evs & He & Hb).
  rewrite Hoff. split; [reflexivity|].
  exists evs. cbn [effects]. split; [now rewrite He, app_assoc | exact Hb].
Qed.

(** X18. When the configuration loads and the [git] command fails, [main]
    fails with the error of the command whatever the sub-command is, and
    has by then written nothing: on a tree whose directories hold entry
    names its effects are [unlink] and [rmdir] calls at paths below the
    old [.template] directory, followed by the one [git] call. *)
Theorem main_stops_when_git_fails `{Host} (location cmd repo : string)
        (c : Config) (w w' : world) (r : outcome unit) :
  wf_node (Dir (root w)) ->
  config location w = (Ok c, w) ->
  template_string (source c) = Ok repo ->
  (forall d t, fst (spawn (clone_command location repo) d t) = false) ->
  main location cmd w = (r, w') ->
  r = Throw ExecError /\
  exists evs,
    effects w' = effects w ++ evs ++ [EExec (clone_command location repo)] /\
    removals_below (join [location; ".template"]) evs.
Proof.
  intros Hwf Ec Hr Hoff E. unfold main in E.
  unfold mbind at 1 in E. rewrite Ec in E.
  unfold mbind at 1 in E.
  destruct (clone (source c) location w) as [rc w1] eqn:Ecl.
  destruct (clone_fails_offline _ _ _ _ _ _ Hwf Hr Hoff Ecl) as (-> & Hev).
  injection E as <- <-. split; [reflexivity | exact Hev].
Qed.

(** ** Closed instances *)

Ltac unique_keys := cbn; repeat constructor; cbn; intuition discriminate.



Lemma commit_scenario_witness :
  @main demo_host "/proj" COMMIT (scenario_world "C" "P") =
    (Ok tt, @scenario_final demo_host "C" "P") /\
  readFile "/proj/.template/pkg.json" (@scenario_final demo_host "C" "P") =
    (Ok (@stringify demo_host scenario_merged), @scenario_final demo_host "C" "P") /\
  readFile "/proj/pkg.json" (@scenario_final demo_host "C" "P") =
    (Ok "P", @scenario_final demo_host "C" "P").
Proof.
  apply (@commit_scenario demo_host "C" "P" "T"); reflexivity.
Defined.


Lemma main_invalid_command_witness :
  let w := scenario_world "C" "P" in
  let w' := mkWorld "/proj" (scenario_cloned "C" "P" "T")
                    [EExec "git -C /proj clone repo-url .template"] in
  @main demo_host "/proj" "invalid" w = (Throw invalid_command, w') /\
  In (EExec (clone_command "/proj" "repo-url")) (effects w').
Proof.
  cbv zeta.
  assert (E : @main demo_host "/proj" "invalid" (scenario_world "C" "P") =
              (Throw invalid_command,
               mkWorld "/proj" (scenario_cloned "C" "P" "T")
                       [EExec "git -C /proj clone repo-url .template"]))
    by (vm_compute; reflexivity).
  split; [exact E|].
  destruct (@main_invalid_command_fails_after_clone demo_host
              "/proj" "invalid" _ _ _ ltac:(discriminate) ltac:(discriminate) E)
    as (_ & _ & H3 & _).
  apply (H3 (mkConfig (VStr "repo-url")
                      [VStr "pkg.json"; VStr ".git"; VStr ".template"]
                      (arr [obj [("name", VStr "pkg.json");
                                 ("ignoreKeys", arr [VStr "version"])]]))
            "repo-url"); reflexivity.
Defined.

Lemma config_missing_source_witness :
  let w := mkWorld "/proj" [("proj", Dir [("pkg.json", File "P")])] [] in
  @config demo_host "/proj" w =
    (Throw (JsError "config is missing source"), w) /\
  @main demo_host "/proj" COMMIT w =
    (Throw (JsError "config is missing source"), w).
Proof.
  cbv zeta.
  destruct (@config_missing_source_fails_first demo_host "/proj"
              (mkWorld "/proj" [("proj", Dir [("pkg.json", File "P")])] [])
              (VObj CObject []) VUndefined eq_refl eq_refl eq_refl) as (H1 & H2).
  split; [exact H1 | apply H2].
Defined.

Lemma files_excludes_ignored_witness :
  files "/proj" [VStr "node_modules"; VStr ".git"] demo_walk_world =
    (Ok ["/proj/a.txt"; "/proj/src/b.ts"], demo_walk_world) /\
  exists names content,
    names <> [] /\
    "/proj/src/b.ts" = descend "/proj" names /\
    Forall (fun name => ignored [VStr "node_modules"; VStr ".git"] name = false)
           names /\
    content = "b".
Proof.
  split; [reflexivity|].
  destruct (files_excludes_ignored "/proj"
              [VStr "node_modules"; VStr ".git"] demo_walk_world demo_walk_world
              ["/proj/a.txt"; "/proj/src/b.ts"] eq_refl) as (_ & es & He & Hspec).
  destruct (proj1 (Hspec "/proj/src/b.ts") (or_intror (or_introl eq_refl)))
    as (names & content & Hn & Hp & Hat & Hall).
  exists names, "b". repeat split; auto.
Defined.

Lemma mergeJson_invalid_command_witness :
  let w := mkWorld "/proj" (scenario_cloned "C" "P" "T") [] in
  snd (@mergeJson demo_host (json (mkConfig (VStr "repo-url") []
                                     (arr [obj [("name", VStr "pkg.json");
                                                ("ignoreKeys", arr [VStr "version"])]])))
                  "/proj" "invalid" w) = w.
Proof.
  cbv zeta.
  apply (@mergeJson_invalid_command_writes_nothing demo_host);
    discriminate.
Defined.

(** ** Closed instances of the further properties *)

Lemma omit_removes_listed_keys_witness :
  let ps := [("version", VStr "1.0.0"); ("name", VStr "app")] in
  NoDup (map fst ps) /\
  exists po,
    omit ["version"] (VObj CObject ps) = Ok (VObj CObject po) /\
    lookup "version" po = None /\
    lookup "name" po = Some (VStr "app").
Proof.
  cbv zeta.
  assert (Hd : NoDup (map fst [("version", VStr "1.0.0"); ("name", VStr "app")]))
    by unique_keys.
  split; [exact Hd|].
  destruct (omit_removes_listed_keys ["version"] _ Hd) as (po & E & _ & Hin & Hout & _).
  exists po. split; [exact E|]. split; [now apply Hin|].
  now rewrite Hout.
Defined.

Lemma merge_keeps_ignored_keys_witness :
  let pP := [("version", VStr "1.0.0"); ("name", VStr "app")] in
  let pT := [("version", VStr "0.9.0"); ("license", VStr "MIT")] in
  includes ["version"] "version" = true /\
  NoDup (map fst pP) /\
  exists pr,
    commit_merge ["version"] (VObj CObject pP) (VObj CObject pT) = Ok (VObj CObject pr) /\
    lookup "version" pr = Some (VStr "0.9.0").
Proof.
  cbv zeta. split; [reflexivity|].
  assert (Hd : NoDup (map fst [("version", VStr "1.0.0"); ("name", VStr "app")]))
    by unique_keys.
  split; [exact Hd|].
  destruct (merge_keeps_ignored_keys ["version"]
              [("version", VStr "1.0.0"); ("name", VStr "app")]
              [("version", VStr "0.9.0"); ("license", VStr "MIT")]
              "version" eq_refl) as [Hc _].
  destruct (Hc Hd _ eq_refl) as (pr & Hr & Hl).
  exists pr. split; [now rewrite <- Hr | exact Hl].
Defined.

Lemma deepMerge_keys_union_witness :
  let pt := [("a", VNum 1); ("b", VNum 2)] in
  let ps := [("b", VNum 3); ("c", VNum 4)] in
  exists pr,
    deepMerge (VObj CObject pt) (VObj CObject ps) = Ok (VObj CObject pr) /\
    In "a" (map fst pr) /\ In "c" (map fst pr) /\ ~ In "d" (map fst pr).
Proof.
  cbv zeta.
  destruct (deepMerge_keys_union [("a", VNum 1); ("b", VNum 2)]
              [("b", VNum 3); ("c", VNum 4)] _
              ltac:(cbn; intuition discriminate) eq_refl) as (pr & Hr & Hk & _).
  exists pr. split; [now rewrite <- Hr|].
  split; [apply Hk; left; now left|].
  split; [apply Hk; right; right; now left|].
  intros Hin. apply Hk in Hin. cbn in Hin. intuition discriminate.
Defined.

Lemma deepMerge_needs_target_entry_witness :
  let ps := [("a", obj [("b", VNum 1)])] in
  proto_free (VObj CObject ps) = true /\
  lookup "a" ps = Some (obj [("b", VNum 1)]) /\
  forall r, deepMerge (VObj CObject [("x", VNum 0)]) (VObj CObject ps) <> Ok r.
Proof.
  cbv zeta. split; [reflexivity|]. split; [reflexivity|].
  apply (deepMerge_needs_target_entry [("x", VNum 0)] [("a", obj [("b", VNum 1)])]
           CObject "a" (obj [("b", VNum 1)]));
    [reflexivity | reflexivity | reflexivity | now left].
Defined.

Lemma deepMerge_replaces_scalar_entry_witness :
  let pt := [("a", VNum 7)] in
  let ps := [("a", VObj CObject [("b", VNum 1)])] in
  exists r,
    deepMerge (VObj CObject pt) (VObj CObject ps) = Ok r /\
    get r "a" = Ok (VObj CObject [("b", VNum 1)]).
Proof.
  cbv zeta. eexists. split; [reflexivity|].
  apply (deepMerge_replaces_scalar_entry [("a", VNum 7)]
           [("a", VObj CObject [("b", VNum 1)])] [("b", VNum 1)] "a" (VNum 7)).
  - unique_keys.
  - unique_keys.
  - reflexivity.
  - left. now exists 7.
  - reflexivity.
  - repeat constructor.
  - reflexivity.
Defined.

Lemma deepMerge_flat_source_idempotent_witness :
  let pt := [("a", VNum 1); ("b", obj [("x", VNull)])] in
  let ps := [("b", VNum 3); ("c", VStr "s")] in
  exists r,
    deepMerge (VObj CObject pt) (VObj CObject ps) = Ok r /\
    deepMerge r (VObj CObject ps) = Ok r.
Proof.
  cbv zeta. eexists. split; [reflexivity|].
  apply (deepMerge_flat_source_idempotent
           [("a", VNum 1); ("b", obj [("x", VNull)])] [("b", VNum 3); ("c", VStr "s")]).
  - unique_keys.
  - repeat constructor.
  - reflexivity.
  - reflexivity.
Defined.

Lemma templateFile_unclosed_group_witness :
  templateFile "/tmp/a(b/x.json" "/tmp/a(b" = Throw SyntaxError.
Proof.
  apply templateFile_unclosed_group; [reflexivity | cbn; lia].
Defined.

Lemma deepMerge_mergeable_witness :
  let t := obj [("a", obj [("x", VNum 1)]); ("z", VNum 0)] in
  let s := obj [("a", obj [("y", VNum 5)]); ("q", VBool true)] in
  mergeable t s = true /\ exists pr, deepMerge t s = Ok (VObj CObject pr).
Proof.
  cbv zeta. split; [reflexivity|].
  apply deepMerge_mergeable. reflexivity.
Defined.

Lemma path_mappings_inverse_on_safe_root_witness :
  templateFile "/home/proj/src/a.ts" "/home/proj" = Ok "/home/proj/.template/src/a.ts" /\
  normalFile "/home/proj/.template/src/a.ts" (join ["/home/proj"; ".template"]) "/home/proj"
    = Ok "/home/proj/src/a.ts".
Proof.
  apply (path_mappings_inverse_on_safe_root ["home"; "proj"] ["src"; "a.ts"]).
  - repeat constructor.
  - repeat constructor.
  - repeat constructor.
  - discriminate.
Defined.

Lemma config_ignore_list_witness :
  exists c,
    @config demo_host "/proj" (scenario_world "C" "P") = (Ok c, scenario_world "C" "P") /\
    falsy (source c) = false /\
    ignored (ignore c) ".git" = true /\
    ignored (ignore c) ".template" = true /\
    ignored (ignore c) "pkg.json" = true.
Proof.
  eexists. split; [vm_compute; reflexivity|].
  destruct (@config_ignore_list demo_host "/proj" (scenario_world "C" "P") _ _
              ltac:(vm_compute; reflexivity)) as (_ & H1 & H2 & H3 & _ & H5).
  split; [exact H1|]. split; [exact H2|]. split; [exact H3|].
  apply (H5 [obj [("name", VStr "pkg.json"); ("ignoreKeys", arr [VStr "version"])]]
            (obj [("name", VStr "pkg.json"); ("ignoreKeys", arr [VStr "version"])])
            "pkg.json"); [reflexivity | now left | reflexivity].
Defined.

Ltac unique_names := repeat (constructor; cbn; try (intuition discriminate)).

Lemma rmdir_only_removes_below_witness :
  wf_node (Dir (root demo_walk_world)) /\
  fst (rmdir "/proj/src" demo_walk_world) = Ok tt /\
  exists evs,
    effects (snd (rmdir "/proj/src" demo_walk_world)) =
    effects demo_walk_world ++ evs /\
    removals_below "/proj/src" evs.
Proof.
  assert (Hwf : wf_node (Dir (root demo_walk_world))) by unique_names.
  split; [exact Hwf|]. split; [vm_compute; reflexivity|].
  apply (rmdir_only_removes_below "/proj/src" demo_walk_world _
           (fst (rmdir "/proj/src" demo_walk_world)) Hwf).
  apply surjective_pairing.
Defined.

Lemma clone_outcome_is_git_witness :
  let w := mkWorld "/proj" (scenario_cloned "C" "P" "T") [] in
  let w1 := snd (rmdir (join ["/proj"; ".template"]) w) in
  wf_node (Dir (root w)) /\
  template_string (VStr "repo-url") = Ok "repo-url" /\
  fst (@clone demo_host (VStr "repo-url") "/proj" w) = Ok tt /\
  lookup_path ["proj"; ".template"] (Dir (root w1)) = None /\
  (exists evs,
      effects w1 = effects w ++ evs /\
      removals_below (join ["/proj"; ".template"]) evs) /\
  snd (@clone demo_host (VStr "repo-url") "/proj" w) =
  mkWorld (cwd w1)
          (snd (demo_spawn (clone_command "/proj" "repo-url") (cwd w1) (root w1)))
          (effects w1 ++ [EExec (clone_command "/proj" "repo-url")]).
Proof.
  cbv zeta.
  assert (Hwf : wf_node (Dir (root (mkWorld "/proj" (scenario_cloned "C" "P" "T") []))))
    by unique_names.
  split; [exact Hwf|]. split; [reflexivity|]. split; [vm_compute; reflexivity|].
  destruct (@clone_outcome_is_git demo_host (VStr "repo-url") "/proj" "repo-url"
              (mkWorld "/proj" (scenario_cloned "C" "P" "T") []) _ _
              Hwf eq_refl (surjective_pairing _)) as (_ & H1 & H2 & _ & H4).
  split; [|split; [exact H1 | exact H4]].
  apply (H2 ["proj"] [("pkg.json", File "T")]);
    [reflexivity | repeat constructor | reflexivity].
Defined.

Lemma mkdirp_existing_is_noop_witness :
  stat "/proj/pkg.json" (scenario_world "C" "P") = (Ok tt, scenario_world "C" "P") /\
  mkdirp "/proj/pkg.json" (scenario_world "C" "P") = (Ok tt, scenario_world "C" "P").
Proof.
  split; [vm_compute; reflexivity|].
  apply mkdirp_existing_is_noop. vm_compute. reflexivity.
Defined.

Lemma mkdirp_creates_path_witness :
  let w := scenario_world "C" "P" in
  fst (mkdirp "lib/deep" w) = Ok tt /\
  stat "/proj/lib/deep" (snd (mkdirp "lib/deep" w)) = (Ok tt, snd (mkdirp "lib/deep" w)) /\
  readFile "/proj/pkg.json" (snd (mkdirp "lib/deep" w)) =
    (Ok "P", snd (mkdirp "lib/deep" w)).
Proof.
  cbv zeta. split; [vm_compute; reflexivity|].
  destruct (mkdirp_creates_path "lib/deep" (scenario_world "C" "P")
              (snd (mkdirp "lib/deep" (scenario_world "C" "P"))))
    as ((rs & Hr & _ & H1) & _ & H3).
  - vm_compute. reflexivity.
  - split; [|apply H3; vm_compute; reflexivity].
    assert (E : resolve "lib/deep" (scenario_world "C" "P") =
                (Ok "/proj/lib/deep", scenario_world "C" "P"))
      by (vm_compute; reflexivity).
    rewrite E in Hr. injection Hr as Ers. now rewrite Ers.
Defined.

Lemma rmdir_removes_directory_witness :
  exists w',
    rmdir "/proj/src" demo_walk_world = (Ok tt, w') /\
    lookup_path ["proj"; "src"] (Dir (root w')) = None /\
    lookup_path ["proj"; "a.txt"] (Dir (root w')) = Some (File "a").
Proof.
  destruct (rmdir_removes_directory ["proj"; "src"]
              [("b.ts", File "b"); (".git", Dir [("c", File "c")])]
              demo_walk_world)
    as (w' & H1 & _ & H3 & H4).
  - unique_names.
  - repeat constructor.
  - discriminate.
  - reflexivity.
  - exists w'. split; [exact H1|]. split; [exact H3|].
    rewrite (H4 ["proj"; "a.txt"]); [reflexivity| |]; intros r; discriminate.
Defined.

Lemma files_lists_readable_files_witness :
  let ignore := [VStr "node_modules"; VStr ".git"] in
  In "/proj/src/b.ts"
     (match fst (files "/proj" ignore demo_walk_world) with
      | Ok paths => paths
      | Throw _ => []
      end) /\
  exists content, readFile "/proj/src/b.ts" demo_walk_world = (Ok content, demo_walk_world).
Proof.
  cbv zeta. split; [vm_compute; auto|].
  destruct (files_lists_readable_files ["proj"] [VStr "node_modules"; VStr ".git"]
              demo_walk_world demo_walk_world
              ["/proj/a.txt"; "/proj/src/b.ts"] "/proj/src/b.ts")
    as (names & content & _ & _ & _ & Hr).
  - repeat (constructor; cbn; try (intuition discriminate)).
  - repeat constructor.
  - vm_compute. reflexivity.
  - right. now left.
  - now exists content.
Defined.

Lemma mergeJsonFile_effects_witness :
  let w := mkWorld "/proj" (scenario_cloned "C" "P" "T") [] in
  let jsonFile := obj [("name", VStr "pkg.json"); ("ignoreKeys", arr [VStr "version"])] in
  fst (@mergeJsonFile demo_host "/proj" COMMIT jsonFile w) = Ok tt /\
  exists v mk,
    commit_merge ["version"] scenario_project scenario_template = Ok v /\
    effects (snd (@mergeJsonFile demo_host "/proj" COMMIT jsonFile w)) =
    effects w ++ mk ++ [EWriteFile "/proj/.template/pkg.json" (@stringify demo_host v)] /\
    Forall (fun e => is_mkdir e = true) mk.
Proof.
  cbv zeta.
  assert (Hres : fst (@mergeJsonFile demo_host "/proj" COMMIT
              (obj [("name", VStr "pkg.json"); ("ignoreKeys", arr [VStr "version"])])
              (mkWorld "/proj" (scenario_cloned "C" "P" "T") [])) = Ok tt)
    by (vm_compute; reflexivity).
  split; [exact Hres|].
  destruct (@mergeJsonFile_effects demo_host "/proj" COMMIT
              (obj [("name", VStr "pkg.json"); ("ignoreKeys", arr [VStr "version"])])
              (mkWorld "/proj" (scenario_cloned "C" "P" "T") []) _ _
              (surjective_pairing _)) as (_ & H).
  destruct (H Hres)
    as (name & tf & keysV & keys & P & T & Hn & Htf & Hk & Hks & HP & HT & Hc & _).
  destruct (Hc eq_refl) as (v & mk & Hv & He & Hmk).
  exists v, mk.
  injection Hn as <-. injection Hk as <-.
  assert (Etf : templateFile (join ["/proj"; "pkg.json"]) "/proj" =
                Ok "/proj/.template/pkg.json") by (vm_compute; reflexivity).
  rewrite Etf in Htf. injection Htf as <-.
  injection Hks as <-.
  assert (EP : @readJson demo_host (join ["/proj"; "pkg.json"])
                 (mkWorld "/proj" (scenario_cloned "C" "P" "T") []) =
               (Ok scenario_project, mkWorld "/proj" (scenario_cloned "C" "P" "T") []))
    by (vm_compute; reflexivity).
  assert (ET : @readJson demo_host "/proj/.template/pkg.json"
                 (mkWorld "/proj" (scenario_cloned "C" "P" "T") []) =
               (Ok scenario_template, mkWorld "/proj" (scenario_cloned "C" "P" "T") []))
    by (vm_compute; reflexivity).
  rewrite EP in HP. rewrite ET in HT.
  injection HP as <-. injection HT as <-.
  split; [exact Hv|]. split; [exact He | exact Hmk].
Defined.

Lemma main_stops_when_git_fails_witness :
  let w := mkWorld "/proj" (scenario_cloned "C" "P" "T") [] in
  wf_node (Dir (root w)) /\
  fst (@main offline_host "/proj" COMMIT w) = Throw ExecError /\
  exists evs,
    effects (snd (@main offline_host "/proj" COMMIT w)) =
    effects w ++ evs ++ [EExec (clone_command "/proj" "repo-url")] /\
    removals_below (join ["/proj"; ".template"]) evs.
Proof.
  cbv zeta.
  assert (Hwf : wf_node (Dir (root (mkWorld "/proj" (scenario_cloned "C" "P" "T") []))))
    by unique_names.
  split; [exact Hwf|].
  apply (@main_stops_when_git_fails offline_host "/proj" COMMIT "repo-url"
           (mkConfig (VStr "repo-url")
                     [VStr "pkg.json"; VStr ".git"; VStr ".template"]
                     (arr [obj [("name", VStr "pkg.json");
                                ("ignoreKeys", arr [VStr "version"])]]))
           (mkWorld "/proj" (scenario_cloned "C" "P" "T") [])).
  - exact Hwf.
  - vm_compute. reflexivity.
  - reflexivity.
  - reflexivity.
  - apply surjective_pairing.
Defined.

Lemma pull_again_writes_same_text_witness :
  let w := mkWorld "/proj" (scenario_cloned "C" "P" "T") [] in
  let w1 := snd (@mergeJsonFile pull_host "/proj" PULL pull_jsonFile w) in
  let w3 := snd (@mergeJsonFile pull_host "/proj" PULL pull_jsonFile w1) in
  readFile "/proj/pkg.json" w1 = (Ok "M", w1) /\
  exists text before1 before3,
    effects w1 = before1 ++ [EWriteFile (join ["/proj"; "pkg.json"]) text] /\
    effects w3 = before3 ++ [EWriteFile (join ["/proj"; "pkg.json"]) text].
Proof.
  cbv zeta. split; [vm_compute; reflexivity|].
  apply (@pull_again_writes_same_text pull_host "/proj" pull_jsonFile
           (arr [VStr "version"; VStr "name"]) ["version"; "name"]
           "pkg.json" "/proj/.template/pkg.json"
           [("version", VStr "1.0.0"); ("name", VStr "app")]
           [("version", VStr "0.9.0"); ("name", VStr "template-app");
            ("license", VStr "MIT")]
           (mkWorld "/proj" (scenario_cloned "C" "P" "T") [])
           _
           (snd (@mergeJsonFile pull_host "/proj" PULL pull_jsonFile
                   (mkWorld "/proj" (scenario_cloned "C" "P" "T") [])))
           _).
  - reflexivity.
  - reflexivity.
  - reflexivity.
  - vm_compute. reflexivity.
  - cbn; repeat constructor; cbn; intuition discriminate.
  - cbn. intros k [<-|[<-|[]]] [E|[E|[E|[]]]]; try discriminate E; reflexivity.
  - vm_compute. reflexivity.
  - vm_compute. reflexivity.
  - vm_compute. reflexivity.
  - intros v Hv. vm_compute in Hv. injection Hv as <-. vm_compute. reflexivity.
  - vm_compute. reflexivity.
  - vm_compute. reflexivity.
Defined.

Lemma templateFile_ignores_directory_boundary_witness :
  templateFile "/home/app-old/x.json" "/home/app" =
  Ok "/home/app/.template/-old/x.json".
Proof.
  apply (templateFile_ignores_directory_boundary ["home"] "app" "-old" ["x.json"]);
    repeat constructor.
Defined.
